(** * lsm-kv-store: the HTTP facade over the storage engine

    A shallow embedding of [src/server/index.ts] (class [HTTPServer] and its
    route handlers), of [src/server/ReplicationStatusAdapter.ts] and of
    [src/server/IReplicationStatusProvider.ts], together with a model of the
    LSM storage engine the handlers talk to.

    Conventions.
    - A JS string is modelled by a [string]; its characters stand for the code
      units below 256, and keys are compared code unit by code unit.
    - [await] is sequencing; a rejected promise and a thrown exception are the
      [Throw] outcome of the [Async] monad, which also threads the state of
      the storage engine.
    - One request is handled at a time (the interleaving of concurrent
      requests is outside this development). *)

From Stdlib Require Import ZArith String Ascii List Bool Lia.
From Stdlib Require Import OrdersEx DecimalString DecimalNat Sorted.
From stdpp Require Import base option list strings gmap.

Set Default Proof Using "Type".
Set Warnings "-register-all".

(* ================================================================== *)
(** * JavaScript values as the handlers see them                       *)
(* ================================================================== *)

(** What the handlers need to know about a JS number: [String(n)] and
    whether [n] is truthy ([0], [-0] and [NaN] are not). *)
Class JsNumber (number : Type) := {
  number_toString : number → string;
  number_truthy : number → bool;
}.

(** The result of [JSON.parse]. An object keeps its members in source order;
    a duplicated name is resolved at lookup (the last one wins). *)
Inductive Json {number : Type} : Type :=
| JNull
| JBool (b : bool)
| JNumber (n : number)
| JString (s : string)
| JArray (elements : list Json)
| JObject (members : list (string * Json)).
Global Arguments Json : clear implicits.

(** A value a handler can hold after reading a property: [undefined], a
    parsed JSON value, or a built-in method found on [Array.prototype]. *)
Inductive JsValue {number : Type} : Type :=
| Undefined
| FromJson (j : Json number)
| NativeFunction (name : string).
Global Arguments JsValue : clear implicits.

(** What can be thrown at a handler: a [TypeError] of the JS runtime, or
    whatever the engine rejects with. *)
Inductive Exception : Type :=
| TypeError
| EngineError (message : string).

Inductive Result (A : Type) : Type :=
| Ok (a : A)
| Throw (e : Exception).
Global Arguments Ok {A} a.
Global Arguments Throw {A} e.

Section JsValues.
Context {number : Type} `{JsNumber number}.

(** Own-property lookup in a parsed object: [JSON.parse] keeps the last
    member of a duplicated name. *)
Fixpoint own_property (name : string) (members : list (string * Json number))
  : option (Json number) :=
  match members with
  | [] => None
  | (n, v) :: rest =>
      match own_property name rest with
      | Some later => Some later
      | None => if String.eqb n name then Some v else None
      end
  end.

(** The three methods of [Array.prototype] whose names the batch handler
    destructures from the body. *)
Definition array_method (name : string) : bool :=
  String.eqb name "entries" || String.eqb name "keys" || String.eqb name "values".

(** [v[name]] for the property names the handlers read: [key], [value],
    [entries], [keys], [values]. Reading a property of [null] throws; a
    primitive has none of these names; an array inherits the three
    iteration methods. *)
Definition get_property (v : Json number) (name : string) : Result (JsValue number) :=
  match v with
  | JNull => Throw TypeError
  | JObject members =>
      match own_property name members with
      | Some j => Ok (FromJson j)
      | None => Ok Undefined
      end
  | JArray _ => if array_method name then Ok (NativeFunction name) else Ok Undefined
  | JBool _ | JNumber _ | JString _ => Ok Undefined
  end.

(** [!!v] *)
Definition truthy (v : Json number) : bool :=
  match v with
  | JNull => false
  | JBool b => b
  | JNumber n => number_truthy n
  | JString s => negb (String.eqb s "")
  | JArray _ | JObject _ => true
  end.

(** [String(v)] on a parsed JSON value ([ToPrimitive] with hint string).
    An object answers through its [toString]: [Object.prototype.toString]
    when the object has no member of that name, giving [[object Object]];
    a member named [toString] shadows it, is not callable (no JSON value
    is), and neither is a member [valueOf] nor does
    [Object.prototype.valueOf] give a primitive, so the conversion throws a
    [TypeError]. An array is its elements joined by commas, each converted
    in turn, [null] elements giving the empty string. *)
Fixpoint json_toString (v : Json number) : Result string :=
  match v with
  | JNull => Ok "null"
  | JBool true => Ok "true"
  | JBool false => Ok "false"
  | JNumber n => Ok (number_toString n)
  | JString s => Ok s
  | JArray elements =>
      (fix join (elements : list (Json number)) : Result string :=
         match elements with
         | [] => Ok ""
         | e :: rest =>
             match match e with JNull => Ok "" | _ => json_toString e end with
             | Throw err => Throw err
             | Ok part =>
                 match rest with
                 | [] => Ok part
                 | _ =>
                     match join rest with
                     | Throw err => Throw err
                     | Ok parts => Ok (part +:+ "," +:+ parts)
                     end
                 end
             end
         end) elements
  | JObject members =>
      match own_property "toString" members with
      | Some _ => Throw TypeError
      | None => Ok "[object Object]"
      end
  end.

(** [String(v)] *)
Definition js_String (v : JsValue number) : Result string :=
  match v with
  | Undefined => Ok "undefined"
  | FromJson j => json_toString j
  | NativeFunction name => Ok ("function " +:+ name +:+ "() { [native code] }")
  end.

(** [Array.isArray(v)], giving the elements. *)
Definition as_array (v : JsValue number) : option (list (Json number)) :=
  match v with
  | FromJson (JArray elements) => Some elements
  | _ => None
  end.

(** [typeof v === 'string' && v.length !== 0], giving the string. *)
Definition as_nonempty_string (v : JsValue number) : option string :=
  match v with
  | FromJson (JString s) => if String.eqb s "" then None else Some s
  | _ => None
  end.

(** [v === undefined || v === null] *)
Definition nullish (v : JsValue number) : bool :=
  match v with
  | Undefined | FromJson JNull => true
  | _ => false
  end.
End JsValues.

(* ================================================================== *)
(** * The storage engine as the facade sees it                         *)
(* ================================================================== *)

(** A computation that awaits the engine: it runs on the engine's state and
    either resolves or throws, leaving a state behind in both cases. *)
Definition Async (S A : Type) : Type := S → Result A * S.

Definition resolve {S A} (a : A) : Async S A := fun s => (Ok a, s).
Definition await {S A B} (m : Async S A) (k : A → Async S B) : Async S B :=
  fun s => match m s with
           | (Ok a, s') => k a s'
           | (Throw e, s') => (Throw e, s')
           end.
Definition settled {S A} (r : Result A) : Async S A := fun s => (r, s).

Notation "x <~ m ; k" := (await m (fun x => k))
  (at level 20, m at level 100, k at level 200, only parsing).

(** The methods of [IStorageEngine] the facade calls. [readKeyRange] is the
    async iterable drained to the list of pairs it yields. *)
Class IStorageEngine (S : Type) := {
  put : string → string → Async S unit;
  get : string → Async S (option string);
  delete : string → Async S unit;
  batchPut : list (string * string) → Async S nat;
  readKeyRange : string → string → option Z → Async S (list (string * string));
}.

(* ================================================================== *)
(** * Replication status ([IReplicationStatusProvider.ts],
      [ReplicationStatusAdapter.ts])                                   *)
(* ================================================================== *)

(** [ReplicationState] and [ReplicationMetrics] come from
    [replication/ReplicationTypes]; the facade only passes them on, so they
    are type parameters here. *)
Record ReplicationStatus (ReplicationState ReplicationMetrics : Type) : Type := {
  state : ReplicationState;
  metrics : ReplicationMetrics;
}.
Global Arguments state {_ _} _.
Global Arguments metrics {_ _} _.

(** [interface IReplicationStatusProvider] *)
Class IReplicationStatusProvider (P ReplicationState ReplicationMetrics : Type) := {
  getReplicationStatus : P → ReplicationStatus ReplicationState ReplicationMetrics;
}.

(** The two getters of [IReplicationManager] the adapter calls. *)
Class IReplicationManager (M ReplicationState ReplicationMetrics : Type) := {
  manager_getState : M → ReplicationState;
  manager_getMetrics : M → ReplicationMetrics;
}.

(** The two getters of [IReplicationServer] the adapter calls. *)
Class IReplicationServer (B ReplicationState ReplicationMetrics : Type) := {
  server_getState : B → ReplicationState;
  server_getMetrics : B → ReplicationMetrics;
}.

(** [class ReplicationManagerStatusAdapter]: the wrapped manager. *)
Record ReplicationManagerStatusAdapter (M : Type) : Type := {
  manager : M;
}.
Global Arguments manager {_} _.

(** [class ReplicationServerStatusAdapter]: the wrapped server. *)
Record ReplicationServerStatusAdapter (B : Type) : Type := {
  server : B;
}.
Global Arguments server {_} _.

Global Instance ReplicationManagerStatusAdapter_provider {M St Me}
  `{IReplicationManager M St Me}
  : IReplicationStatusProvider (ReplicationManagerStatusAdapter M) St Me := {
  getReplicationStatus this :=
    {| state := manager_getState (manager this);
       metrics := manager_getMetrics (manager this) |};
}.

Global Instance ReplicationServerStatusAdapter_provider {B St Me}
  `{IReplicationServer B St Me}
  : IReplicationStatusProvider (ReplicationServerStatusAdapter B) St Me := {
  getReplicationStatus this :=
    {| state := server_getState (server this);
       metrics := server_getMetrics (server this) |};
}.

(* ================================================================== *)
(** * [class HTTPServer] ([src/server/index.ts])                       *)
(* ================================================================== *)

(** [interface ParsedRequest] *)
Record ParsedRequest (number : Type) : Type := {
  method : string;
  path : string;
  params : gmap string string;
  query : gmap string string;
  body : Json number;
}.
Global Arguments method {_} _.
Global Arguments path {_} _.
Global Arguments params {_} _.
Global Arguments query {_} _.
Global Arguments body {_} _.

(** The object literals the handlers pass to [res.json]. *)
Inductive Payload (ReplicationState ReplicationMetrics : Type) : Type :=
| ErrorPayload (error : string)
    (* { error } *)
| KeyNotFoundPayload (error key : string)
    (* { error: 'Key not found', key } *)
| SuccessPayload
    (* { success: true } *)
| BatchPayload (count : nat)
    (* { success: true, count } *)
| ValuePayload (key value : string)
    (* { key, value } *)
| RangePayload (count : nat) (results : list (string * string))
    (* { count: results.length, results } *)
| StandalonePayload (message : string)
    (* { enabled: false, message } *)
| ReplicationPayload (st : ReplicationState) (me : ReplicationMetrics)
    (* { enabled: true, state, metrics } *).
Global Arguments ErrorPayload {_ _} _.
Global Arguments KeyNotFoundPayload {_ _} _ _.
Global Arguments SuccessPayload {_ _}.
Global Arguments BatchPayload {_ _} _.
Global Arguments ValuePayload {_ _} _ _.
Global Arguments RangePayload {_ _} _ _.
Global Arguments StandalonePayload {_ _} _.
Global Arguments ReplicationPayload {_ _} _ _.

(** What [ResponseHelper] has sent when the handler is done: the status code
    (200 unless [status] was called) and the JSON payload. *)
Record Response (ReplicationState ReplicationMetrics : Type) : Type := {
  statusCode : Z;
  payload : Payload ReplicationState ReplicationMetrics;
}.
Global Arguments statusCode {_ _} _.
Global Arguments payload {_ _} _.

(** A name between double quotes, as the error text of [handleBatchPut]
    spells the accepted properties. *)
Definition quoted (name : string) : string :=
  String (ascii_of_nat 34) name +:+ String (ascii_of_nat 34) EmptyString.

(** [String(i)] for an array index, as the template literals print it. *)
Definition index_toString (i : nat) : string :=
  NilZero.string_of_uint (Nat.to_uint i).

(** ** [parseInt(s, 10)] *)

(** White space that [parseInt] skips, among the 8-bit code units. *)
Definition is_white_space (c : ascii) : bool :=
  let n := nat_of_ascii c in
  (n =? 9)%nat || (n =? 10)%nat || (n =? 11)%nat || (n =? 12)%nat
  || (n =? 13)%nat || (n =? 32)%nat || (n =? 160)%nat.

Fixpoint trim_start (s : string) : string :=
  match s with
  | String c rest => if is_white_space c then trim_start rest else s
  | EmptyString => EmptyString
  end.

Definition digit_value (c : ascii) : option Z :=
  let n := nat_of_ascii c in
  if (48 <=? n)%nat && (n <=? 57)%nat then Some (Z.of_nat (n - 48)) else None.

(** The value of the longest prefix of decimal digits of [s], read after the
    digits [acc] already seen; [None] when no digit has been seen at all. *)
Fixpoint digits_prefix (acc : option Z) (s : string) : option Z :=
  match s with
  | String c rest =>
      match digit_value c with
      | Some d => digits_prefix (Some (10 * default 0 acc + d)%Z) rest
      | None => acc
      end
  | EmptyString => acc
  end.

(** [parseInt(s, 10)]: leading white space is skipped, one sign is read, then
    the longest run of decimal digits; whatever follows is ignored. [None] is
    [NaN]. The result is the exact integer read, with [-0] as [0].
    [parseInt] gives the double nearest to it, which is that integer as long
    as its magnitude is at most [2^53]; a larger number is outside what this
    definition models, and the statements that depend on the value read
    carry the bound as a hypothesis. *)
Definition parseInt10 (s : string) : option Z :=
  match trim_start s with
  | String "-" rest => Z.opp <$> digits_prefix None rest
  | String "+" rest => digits_prefix None rest
  | t => digits_prefix None t
  end.

Section HTTPServer.
Context {number : Type} `{JsNumber number}.
Context {S : Type} `{IStorageEngine S}.
Context {ReplicationState ReplicationMetrics : Type}.

Local Abbreviation Response := (Response ReplicationState ReplicationMetrics).
Local Abbreviation ParsedRequest := (ParsedRequest number).

(** [res.status(code).json(data)] *)
Definition status_json (code : Z) (data : Payload ReplicationState ReplicationMetrics)
  : Response :=
  {| statusCode := code; payload := data |}.

(** [res.json(data)]: the status code of a fresh response is 200. *)
Definition json (data : Payload ReplicationState ReplicationMetrics) : Response :=
  status_json 200 data.

(** [handlePut] *)
Definition handlePut (req : ParsedRequest) : Async S Response :=
  key <~ settled (get_property (body req) "key");
  value <~ settled (get_property (body req) "value");
  match as_nonempty_string key with
  | None => resolve (status_json 400 (ErrorPayload "Invalid key: must be non-empty string"))
  | Some key =>
      if nullish value
      then resolve (status_json 400
                      (ErrorPayload "Invalid value: must not be null or undefined"))
      else
        text <~ settled (js_String value);
        _ <~ put key text;
        resolve (json SuccessPayload)
  end.

(** The loop of [handleBatchPut] over the [entries] array, from index [i]
    on: the 400 response of the first bad entry, or the parsed entries. *)
Fixpoint parse_entries (i : nat) (entries : list (Json number))
  : Result (Response + list (string * string)) :=
  match entries with
  | [] => Ok (inr [])
  | entry :: rest =>
      let invalid_key :=
        Ok (inl (status_json 400
                   (ErrorPayload ("Invalid key at index " +:+ index_toString i
                                  +:+ ": must be non-empty string")))) in
      if negb (truthy entry) then invalid_key
      else
        match get_property entry "key" with
        | Throw e => Throw e
        | Ok key =>
            match as_nonempty_string key with
            | None => invalid_key
            | Some key =>
                match get_property entry "value" with
                | Throw e => Throw e
                | Ok value =>
                    if nullish value
                    then Ok (inl (status_json 400
                                    (ErrorPayload
                                       ("Invalid value at index " +:+ index_toString i
                                        +:+ ": must not be null or undefined"))))
                    else
                      match js_String value with
                      | Throw e => Throw e
                      | Ok text =>
                          match parse_entries (Datatypes.S i) rest with
                          | Ok (inr parsed) => Ok (inr ((key, text) :: parsed))
                          | other => other
                          end
                      end
                end
            end
        end
  end.

(** The loop of [handleBatchPut] over [keys] and [values] (of equal
    length), from index [i] on. *)
Fixpoint parse_keys_values (i : nat) (keys values : list (Json number))
  : Result (Response + list (string * string)) :=
  match keys, values with
  | key :: keys', value :: values' =>
      match as_nonempty_string (FromJson key) with
      | None =>
          Ok (inl (status_json 400
                     (ErrorPayload ("Invalid key at index " +:+ index_toString i
                                    +:+ ": must be non-empty string"))))
      | Some key =>
          if nullish (FromJson value)
          then Ok (inl (status_json 400
                          (ErrorPayload ("Invalid value at index " +:+ index_toString i
                                         +:+ ": must not be null or undefined"))))
          else
            match js_String (FromJson value) with
            | Throw e => Throw e
            | Ok text =>
                match parse_keys_values (Datatypes.S i) keys' values' with
                | Ok (inr parsed) => Ok (inr ((key, text) :: parsed))
                | other => other
                end
            end
      end
  | _, _ => Ok (inr [])
  end.

(** The part of [handleBatchPut] that builds [parsedEntries]. *)
Definition parse_batch (entries keys values : JsValue number)
  : Result (Response + list (string * string)) :=
  match as_array entries with
  | Some entries => parse_entries 0 entries
  | None =>
      match as_array keys, as_array values with
      | Some keys, Some values =>
          if negb (length keys =? length values)%nat
          then Ok (inl (status_json 400
                          (ErrorPayload "Keys and values arrays must have the same length")))
          else parse_keys_values 0 keys values
      | _, _ =>
          Ok (inl (status_json 400
                     (ErrorPayload
                        ("Invalid request body: provide either " +:+ quoted "entries"
                         +:+ " array or " +:+ quoted "keys" +:+ " and "
                         +:+ quoted "values" +:+ " arrays"))))
      end
  end.

(** [handleBatchPut] *)
Definition handleBatchPut (req : ParsedRequest) : Async S Response :=
  entries <~ settled (get_property (body req) "entries");
  keys <~ settled (get_property (body req) "keys");
  values <~ settled (get_property (body req) "values");
  parsed <~ settled (parse_batch entries keys values);
  match parsed with
  | inl bad_request => resolve bad_request
  | inr parsedEntries =>
      if (length parsedEntries =? 0)%nat
      then resolve (status_json 400 (ErrorPayload "No entries provided"))
      else
        count <~ batchPut parsedEntries;
        resolve (json (BatchPayload count))
  end.

(** [req.params.key] when it is truthy: [!key] holds for a missing parameter
    and for the empty string. *)
Definition truthy_param (key : option string) : option string :=
  match key with
  | Some k => if String.eqb k "" then None else Some k
  | None => None
  end.

(** [handleGet] *)
Definition handleGet (req : ParsedRequest) : Async S Response :=
  match truthy_param (params req !! "key") with
  | None => resolve (status_json 400 (ErrorPayload "Key parameter required"))
  | Some key =>
      value <~ get key;
      match value with
      | None => resolve (status_json 404 (KeyNotFoundPayload "Key not found" key))
      | Some value => resolve (json (ValuePayload key value))
      end
  end.

(** [handleDelete] *)
Definition handleDelete (req : ParsedRequest) : Async S Response :=
  match truthy_param (params req !! "key") with
  | None => resolve (status_json 400 (ErrorPayload "Key parameter required"))
  | Some key =>
      _ <~ delete key;
      resolve (json SuccessPayload)
  end.

(** The [limit] part of [handleRange]: [parsedLimit], or [None] where the
    handler answers 400. *)
Definition parse_limit (limit : option string) : option Z :=
  match limit with
  | None => Some 100%Z
  | Some limit =>
      match parseInt10 limit with
      | None => None                                   (* isNaN(parsedLimit) *)
      | Some parsedLimit =>
          if (parsedLimit <? 1)%Z then None else Some parsedLimit
      end
  end.

(** [handleRange]. A query parameter is a string or [undefined], so
    [typeof start !== 'string' || start.length === 0] is [!start]. *)
Definition handleRange (req : ParsedRequest) : Async S Response :=
  match truthy_param (query req !! "start") with
  | None => resolve (status_json 400 (ErrorPayload "Invalid start: must be non-empty string"))
  | Some start =>
      match truthy_param (query req !! "end") with
      | None => resolve (status_json 400 (ErrorPayload "Invalid end: must be non-empty string"))
      | Some end_ =>
          match parse_limit (query req !! "limit") with
          | None =>
              resolve (status_json 400 (ErrorPayload "Invalid limit: must be positive integer"))
          | Some parsedLimit =>
              results <~ readKeyRange start end_ (Some parsedLimit);
              resolve (json (RangePayload (length results) results))
          end
      end
  end.

(** [handleReplicationStatus], for the server's
    [replicationStatusProvider] field. *)
Definition handleReplicationStatus {P : Type}
    `{IReplicationStatusProvider P ReplicationState ReplicationMetrics}
    (replicationStatusProvider : option P) (_req : ParsedRequest) : Async S Response :=
  match replicationStatusProvider with
  | None =>
      resolve (json (StandalonePayload "Replication not configured (standalone mode)"))
  | Some provider =>
      let status := getReplicationStatus provider in
      resolve (json (ReplicationPayload (state status) (metrics status)))
  end.

(** The [try]/[catch] of [handleRequest] around the handler of the route
    that was found: whatever the handler throws becomes a 500. *)
Definition handleRequest (handler : ParsedRequest → Async S Response)
    (req : ParsedRequest) (s : S) : Response * S :=
  match handler req s with
  | (Ok response, s') => (response, s')
  | (Throw _, s') => (status_json 500 (ErrorPayload "Internal server error"), s')
  end.
End HTTPServer.

(* ================================================================== *)
(** * The LSM storage engine                                           *)
(* ================================================================== *)

(** Class [LSMStore] ([src/storage/LSMStore], the [IStorageEngine] behind
    the facade) is not among the sources. Module [LSM] models it from
    sections 3, 4.3, 4.5, 4.6 and 4.7 of the specification: an active
    MemTable, sealed MemTables and level-0 SSTables, each an ascending run of
    keys; point reads probe them newest first; range scans run the merge
    iterator over them. Byte-level framing (records, blocks, checksums), the
    replication channel and the sync policy do not decide what a read
    returns in the same process and are left out. *)
Module LSM.

(** [type] of an entry: PUT = 1, DELETE = 2. *)
Inductive EntryType : Type := PUT | DELETE.

(** Modelled from the spec: the entry of section 3, what a table maps a key
    to: ([type], [seq], [value]); a tombstone is a DELETE entry with an empty
    value. *)
Record Entry : Type := {
  type : EntryType;
  seq : Z;
  value : string;
}.

(** Modelled from the spec: a MemTable, and the sorted run of an SSTable
    (section 3): keys ascending. *)
Definition Table : Type := list (string * Entry).

Record WalRecord : Type := {
  wal_type : EntryType;
  wal_seq : Z;
  wal_key : string;
  wal_value : string;
}.

Record Config : Type := {
  memTableSizeLimit : N;
  fixed_overhead : N;
}.

(** Modelled from the spec: the state of [LSMStore] (sections 3 and 4.7). *)
Record Store : Type := {
  config : Config;
  wal : list WalRecord;                  (* current epoch, in append order *)
  wal_sealed : list (list WalRecord);    (* epochs of the sealed MemTables, newest first *)
  memtable_active : Table;
  memtable_immutable : list Table;       (* sealed MemTables, newest first *)
  sstables : list Table;                 (* level-0 set, newest first *)
  sequence : Z;                          (* next sequence number *)
  degraded : bool;                       (* read-only after an I/O failure *)
}.

(** Lexicographic order on keys. *)
Definition key_lt : string → string → Prop := String_as_OT.lt.
Definition key_ltb (a b : string) : bool :=
  match String_as_OT.compare a b with Lt => true | _ => false end.
Definition key_leb (a b : string) : bool := negb (key_ltb b a).

(** Keys strictly ascending, in a table or in the pairs of a scan. *)
Definition ascending {A : Type} (l : list (string * A)) : Prop :=
  StronglySorted (fun p q => key_lt p.1 q.1) l.

(** [start <= key <= end] *)
Definition in_range (start end_ key : string) : Prop :=
  key_leb start key = true ∧ key_leb key end_ = true.

(** Modelled from the spec: MemTable [put]/[delete] (sections 3 and 4.3): a
    newer write replaces the prior entry of the key, whatever its sequence
    number. *)
Fixpoint table_insert (key : string) (e : Entry) (t : Table) : Table :=
  match t with
  | [] => [(key, e)]
  | (k, old) :: rest =>
      match String_as_OT.compare key k with
      | Lt => (key, e) :: t
      | Eq => (key, e) :: rest
      | Gt => (k, old) :: table_insert key e rest
      end
  end.

(** Modelled from the spec: [get(key)] of a MemTable or an SSTable
    (sections 4.3 and 4.5). *)
Fixpoint table_get (key : string) (t : Table) : option Entry :=
  match t with
  | [] => None
  | (k, e) :: rest => if String.eqb k key then Some e else table_get key rest
  end.

(** Modelled from the spec: [scan(start, end)] of a MemTable or an SSTable
    (sections 4.3 and 4.5): position at [start], then yield entries up to and
    including [end]. *)
Fixpoint scan (start end_ : string) (t : Table) : Table :=
  match t with
  | [] => []
  | (k, e) :: rest =>
      if key_ltb k start then scan start end_ rest
      else if key_leb k end_ then (k, e) :: scan start end_ rest
      else []
  end.

(** Modelled from the spec: [approximate_bytes] (section 4.3): key and
    value lengths plus a fixed overhead, per entry. *)
Definition approximate_bytes (cfg : Config) (t : Table) : N :=
  fold_right N.add 0%N
    (List.map (fun '(k, e) => (N.of_nat (String.length k) + N.of_nat (String.length (value e))
                               + fixed_overhead cfg)%N) t).

Definition empty (cfg : Config) : Store :=
  {| config := cfg; wal := []; wal_sealed := [];
     memtable_active := []; memtable_immutable := []; sstables := [];
     sequence := 1; degraded := false |}.

(** Modelled from the spec: ACTIVE -> FLUSHING (section 4.7): the active
    MemTable is sealed, a fresh one is created and a new WAL epoch begins. *)
Definition seal (s : Store) : Store :=
  {| config := config s; wal := []; wal_sealed := wal s :: wal_sealed s;
     memtable_active := [];
     memtable_immutable := memtable_active s :: memtable_immutable s;
     sstables := sstables s; sequence := sequence s; degraded := degraded s |}.

(** Modelled from the spec: the flush task (section 4.7): the oldest sealed
    MemTable becomes the newest SSTable and its WAL epoch is deleted. *)
Definition flush (s : Store) : Store :=
  match List.rev (memtable_immutable s) with
  | [] => s
  | oldest :: newer_reversed =>
      {| config := config s; wal := wal s;
         wal_sealed := List.removelast (wal_sealed s);
         memtable_active := memtable_active s;
         memtable_immutable := List.rev newer_reversed;
         sstables := oldest :: sstables s;
         sequence := sequence s; degraded := degraded s |}
  end.

(** Modelled from the spec: the write path of [LSMStore.put] and
    [LSMStore.delete] (section 4.7): allocate a sequence number, append to
    the WAL, insert into the MemTable, check overflow. A degraded engine
    fails writes and an empty key is a validation error (section 7). *)
Definition write (ty : EntryType) (key val : string) : Async Store unit :=
  fun s =>
    if degraded s then (Throw (EngineError "IOError"), s)
    else if String.eqb key "" then (Throw (EngineError "ValidationError"), s)
    else
      let n := sequence s in
      let s' :=
        {| config := config s;
           wal := wal s ++ [ {| wal_type := ty; wal_seq := n;
                                wal_key := key; wal_value := val |} ];
           wal_sealed := wal_sealed s;
           memtable_active :=
             table_insert key {| type := ty; seq := n; value := val |} (memtable_active s);
           memtable_immutable := memtable_immutable s;
           sstables := sstables s; sequence := (n + 1)%Z; degraded := degraded s |} in
      if (memTableSizeLimit (config s') <=? approximate_bytes (config s') (memtable_active s'))%N
      then (Ok tt, seal s')
      else (Ok tt, s').

(** Modelled from the spec: [LSMStore.put] (section 4.7). *)
Definition put (key val : string) : Async Store unit := write PUT key val.

(** Modelled from the spec: [LSMStore.delete] (section 4.7): the same path
    with type DELETE and an empty value. *)
Definition delete (key : string) : Async Store unit := write DELETE key "".

(** Modelled from the spec: [LSMStore.batchPut] (section 4.7): each entry
    is its own write, in order; the entries written before a failure stay
    written. Returns the entry count. *)
Fixpoint batch_put (entries : list (string * string)) : Async Store nat :=
  match entries with
  | [] => resolve 0%nat
  | (key, val) :: rest =>
      _ <~ put key val;
      count <~ batch_put rest;
      resolve (Datatypes.S count)
  end.

(** Modelled from the spec: every source of a read, in probing order
    (section 4.7): active MemTable, sealed MemTables newest first, SSTables
    newest first. *)
Definition sources (s : Store) : list Table :=
  memtable_active s :: memtable_immutable s ++ sstables s.

(** Modelled from the spec: the first source that has the key decides
    (sections 3 and 4.7). *)
Fixpoint probe (key : string) (tables : list Table) : option Entry :=
  match tables with
  | [] => None
  | t :: older =>
      match table_get key t with
      | Some e => Some e
      | None => probe key older
      end
  end.

(** Modelled from the spec: a tombstone hit is "not found" (section 4.7). *)
Definition live (e : option Entry) : option string :=
  match e with
  | Some {| type := PUT; value := v |} => Some v
  | Some {| type := DELETE |} => None
  | None => None
  end.

(** Modelled from the spec: [LSMStore.get] (section 4.7). *)
Definition get (key : string) (s : Store) : option string :=
  live (probe key (sources s)).

(** Modelled from the spec: tie-breaking as section 4.7 words it: of the
    sources that expose the key, the one with the strictly higher sequence
    number wins; on equal numbers the higher-priority source does. *)
Fixpoint highest_sequence (key : string) (tables : list Table) : option Entry :=
  match tables with
  | [] => None
  | t :: older =>
      match table_get key t, highest_sequence key older with
      | Some e, Some e' => if (seq e <? seq e')%Z then Some e' else Some e
      | Some e, None => Some e
      | None, winner => winner
      end
  end.

(** The sequence numbers of a table lie in [lo, hi). *)
Definition sequenced (lo hi : Z) (t : Table) : Prop :=
  Forall (fun p => (lo ≤ seq p.2 < hi)%Z) t.

(** Newer sources hold the higher sequence numbers: the tables, newest
    first, occupy consecutive bands below [hi]. *)
Fixpoint stratified (hi : Z) (tables : list Table) : Prop :=
  match tables with
  | [] => True
  | t :: older => ∃ lo, (lo ≤ hi)%Z ∧ sequenced lo hi t ∧ stratified lo older
  end.

(** ** Merge iterator *)

(** Modelled from the spec: the top of the merge iterator's min-heap keyed
    by (key, source priority) (section 4.6): the smallest head key, taken
    from the highest-priority source that exposes it. *)
Fixpoint heap_min (iters : list Table) : option (string * Entry) :=
  match iters with
  | [] => None
  | it :: lower =>
      match it, heap_min lower with
      | [], m => m
      | (k, e) :: _, None => Some (k, e)
      | (k, e) :: _, Some (k', e') => if key_ltb k' k then Some (k', e') else Some (k, e)
      end
  end.

(** Modelled from the spec: advance a source past [key] (section 4.6). *)
Definition advance_past (key : string) (it : Table) : Table :=
  match it with
  | (k, _) :: rest => if String.eqb k key then rest else it
  | [] => []
  end.

(** Modelled from the spec: the pull loop of the merge iterator (section
    4.6), with its dedup rule and the optional limit: [remaining] is the
    number of pairs still allowed ([None]: no limit). Each round consumes an
    entry, so [fuel] = the number of entries left suffices. *)
Fixpoint merge_loop (fuel : nat) (remaining : option nat) (iters : list Table)
  : list (string * string) :=
  match fuel with
  | O => []
  | Datatypes.S fuel' =>
      match remaining with
      | Some O => []
      | _ =>
          match heap_min iters with
          | None => []
          | Some (k, e) =>
              let iters' := List.map (advance_past k) iters in
              match type e with
              | DELETE => merge_loop fuel' remaining iters'
              | PUT => (k, value e) :: merge_loop fuel' (Nat.pred <$> remaining) iters'
              end
          end
      end
  end.

(** Modelled from the spec: the merge iterator over the given sources
    (section 4.6). *)
Definition merge_iterator (limit : option nat) (iters : list Table)
  : list (string * string) :=
  merge_loop (length (concat iters)) limit iters.

(** Modelled from the spec: [LSMStore.readKeyRange(start, end, {limit})]
    (section 4.7). *)
Definition read_key_range (start end_ : string) (limit : option Z) (s : Store)
  : list (string * string) :=
  merge_iterator (Z.to_nat <$> limit) (List.map (scan start end_) (sources s)).

(** What can happen to a store between two reads. *)
Inductive Op : Type :=
| OpPut (key val : string)
| OpDelete (key : string)
| OpBatchPut (entries : list (string * string))
| OpFlush                       (* the background flush task runs *)
| OpIOFailure.                  (* the disk fails: read-only from now on *)

Definition io_failure (s : Store) : Store :=
  {| config := config s; wal := wal s; wal_sealed := wal_sealed s;
     memtable_active := memtable_active s;
     memtable_immutable := memtable_immutable s;
     sstables := sstables s; sequence := sequence s; degraded := true |}.

Definition step (op : Op) (s : Store) : Store :=
  match op with
  | OpPut k v => snd (put k v s)
  | OpDelete k => snd (delete k s)
  | OpBatchPut entries => snd (batch_put entries s)
  | OpFlush => flush s
  | OpIOFailure => io_failure s
  end.

Definition run (ops : list Op) (s : Store) : Store :=
  fold_left (fun s op => step op s) ops s.

(** Does [op] write the key? *)
Definition writes (key : string) (op : Op) : bool :=
  match op with
  | OpPut k _ | OpDelete k => String.eqb k key
  | OpBatchPut entries => existsb (fun '(k, _) => String.eqb k key) entries
  | OpFlush | OpIOFailure => false
  end.

(** The states a store started empty can be in. *)
Definition reachable (s : Store) : Prop :=
  ∃ cfg ops, s = run ops (empty cfg).
End LSM.

(** [LSMStore implements IStorageEngine] *)
Global Instance LSMStore : IStorageEngine LSM.Store := {
  put := LSM.put;
  get key := fun s => (Ok (LSM.get key s), s);
  delete := LSM.delete;
  batchPut := LSM.batch_put;
  readKeyRange start end_ limit := fun s => (Ok (LSM.read_key_range start end_ limit s), s);
}.

(* ================================================================== *)
(** * Sample values: the requests of the integration tests             *)
(* ================================================================== *)

(** The safe integers (of magnitude at most [2^53 - 1]), which is all the
    sample requests contain: a double holds each of them exactly and
    [String] prints its decimal numeral. *)
Global Instance integer_JsNumber : JsNumber Z := {
  number_toString z := NilZero.string_of_int (Z.to_int z);
  number_truthy z := negb (z =? 0)%Z;
}.

(** [s.padStart(targetLength, pad)] for a one-character pad. *)
Definition padStart (targetLength : nat) (pad : ascii) (s : string) : string :=
  string_of_list_ascii (List.repeat pad (targetLength - String.length s)) +:+ s.

(** [request('POST', '/put', { key, value })] as the handler receives it. *)
Definition POST_put (key value : string) : ParsedRequest Z :=
  {| method := "POST"; path := "/put"; params := ∅; query := ∅;
     body := JObject [("key", JString key); ("value", JString value)] |}.

(** [request('GET', '/get/' + key)] *)
Definition GET_get (key : string) : ParsedRequest Z :=
  {| method := "GET"; path := "/get/" +:+ key; params := {[ "key" := key ]};
     query := ∅; body := JObject [] |}.

(** [request('DELETE', '/delete/' + key)] *)
Definition DELETE_delete (key : string) : ParsedRequest Z :=
  {| method := "DELETE"; path := "/delete/" +:+ key; params := {[ "key" := key ]};
     query := ∅; body := JObject [] |}.

(** [object[name] = value] on an object literal that holds strings. The
    name [__proto__] reaches the setter of [Object.prototype], which ignores
    a value that is neither an object nor [null]: no property is created.
    Every other name becomes, or overwrites, an own property. *)
Definition set_property (name value : string) (object : gmap string string)
  : gmap string string :=
  if String.eqb name "__proto__" then object else <[name := value]> object.

(** The loop of [parseQueryString] over the pairs of [URLSearchParams]:
    [query[key] = value], so the last occurrence of a name wins. *)
Definition parseQueryString (pairs : list (string * string)) : gmap string string :=
  fold_left (fun query '(key, value) => set_property key value query) pairs ∅.

(** [request('GET', '/range?...')] with the given query parameters. *)
Definition GET_range (parameters : list (string * string)) : ParsedRequest Z :=
  {| method := "GET"; path := "/range"; params := ∅;
     query := parseQueryString parameters; body := JObject [] |}.

(** [TEST_CONFIG] of the integration tests: a 100 KiB MemTable. The fixed
    per-entry overhead is not given by the specification; 16 is a sample. *)
Definition TEST_CONFIG : LSM.Config :=
  {| LSM.memTableSizeLimit := 100 * 1024; LSM.fixed_overhead := 16 |}%N.

(** Runs requests one after the other, collecting the responses. *)
Fixpoint serve {S St Me : Type}
    (requests : list (S → Response St Me * S)) (s : S) : list (Response St Me) * S :=
  match requests with
  | [] => ([], s)
  | request :: rest =>
      let '(response, s') := request s in
      let '(responses, s'') := serve rest s' in
      (response :: responses, s'')
  end.

(** The loop of [testRangeQuery]: keys [rng:001] to [rng:030]. *)
Definition rng_key (i : nat) : string := "rng:" +:+ padStart 3 "0" (index_toString i).
Definition rng_puts : list (ParsedRequest Z) :=
  List.map (fun i => POST_put (rng_key i) ("R-" +:+ index_toString i)) (seq 1 30).

(** The request of [testBatchPut]: fifty entries [batch:001] to [batch:050]. *)
Definition POST_batch : ParsedRequest Z :=
  {| method := "POST"; path := "/batch-put"; params := ∅; query := ∅;
     body :=
       JObject
         [("entries",
           JArray (List.map (fun i => JObject
                                        [("key", JString ("batch:" +:+ padStart 3 "0" (index_toString i)));
                                         ("value", JString ("Val-" +:+ index_toString i))])
                            (seq 1 50)))] |}.

(** The store of [testRangeQuery] once its thirty POST /put requests have
    been served by a server started on an empty data directory. *)
Definition rng_store : LSM.Store :=
  (serve (St:=unit) (Me:=unit)
         (List.map (fun request => handleRequest handlePut request) rng_puts)
         (LSM.empty TEST_CONFIG)).2.

(* ================================================================== *)
(** * The request contracts, in the words of the specification         *)
(* ================================================================== *)

Section Contracts.
Context {number : Type} `{JsNumber number}.

(** The property [name] of a parsed value, [undefined] when there is none. *)
Definition field (v : Json number) (name : string) : JsValue number :=
  match get_property v name with
  | Ok p => p
  | Throw _ => Undefined
  end.

(** A valid key is a non-empty string. *)
Definition valid_key (key : JsValue number) : Prop :=
  ∃ k, key = FromJson (JString k) ∧ k ≠ "".

(** A valid value is neither [null] nor [undefined]. *)
Definition valid_value (value : JsValue number) : Prop :=
  value ≠ Undefined ∧ value ≠ FromJson JNull.

(** An entry [{key, value}] of a batch. *)
Definition valid_entry (entry : Json number) : Prop :=
  valid_key (field entry "key") ∧ valid_value (field entry "value").

(** The string of a key. *)
Definition key_string (key : JsValue number) : string :=
  match key with
  | FromJson (JString k) => k
  | _ => ""
  end.

(** [String(value)] gives a string: the conversion does not throw. *)
Definition converts (value : JsValue number) : Prop :=
  ∃ text, js_String value = Ok text.

(** The string of a value that converts. *)
Definition value_string (value : JsValue number) : string :=
  match js_String value with
  | Ok text => text
  | Throw _ => ""
  end.

(** An entry the loop of [handleBatchPut] gets past: it is valid and its
    value converts. *)
Definition convertible_entry (entry : Json number) : Prop :=
  valid_entry entry ∧ converts (field entry "value").

(** The pair the engine is given for an entry [{key, value}]. *)
Definition entry_pair (entry : Json number) : string * string :=
  (key_string (field entry "key"), value_string (field entry "value")).

(** The pair the engine is given for [keys[i]] and [values[i]]. *)
Definition keys_values_pair (key value : Json number) : string * string :=
  (key_string (FromJson key), value_string (FromJson value)).
End Contracts.

(* ================================================================== *)
(** * [class ResponseHelper] ([src/server/index.ts])                   *)
(* ================================================================== *)

Module ResponseHelper.
Section WithData.
(** The type of what [json] is given. *)
Context {A : Type}.

(** What the helper uses of [http.ServerResponse]: the status code (200 on a
    fresh response), the headers set, and what [end] wrote, with the status
    code it went out with. *)
Record ServerResponse : Type := {
  statusCode : Z;
  headers : gmap string string;
  ended : option (Z * A);
}.

(** [class ResponseHelper]: the wrapped response and the [sent] flag. *)
Record t : Type := {
  res : ServerResponse;
  sent : bool;
}.

(** [new ResponseHelper(res)] on a fresh response. *)
Definition create : t :=
  {| res := {| statusCode := 200; headers := ∅; ended := None |}; sent := false |}.

(** [status(code)] *)
Definition status (code : Z) (this : t) : t :=
  {| res := {| statusCode := code; headers := headers (res this);
               ended := ended (res this) |};
     sent := sent this |}.

(** [json(data)] *)
Definition json (data : A) (this : t) : t :=
  if sent this then this
  else
    {| res := {| statusCode := statusCode (res this);
                 headers := <["Content-Type" := "application/json"]> (headers (res this));
                 ended := Some (statusCode (res this), data) |};
       sent := true |}.

(** A call on the helper, and a sequence of calls run in order. *)
Inductive Call : Type :=
| Status (code : Z)
| Json (data : A).

Definition call (c : Call) (this : t) : t :=
  match c with
  | Status code => status code this
  | Json data => json data this
  end.

Definition run (calls : list Call) (this : t) : t :=
  fold_left (fun this c => call c this) calls this.

Definition is_json (c : Call) : bool :=
  match c with
  | Json _ => true
  | Status _ => false
  end.
End WithData.
Global Arguments ServerResponse : clear implicits.
Global Arguments t : clear implicits.
Global Arguments Call : clear implicits.
End ResponseHelper.

(* ================================================================== *)
(** * Routing and request parsing ([src/server/index.ts])              *)
(* ================================================================== *)

(** The built-ins of the JS runtime that [handleRequest], [findRoute],
    [parseBody] and [parseQueryString] call. [None] stands for a thrown
    exception. *)
Class Runtime (number : Type) := {
  (** [new URL(input, base)]: its [pathname] and its [search]. *)
  URL_parse : string → string → option (string * string);
  (** [new URLSearchParams(search)]: the pairs [forEach] visits, in order. *)
  URLSearchParams : string → list (string * string);
  (** [JSON.parse] of the bytes of the body read as UTF-8. *)
  JSON_parse : string → option (Json number);
  decodeURIComponent : string → option string;
}.

(** [type RouteHandler]: which bound method a route holds. *)
Inductive RouteHandler : Type :=
| HandleHealth
| HandlePut
| HandleBatchPut
| HandleGet
| HandleDelete
| HandleRange
| HandleReplicationStatus.

(** One item of the regular expression [addRoute] builds: a character that
    stands for itself, or the group [([^/]+)] put in place of [:name]. *)
Inductive PatternItem : Type :=
| Literal (c : ascii)
| Segment.

(** [interface Route]; [pattern] is the expression between [^] and [$]. *)
Record Route : Type := {
  route_method : string;
  pattern : list PatternItem;
  paramNames : list string;
  handler : RouteHandler;
}.

(** [\w] *)
Definition is_word_char (c : ascii) : bool :=
  let n := nat_of_ascii c in
  ((48 <=? n)%nat && (n <=? 57)%nat) || ((65 <=? n)%nat && (n <=? 90)%nat)
  || ((97 <=? n)%nat && (n <=? 122)%nat) || (n =? 95)%nat.

(** The characters that are syntax in the source of a regular expression:
    [\ ^ $ . | ? * + ( ) [ ] { }]. *)
Definition is_regex_syntax (c : ascii) : bool :=
  existsb (Nat.eqb (nat_of_ascii c)) [92; 94; 36; 46; 124; 63; 42; 43; 40; 41; 91; 93; 123; 125]%nat.

(** What closes a [:name] that was being read: the group and its name, or a
    literal colon when no word character followed the colon. *)
Definition close_name (name : option string)
  : list PatternItem * list string :=
  match name with
  | None => ([], [])
  | Some "" => ([Literal ":"%char], [])
  | Some name => ([Segment], [name])
  end.

(** [path.replace(/:(\w+)/g, ...)] read left to right; [name] is the
    parameter name being read after a colon. Gives the items of the pattern
    and the names pushed to [paramNames], in order. *)
Fixpoint replace_params (path : string) (name : option string)
  : list PatternItem * list string :=
  match path with
  | EmptyString => close_name name
  | String c rest =>
      match name with
      | Some n =>
          if is_word_char c
          then replace_params rest (Some (n +:+ String c EmptyString))
          else
            let '(items, names) := close_name name in
            let '(items', names') :=
              if Ascii.eqb c ":" then replace_params rest (Some "")
              else let '(i, n') := replace_params rest None in (Literal c :: i, n') in
            (items ++ items', names ++ names')
      | None =>
          if Ascii.eqb c ":" then replace_params rest (Some "")
          else let '(items, names) := replace_params rest None in (Literal c :: items, names)
      end
  end.

(** The literal characters of the pattern are free of regular-expression
    syntax, so that [new RegExp] reads each of them as itself. *)
Definition plain_pattern (items : list PatternItem) : bool :=
  forallb (fun item => match item with
                       | Literal c => negb (is_regex_syntax c)
                       | Segment => true
                       end) items.

(** [addRoute(method, path, handler)], giving the routes after the push.
    [new RegExp] is modelled for the paths whose literal part holds no
    regular-expression syntax ([None] otherwise); every path the server
    registers is one. *)
Definition addRoute (method path : string) (h : RouteHandler) (routes : list Route)
  : option (list Route) :=
  let '(items, names) := replace_params path None in
  if plain_pattern items
  then Some (routes ++ [ {| route_method := method; pattern := items;
                            paramNames := names; handler := h |} ])
  else None.

(** [registerRoutes] *)
Definition registerRoutes : option (list Route) :=
  routes ← addRoute "GET" "/health" HandleHealth [];
  routes ← addRoute "POST" "/put" HandlePut routes;
  routes ← addRoute "POST" "/batch-put" HandleBatchPut routes;
  routes ← addRoute "GET" "/get/:key" HandleGet routes;
  routes ← addRoute "DELETE" "/delete/:key" HandleDelete routes;
  routes ← addRoute "GET" "/range" HandleRange routes;
  addRoute "GET" "/replication/status" HandleReplicationStatus routes.

(** The [routes] field of a constructed server. *)
Definition routes : list Route := default [] registerRoutes.

(** The group [([^/]+)] followed by the rest [k] of the expression, on the
    text [s], [captured] being what the group holds so far: the group is
    greedy, so a longer capture is tried before the rest is. Gives the
    captures of this group and of the groups after it. *)
Fixpoint match_segment (k : string → option (list string)) (captured s : string)
  : option (list string) :=
  match s with
  | EmptyString => None
  | String c rest =>
      if Ascii.eqb c "/" then None
      else
        let captured' := captured +:+ String c EmptyString in
        match match_segment k captured' rest with
        | Some captures => Some captures
        | None =>
            match k rest with
            | Some captures => Some (captured' :: captures)
            | None => None
            end
        end
  end.

(** [path.match(route.pattern)] for the pattern between [^] and [$]: the
    captures [match[1]], [match[2]], ..., or [None] for no match. *)
Fixpoint match_pattern (items : list PatternItem) : string → option (list string) :=
  match items with
  | [] => fun s => match s with EmptyString => Some [] | String _ _ => None end
  | Literal c :: rest =>
      fun s => match s with
               | String c' s' => if Ascii.eqb c c' then match_pattern rest s' else None
               | EmptyString => None
               end
  | Segment :: rest => match_segment (match_pattern rest) EmptyString
  end.

(** What [findRoute] comes to: a route and its parameters, [null], or the
    [URIError] of [decodeURIComponent]. *)
Inductive Lookup : Type :=
| RouteFound (route : Route) (params : gmap string string)
| NoRoute
| DecodeFailed.

(** The body of a request as the server receives it: the [data] chunks, and
    whether the stream then failed ([error]) instead of ending. *)
Record IncomingMessage : Type := {
  req_method : option string;
  req_url : option string;
  req_host : option string;            (* [req.headers.host] *)
  req_chunks : list string;
  req_failed : bool;
}.

(** What the promise of [parseBody] settles to. *)
Inductive ParsedBody (number : Type) : Type :=
| BodyResolved (body : Json number)
| BodyRejected (message : string).
Global Arguments BodyResolved {_} _.
Global Arguments BodyRejected {_} _.

(** [maxSize] of [parseBody]. *)
Definition maxSize : N := (10 * 1024 * 1024)%N.

(** The [data] listener of [parseBody] over the chunks, [size] bytes having
    been seen: the chunks kept (appended to [chunks]), or [None] once the
    size has passed [maxSize]. *)
Fixpoint receive (incoming : list string) (size : N) (chunks : list string)
  : option (list string) :=
  match incoming with
  | [] => Some chunks
  | chunk :: later =>
      let size := (size + N.of_nat (String.length chunk))%N in
      if (maxSize <? size)%N then None
      else receive later size (chunks ++ [chunk])
  end.

(** What answers a request: a handler's response, or the object
    [{status: 'ok', timestamp}] of [handleHealth]. *)
Inductive Reply (ReplicationState ReplicationMetrics : Type) : Type :=
| Replied (response : Response ReplicationState ReplicationMetrics)
| Healthy (timestamp : Z).
Global Arguments Replied {_ _} _.
Global Arguments Healthy {_ _} _.

(** The status code a reply goes out with. *)
Definition reply_status {St Me : Type} (reply : Reply St Me) : Z :=
  match reply with
  | Replied response => statusCode response
  | Healthy _ => 200
  end.

Module Server.
Section Server.
Context {number : Type} `{JsNumber number} `{Runtime number}.
Context {S : Type} `{IStorageEngine S}.
Context {ReplicationState ReplicationMetrics : Type}.
Context {P : Type} `{IReplicationStatusProvider P ReplicationState ReplicationMetrics}.

Local Abbreviation Reply := (Reply ReplicationState ReplicationMetrics).

(** [x || fallback] for a string that may be missing. *)
Definition or_else (x : option string) (fallback : string) : string :=
  default fallback (truthy_param x).

(** The loop of [findRoute] that fills [params] from the captures. *)
Fixpoint bind_params (names captures : list string) (params : gmap string string)
  : option (gmap string string) :=
  match names, captures with
  | name :: names', capture :: captures' =>
      match decodeURIComponent capture with
      | Some value => bind_params names' captures' (set_property name value params)
      | None => None
      end
  | _, _ => Some params
  end.

(** [findRoute(method, path)] over the given routes. *)
Fixpoint findRoute (routes : list Route) (method path : string) : Lookup :=
  match routes with
  | [] => NoRoute
  | route :: later =>
      if negb (String.eqb (route_method route) method) then findRoute later method path
      else
        match match_pattern (pattern route) path with
        | Some captures =>
            match bind_params (paramNames route) captures ∅ with
            | Some params => RouteFound route params
            | None => DecodeFailed
            end
        | None => findRoute later method path
        end
  end.

(** [parseBody(req)] *)
Definition parseBody (req : IncomingMessage) : ParsedBody number :=
  match receive (req_chunks req) 0 [] with
  | None => BodyRejected "Request body too large"
  | Some chunks =>
      if req_failed req then BodyRejected "error"
      else
        match chunks with
        | [] => BodyResolved (JObject [])
        | _ =>
            match JSON_parse (String.concat "" chunks) with
            | Some body => BodyResolved body
            | None => BodyRejected "Invalid JSON"
            end
        end
  end.

(** [parseQueryString(search)] *)
Definition parseQueryString (search : string) : gmap string string :=
  if String.eqb search "" then ∅
  else parseQueryString (URLSearchParams search).

(** [handleHealth]; [now] is the reading of [Date.now()]. *)
Definition handleHealth (now : Z) (_req : ParsedRequest number) : Async S Reply :=
  resolve (Healthy now).

(** [found.route.handler(parsedRequest, responseHelper)] *)
Definition call (h : RouteHandler) (now : Z) (replicationStatusProvider : option P)
    (req : ParsedRequest number) : Async S Reply :=
  match h with
  | HandleHealth => handleHealth now req
  | HandlePut => response <~ handlePut req; resolve (Replied response)
  | HandleBatchPut => response <~ handleBatchPut req; resolve (Replied response)
  | HandleGet => response <~ handleGet req; resolve (Replied response)
  | HandleDelete => response <~ handleDelete req; resolve (Replied response)
  | HandleRange => response <~ handleRange req; resolve (Replied response)
  | HandleReplicationStatus =>
      response <~ handleReplicationStatus replicationStatusProvider req;
      resolve (Replied response)
  end.

(** [handleRequest(req, res)], from the URL to the reply; [now] is what
    [Date.now()] reads. *)
Definition handleRequest (now : Z) (replicationStatusProvider : option P)
    (req : IncomingMessage) (s : S) : Reply * S :=
  let internal_error :=
    (Replied (status_json 500 (ErrorPayload "Internal server error")), s) in
  match URL_parse (or_else (req_url req) "/")
                  ("http://" +:+ or_else (req_host req) "localhost") with
  | None => internal_error
  | Some (pathname, search) =>
      let method := or_else (req_method req) "GET" in
      match findRoute routes method pathname with
      | DecodeFailed => internal_error
      | NoRoute => (Replied (status_json 404 (ErrorPayload "Not found")), s)
      | RouteFound route params =>
          let body :=
            if String.eqb method "POST" || String.eqb method "PUT"
            then parseBody req
            else BodyResolved (JObject []) in
          match body with
          | BodyRejected _ => internal_error
          | BodyResolved body =>
              let parsedRequest :=
                {| method := method; path := pathname; params := params;
                   query := parseQueryString search; body := body |} in
              match call (handler route) now replicationStatusProvider parsedRequest s with
              | (Ok reply, s') => (reply, s')
              | (Throw _, s') =>
                  (Replied (status_json 500 (ErrorPayload "Internal server error")), s')
              end
          end
      end
  end.
End Server.
End Server.

(** ** Notions used to state what routing and parsing do *)

(** [Number.MAX_SAFE_INTEGER]: up to it, in magnitude, a double holds every
    integer exactly, so [parseInt] gives the integer it reads. *)
Definition MAX_SAFE_INTEGER : Z := (2 ^ 53 - 1)%Z.

(** The limit of a range request, when one is given and [parseInt] reads a
    number in it, is a safe integer. *)
Definition safe_limit (limit : option string) : Prop :=
  ∀ l n, limit = Some l → parseInt10 l = Some n → (Z.abs n ≤ MAX_SAFE_INTEGER)%Z.

(** The string begins with a decimal digit. *)
Definition starts_with_digit (s : string) : bool :=
  match s with
  | String c _ => bool_decide (is_Some (digit_value c))
  | EmptyString => false
  end.

(** The bytes of a body: the lengths of its chunks, added up. *)
Definition body_bytes (chunks : list string) : N :=
  fold_right (fun chunk bytes => (N.of_nat (String.length chunk) + bytes)%N) 0%N chunks.

(** No slash occurs in the string. *)
Fixpoint slash_free (s : string) : bool :=
  match s with
  | EmptyString => true
  | String c rest => negb (Ascii.eqb c "/") && slash_free rest
  end.

(** What a group [([^/]+)] can hold: a non-empty string without a slash. *)
Definition is_segment (s : string) : Prop := s ≠ "" ∧ slash_free s = true.

(** The pattern with its groups filled in by the given captures. *)
Fixpoint fill (items : list PatternItem) (captures : list string) : string :=
  match items with
  | [] => ""
  | Literal c :: rest => String c (fill rest captures)
  | Segment :: rest =>
      match captures with
      | capture :: later => capture +:+ fill rest later
      | [] => fill rest []
      end
  end.

Fixpoint count_segments (items : list PatternItem) : nat :=
  match items with
  | [] => 0
  | Literal _ :: rest => count_segments rest
  | Segment :: rest => Datatypes.S (count_segments rest)
  end.

(** Every group is followed by a slash or by the end of the pattern, as in
    a path whose parameters are whole segments. *)
Fixpoint well_separated (items : list PatternItem) : bool :=
  match items with
  | [] => true
  | Literal _ :: rest => well_separated rest
  | Segment :: rest =>
      match rest with
      | [] => true
      | Literal c :: _ => Ascii.eqb c "/" && well_separated rest
      | Segment :: _ => false
      end
  end.

(** The pattern items of text that holds no [:name]: each character for
    itself. *)
Fixpoint literals (s : string) : list PatternItem :=
  match s with
  | EmptyString => []
  | String c rest => Literal c :: literals rest
  end.

(** The requests the routes of [registerRoutes] are for, spelled out. *)
Definition routed (method path : string) : Prop :=
  (method = "GET"
   ∧ (path = "/health" ∨ path = "/range" ∨ path = "/replication/status"
      ∨ ∃ key, is_segment key ∧ path = "/get/" +:+ key))
  ∨ (method = "POST" ∧ (path = "/put" ∨ path = "/batch-put"))
  ∨ (method = "DELETE" ∧ ∃ key, is_segment key ∧ path = "/delete/" +:+ key).

(** A stand-in runtime for the examples: the URL is split at its first
    question mark, the query at its ampersands and each piece at its first
    equals sign, the only JSON texts known are [null] and [{}], and only text
    without a percent sign is decoded (to itself). *)
Fixpoint split_query (url : string) : string * string :=
  match url with
  | EmptyString => ("", "")
  | String c rest =>
      if Ascii.eqb c "?" then ("", url)
      else let '(pathname, search) := split_query rest in (String c pathname, search)
  end.

Fixpoint split_first (separator : ascii) (s : string) : string * string :=
  match s with
  | EmptyString => ("", "")
  | String c rest =>
      if Ascii.eqb c separator then ("", rest)
      else let '(before, after) := split_first separator rest in (String c before, after)
  end.

Fixpoint split_all (separator : ascii) (s : string) : list string :=
  match s with
  | EmptyString => [""]
  | String c rest =>
      if Ascii.eqb c separator then "" :: split_all separator rest
      else
        match split_all separator rest with
        | piece :: pieces => String c piece :: pieces
        | [] => [String c ""]
        end
  end.

Definition query_pairs (search : string) : list (string * string) :=
  let text := match search with String "?" rest => rest | _ => search end in
  List.map (split_first "=")
           (List.filter (fun piece => negb (String.eqb piece "")) (split_all "&" text)).

Fixpoint percent_free (s : string) : bool :=
  match s with
  | EmptyString => true
  | String c rest => negb (Ascii.eqb c "%") && percent_free rest
  end.

Definition sample_Runtime : Runtime Z := {|
  URL_parse input _base := Some (split_query input);
  URLSearchParams := query_pairs;
  JSON_parse text :=
    if String.eqb text "null" then Some JNull
    else if String.eqb text "{}" then Some (JObject [])
    else None;
  decodeURIComponent s := if percent_free s then Some s else None;
|}.

(** A stand-in replication manager for the examples: its state is a
    string, its metric a count. *)
Definition sample_manager : IReplicationManager unit string Z := {|
  manager_getState _ := "connected";
  manager_getMetrics _ := 0%Z;
|}.

(** What the server receives for [request(method, path, body)] of the
    integration tests, [payload] being [JSON.stringify(body)] when there is
    a body, arriving as one chunk. *)
Definition request (method path : string) (payload : option string) : IncomingMessage :=
  {| req_method := Some method; req_url := Some path; req_host := Some "localhost:4100";
     req_chunks := match payload with Some text => [text] | None => [] end;
     req_failed := false |}.

(** The server of the examples: the stand-in runtime, the engine modelled
    above, and the stand-in manager behind its status adapter. *)
Definition sample_server (now : Z) (req : IncomingMessage) (s : LSM.Store)
  : Reply string Z * LSM.Store :=
  @Server.handleRequest Z integer_JsNumber sample_Runtime LSM.Store LSMStore string Z
    (ReplicationManagerStatusAdapter unit)
    (@ReplicationManagerStatusAdapter_provider unit string Z sample_manager)
    now (Some {| manager := tt |}) req s.

(* ================================================================== *)
(** * Properties of the HTTP facade                                    *)
(* ================================================================== *)

(** ** [parseInt] on decimal numerals *)

Lemma digits_prefix_decimal (d : Decimal.uint) (acc : nat) :
  digits_prefix (Some (Z.of_nat acc)) (NilEmpty.string_of_uint d)
  = Some (Z.of_nat (Nat.of_uint_acc d acc)).
Proof.
  revert acc. induction d; intros acc; [done|..];
    cbn [NilEmpty.string_of_uint digits_prefix Nat.of_uint_acc];
    (etrans; [|apply IHd]);
    match goal with
    | |- context [digit_value ?c] =>
        let v := eval vm_compute in (digit_value c) in change (digit_value c) with v
    end;
    cbn -[Z.of_nat Z.mul Z.add Nat.tail_mul];
    do 2 f_equal; rewrite Nat.tail_mul_spec; lia.
Qed.

(** [parseInt(String(n), 10)] is [n]. *)
Lemma parseInt10_decimal (n : nat) : parseInt10 (index_toString n) = Some (Z.of_nat n).
Proof.
  unfold index_toString.
  rewrite <- (Unsigned.of_to n) at 2. unfold Nat.of_uint.
  destruct (Nat.to_uint n) as [|d|d|d|d|d|d|d|d|d|d]; [done|..];
    unfold parseInt10;
    cbn [NilZero.string_of_uint NilEmpty.string_of_uint trim_start digits_prefix
         Nat.of_uint_acc];
    match goal with
    | |- context [is_white_space ?c] =>
        let v := eval vm_compute in (is_white_space c) in change (is_white_space c) with v
    end;
    match goal with
    | |- context [digit_value ?c] =>
        let v := eval vm_compute in (digit_value c) in change (digit_value c) with v
    end;
    cbv beta iota; (etrans; [|apply digits_prefix_decimal]); reflexivity.
Qed.

(** A limit written as a decimal numeral is accepted with its value exactly
    when it is positive. *)
Lemma parse_limit_decimal (n : nat) :
  parse_limit (Some (index_toString n)) = if (n =? 0)%nat then None else Some (Z.of_nat n).
Proof.
  unfold parse_limit. rewrite parseInt10_decimal.
  destruct n as [|n]; [done|]. cbn [Nat.eqb].
  destruct (Z.ltb_spec (Z.of_nat (S n)) 1); [lia|done].
Qed.

Section HTTPServerFacts.
Context {number : Type} `{JsNumber number}.
Context {S : Type} {engine : IStorageEngine S}.
Context {St Me : Type}.

Local Abbreviation Response := (Response St Me).
Local Abbreviation ParsedRequest := (ParsedRequest number).
(** [handleRequest] at the types of this section. *)
Local Abbreviation handle := (@handleRequest number S St Me).

Implicit Types (req : ParsedRequest) (s : S).

Lemma as_nonempty_string_Some (v : JsValue number) (k : string) :
  as_nonempty_string v = Some k ↔ v = FromJson (JString k) ∧ k ≠ "".
Proof.
  unfold as_nonempty_string. split.
  - destruct v as [|[]|]; try discriminate.
    destruct (String.eqb_spec s ""); [discriminate|].
    intros [= ->]. done.
  - intros [-> Hk]. by destruct (String.eqb_spec k "").
Qed.

Lemma nullish_true (v : JsValue number) :
  nullish v = true ↔ v = Undefined ∨ v = FromJson JNull.
Proof.
  split.
  - destruct v as [|[]|]; simpl; try discriminate; auto.
  - by intros [-> | ->].
Qed.

Lemma get_property_defined (v : Json number) (name : string) :
  v ≠ JNull → ∃ p, get_property v name = Ok p.
Proof.
  intros Hv. destruct v; simpl; [by destruct Hv|by eexists..| |].
  - destruct (array_method name); by eexists.
  - destruct (own_property name members); by eexists.
Qed.

Lemma truthy_param_Some (p : option string) (k : string) :
  truthy_param p = Some k ↔ p = Some k ∧ k ≠ "".
Proof.
  unfold truthy_param. split.
  - destruct p as [k'|]; [|discriminate].
    destruct (String.eqb_spec k' ""); [discriminate|]. by intros [= ->].
  - intros [-> Hk]. by destruct (String.eqb_spec k "").
Qed.

(** ** POST /put *)

(** For a body other than [null], [handlePut] answers 400 exactly when the
    key is not a non-empty string or the value is null or undefined;
    otherwise it converts the value with [String]: when that gives a string
    it awaits [put(key, String(value))] and answers 200 [{success: true}]
    once that resolves, and when it throws the answer is 500 and the engine
    is not called. *)
Lemma handlePut_contract req s (key value : JsValue number) :
  get_property (body req) "key" = Ok key →
  get_property (body req) "value" = Ok value →
  (statusCode (handle handlePut req s).1 = 400%Z
     ↔ as_nonempty_string key = None ∨ nullish value = true)
  ∧ (∀ k text, as_nonempty_string key = Some k → nullish value = false →
       js_String value = Ok text →
       handle handlePut req s =
         match put k text s with
         | (Ok _, s') => (json SuccessPayload, s')
         | (Throw _, s') => (status_json 500 (ErrorPayload "Internal server error"), s')
         end)
  ∧ (∀ k err, as_nonempty_string key = Some k → nullish value = false →
       js_String value = Throw err →
       handle handlePut req s =
         (status_json 500 (ErrorPayload "Internal server error"), s)).
Proof.
  intros Hkey Hvalue.
  unfold handleRequest, handlePut, await, settled.
  rewrite Hkey, Hvalue.
  destruct (as_nonempty_string key) as [k|] eqn:Hk.
  - destruct (nullish value) eqn:Hv; simpl.
    + split_and!; [tauto|done|done].
    + destruct (js_String value) as [text|err] eqn:Htext.
      * split_and!.
        -- destruct (put k text s) as [[[]|e] s']; simpl;
             split; try discriminate; intros [[=]|[=]].
        -- intros k' text' [= <-] _ [= <-]. by destruct (put k text s) as [[[]|e] s'].
        -- done.
      * split_and!.
        -- simpl. split; [discriminate|intros [[=]|[=]]].
        -- done.
        -- done.
  - simpl. split_and!; [tauto|done|done].
Qed.

(** ** GET /get/:key and DELETE /delete/:key *)

Lemma handleGet_run req s (key : string) :
  params req !! "key" = Some key → key ≠ "" →
  handle handleGet req s =
    match get key s with
    | (Ok None, s') => (status_json 404 (KeyNotFoundPayload "Key not found" key), s')
    | (Ok (Some value), s') => (json (ValuePayload key value), s')
    | (Throw _, s') => (status_json 500 (ErrorPayload "Internal server error"), s')
    end.
Proof.
  intros Hp Hk.
  unfold handleRequest, handleGet, await.
  rewrite (proj2 (truthy_param_Some _ key)) by done.
  by destruct (get key s) as [[[v|]|e] s'].
Qed.

Lemma handleDelete_run req s (key : string) :
  params req !! "key" = Some key → key ≠ "" →
  handle handleDelete req s =
    match delete key s with
    | (Ok _, s') => (json SuccessPayload, s')
    | (Throw _, s') => (status_json 500 (ErrorPayload "Internal server error"), s')
    end.
Proof.
  intros Hp Hk.
  unfold handleRequest, handleDelete, await.
  rewrite (proj2 (truthy_param_Some _ key)) by done.
  by destruct (delete key s) as [[[]|e] s'].
Qed.

(** C5. GET /get/:key, for the non-empty key the route pattern [[^/]+]
    binds: the answer is 404 exactly when the engine's [get] resolves to
    [null]; when it resolves to a value, the answer is 200 with
    [{key, value}]. *)
Theorem handleGet_404_iff_absent req s (key : string) :
  params req !! "key" = Some key → key ≠ "" →
  (statusCode (handle handleGet req s).1 = 404%Z ↔ (get key s).1 = Ok None)
  ∧ (∀ value, (get key s).1 = Ok (Some value) →
       (handle handleGet req s).1 = json (ValuePayload key value)).
Proof.
  intros Hp Hk. rewrite (handleGet_run req s key Hp Hk).
  destruct (get key s) as [[[v|]|e] s']; simpl; split;
    try (split; intros; discriminate); try done; by intros ? [= ->].
Qed.

(** C4. A body that is JSON [null]: [handlePut] throws while destructuring
    it, and the request is answered 500, whereas the key of this body is
    not a non-empty string and its value is undefined. The engine is not
    called. *)
Theorem handlePut_null_body req s :
  body req = JNull →
  handle handlePut req s = (status_json 500 (ErrorPayload "Internal server error"), s)
  ∧ ¬ valid_key (field (body req) "key")
  ∧ ¬ valid_value (field (body req) "value").
Proof.
  intros Hbody. unfold handleRequest, handlePut, await, settled, field.
  rewrite Hbody. simpl. split_and!; [done| |].
  - by intros (k & ? & _).
  - by intros [? _].
Qed.

(** C10. DELETE /delete/:key, for the non-empty key the route binds: the
    handler awaits the engine's [delete] and answers 200 [{success: true}]
    once it resolves; no answer is a 404; and an engine that differs in
    everything but [delete] gets the same answer, so whether the key
    exists is never looked at. *)
Theorem handleDelete_ignores_existence req s (key : string) :
  params req !! "key" = Some key → key ≠ "" →
  ((delete key s).1 = Ok tt →
     handle handleDelete req s = (json SuccessPayload, (delete key s).2))
  ∧ statusCode (handle handleDelete req s).1 ≠ 404%Z
  ∧ (∀ other : IStorageEngine S,
       @delete S other key s = @delete S engine key s →
       handle (@handleDelete number S other St Me) req s =
         handle (@handleDelete number S engine St Me) req s).
Proof.
  intros Hp Hk. split_and!.
  - rewrite (handleDelete_run req s key Hp Hk).
    destruct (delete key s) as [[[]|e] s']; simpl; [done|]. intros [=].
  - rewrite (handleDelete_run req s key Hp Hk).
    by destruct (delete key s) as [[[]|e] s'].
  - intros other Hsame.
    unfold handleRequest, handleDelete, await.
    rewrite (proj2 (truthy_param_Some _ key)) by done.
    by rewrite Hsame.
Qed.

(** ** GET /replication/status *)

(** C8. Without a provider the answer is 200 with [enabled: false]; with a
    provider it is 200 with [enabled: true] and the state and metrics of
    [getReplicationStatus()]; the two adapters return the [getState()] and
    [getMetrics()] of what they wrap. *)
Theorem handleReplicationStatus_reports_provider req s :
  (∀ (P : Type) (provider_of : IReplicationStatusProvider P St Me),
      handle (handleReplicationStatus (@None P)) req s =
        ({| statusCode := 200;
            payload := StandalonePayload "Replication not configured (standalone mode)" |}, s)
      ∧ ∀ provider : P,
          handle (handleReplicationStatus (Some provider)) req s =
            ({| statusCode := 200;
                payload := ReplicationPayload (state (getReplicationStatus provider))
                                              (metrics (getReplicationStatus provider)) |}, s))
  ∧ (∀ (M : Type) (manager_of : IReplicationManager M St Me) (m : M),
       getReplicationStatus {| manager := m |} =
         {| state := manager_getState m; metrics := manager_getMetrics m |}
       ∧ handle (handleReplicationStatus (Some {| manager := m |})) req s =
           ({| statusCode := 200;
               payload := ReplicationPayload (manager_getState m) (manager_getMetrics m) |}, s))
  ∧ (∀ (B : Type) (server_of : IReplicationServer B St Me) (b : B),
       getReplicationStatus {| server := b |} =
         {| state := server_getState b; metrics := server_getMetrics b |}
       ∧ handle (handleReplicationStatus (Some {| server := b |})) req s =
           ({| statusCode := 200;
               payload := ReplicationPayload (server_getState b) (server_getMetrics b) |}, s)).
Proof. split_and!; intros; split; intros; reflexivity. Qed.

(** ** GET /range *)

Lemma handleRange_run req s (start end_ : string) (parsedLimit : Z) :
  query req !! "start" = Some start → start ≠ "" →
  query req !! "end" = Some end_ → end_ ≠ "" →
  parse_limit (query req !! "limit") = Some parsedLimit →
  handle handleRange req s =
    match readKeyRange start end_ (Some parsedLimit) s with
    | (Ok results, s') => (json (RangePayload (length results) results), s')
    | (Throw _, s') => (status_json 500 (ErrorPayload "Internal server error"), s')
    end.
Proof.
  intros Hs Hs' He He' Hl.
  unfold handleRequest, handleRange, await.
  rewrite (proj2 (truthy_param_Some _ start)) by done.
  rewrite (proj2 (truthy_param_Some _ end_)) by done.
  rewrite Hl.
  by destruct (readKeyRange start end_ (Some parsedLimit) s) as [[results|e] s'].
Qed.

Lemma handleRange_bad_limit req s (start end_ : string) :
  query req !! "start" = Some start → start ≠ "" →
  query req !! "end" = Some end_ → end_ ≠ "" →
  parse_limit (query req !! "limit") = None →
  handle handleRange req s =
    (status_json 400 (ErrorPayload "Invalid limit: must be positive integer"), s).
Proof.
  intros Hs Hs' He He' Hl.
  unfold handleRequest, handleRange, await.
  rewrite (proj2 (truthy_param_Some _ start)) by done.
  rewrite (proj2 (truthy_param_Some _ end_)) by done.
  by rewrite Hl.
Qed.

(** ** POST /batch-put *)

Lemma valid_key_checked (key : JsValue number) :
  valid_key key ↔ as_nonempty_string key = Some (key_string key).
Proof.
  split.
  - intros (k & -> & Hk). by apply as_nonempty_string_Some.
  - intros Hk. apply as_nonempty_string_Some in Hk as [Hkey Hne].
    by exists (key_string key).
Qed.

Lemma valid_key_dec (key : JsValue number) : valid_key key ∨ ¬ valid_key key.
Proof.
  destruct (as_nonempty_string key) as [k|] eqn:Hk.
  - left. apply as_nonempty_string_Some in Hk as [-> ?]. by exists k.
  - right. intros Hv%valid_key_checked. congruence.
Qed.

Lemma valid_value_checked (value : JsValue number) :
  valid_value value ↔ nullish value = false.
Proof.
  unfold valid_value. destruct (nullish value) eqn:Hn.
  - apply nullish_true in Hn. split; [|discriminate].
    intros [? ?]. by destruct Hn.
  - split; [done|]. intros _. split; intros ->; discriminate.
Qed.

Lemma valid_value_dec (value : JsValue number) : valid_value value ∨ ¬ valid_value value.
Proof.
  destruct (nullish value) eqn:Hn.
  - right. intros Hv%valid_value_checked. congruence.
  - left. by apply valid_value_checked.
Qed.

Lemma valid_entry_dec (entry : Json number) : valid_entry entry ∨ ¬ valid_entry entry.
Proof.
  unfold valid_entry.
  destruct (valid_key_dec (field entry "key")), (valid_value_dec (field entry "value"));
    tauto.
Qed.

Lemma Forall_valid_dec {A} (P : A → Prop) (l : list A) :
  (∀ x, P x ∨ ¬ P x) → Forall P l ∨ ¬ Forall P l.
Proof.
  intros Hdec. induction l as [|x l [IH|IH]].
  - left. constructor.
  - destruct (Hdec x); [left; by constructor|right; by inversion 1].
  - right. by inversion 1.
Qed.

Lemma field_truthy (entry : Json number) (name : string) :
  truthy entry = true → get_property entry name = Ok (field entry name).
Proof.
  intros Ht. unfold field.
  destruct (get_property_defined entry name) as [p ->]; [|done].
  by intros ->.
Qed.

Lemma valid_entry_truthy (entry : Json number) : valid_entry entry → truthy entry = true.
Proof.
  intros [(k & Hk & _) _]. unfold field in Hk.
  destruct entry; simpl in *; try discriminate; done.
Qed.

Lemma convertible_entry_dec (entry : Json number) :
  convertible_entry entry ∨ ¬ convertible_entry entry.
Proof.
  unfold convertible_entry, converts.
  destruct (valid_entry_dec entry) as [?|?]; [|tauto].
  destruct (js_String (field entry "value")) as [text|err]; [left|right].
  - split; [done|]. by exists text.
  - by intros [_ [? ?]].
Qed.

Lemma converts_value_string (value : JsValue number) :
  converts value → js_String value = Ok (value_string value).
Proof. intros [text Htext]. unfold value_string. by rewrite Htext. Qed.

(** One round of the loop over [entries]: an invalid entry ends it with a
    400, a valid entry whose value does not convert ends it with the
    [TypeError], and any other entry is pushed. *)
Lemma parse_entries_step (i : nat) (entry : Json number) (rest : list (Json number)) :
  (convertible_entry entry ∧
     parse_entries (ReplicationState:=St) (ReplicationMetrics:=Me) i (entry :: rest) =
       match parse_entries (Datatypes.S i) rest with
       | Ok (inr parsed) => Ok (inr (entry_pair entry :: parsed))
       | other => other
       end)
  ∨ (valid_entry entry ∧
       ∃ err, js_String (field entry "value") = Throw err
              ∧ parse_entries (ReplicationState:=St) (ReplicationMetrics:=Me) i (entry :: rest)
                = Throw err)
  ∨ (¬ valid_entry entry ∧
       ∃ bad_request, parse_entries (ReplicationState:=St) (ReplicationMetrics:=Me) i (entry :: rest) = Ok (inl bad_request)
                      ∧ statusCode bad_request = 400%Z).
Proof.
  destruct (valid_entry_dec entry) as [Hv|Hv].
  - pose proof (valid_entry_truthy _ Hv) as Ht.
    pose proof Hv as [Hk%valid_key_checked Hval%valid_value_checked].
    assert (parse_entries (ReplicationState:=St) (ReplicationMetrics:=Me) i (entry :: rest) =
            match js_String (field entry "value") with
            | Throw e => Throw e
            | Ok text =>
                match parse_entries (Datatypes.S i) rest with
                | Ok (inr parsed) => Ok (inr ((key_string (field entry "key"), text) :: parsed))
                | other => other
                end
            end) as ->.
    { cbn [parse_entries]. rewrite Ht. cbn [negb].
      rewrite !field_truthy by done. by rewrite Hk, Hval. }
    destruct (js_String (field entry "value")) as [text|err] eqn:Htext.
    + left. split; [split; [done|by exists text]|].
      unfold entry_pair, value_string. by rewrite Htext.
    + right. left. split; [done|]. by exists err.
  - right. right. split; [done|].
    cbn [parse_entries]. destruct (truthy entry) eqn:Ht; cbn [negb]; [|by eexists].
    rewrite !field_truthy by done.
    destruct (as_nonempty_string (field entry "key")) as [k|] eqn:Hk; [|by eexists].
    destruct (nullish (field entry "value")) eqn:Hn; [by eexists|].
    destruct Hv. split.
    + apply as_nonempty_string_Some in Hk as [-> ?]. by exists k.
    + by apply valid_value_checked.
Qed.

(** The loop gets past a run of convertible entries. *)
Lemma parse_entries_app (i : nat) (good rest : list (Json number)) :
  Forall convertible_entry good →
  parse_entries (ReplicationState:=St) (ReplicationMetrics:=Me) i (good ++ rest) =
    match parse_entries (i + length good) rest with
    | Ok (inr parsed) => Ok (inr (List.map entry_pair good ++ parsed))
    | other => other
    end.
Proof.
  intros Hgood. revert i. induction Hgood as [|entry good Hentry _ IH]; intros i.
  - cbn [app length List.map]. rewrite Nat.add_0_r.
    by destruct (parse_entries i rest) as [[?|?]|?].
  - cbn [app length List.map].
    destruct (parse_entries_step i entry (good ++ rest))
      as [[_ ->]|[[_ (err & Herr & _)]|[Hn _]]].
    + rewrite IH. rewrite Nat.add_succ_r.
      by destruct (parse_entries _ rest) as [[?|?]|?].
    + destruct Hentry as [_ [text Htext]]. congruence.
    + by destruct Hn, Hentry.
Qed.

Lemma parse_entries_valid (i : nat) (entries : list (Json number)) :
  Forall convertible_entry entries →
  parse_entries (ReplicationState:=St) (ReplicationMetrics:=Me) i entries = Ok (inr (List.map entry_pair entries)).
Proof.
  intros Hall. rewrite <- (app_nil_r entries) at 1.
  rewrite (parse_entries_app i entries [] Hall). cbn [parse_entries].
  by rewrite app_nil_r.
Qed.

(** When every value converts, an invalid entry is answered 400. *)
Lemma parse_entries_invalid (i : nat) (entries : list (Json number)) :
  Forall (fun entry => converts (field entry "value")) entries →
  ¬ Forall valid_entry entries →
  ∃ bad_request, parse_entries (ReplicationState:=St) (ReplicationMetrics:=Me) i entries = Ok (inl bad_request)
                 ∧ statusCode bad_request = 400%Z.
Proof.
  intros Hconv. revert i. induction Hconv as [|entry rest Hentry _ IH]; intros i Hn.
  - destruct Hn. constructor.
  - destruct (parse_entries_step i entry rest)
      as [[[Hv _] ->]|[[_ (err & Herr & _)]|[_ Hbad]]]; [| |done].
    + destruct (IH (Datatypes.S i)) as (bad & -> & Hbad).
      * intros Hrest. apply Hn. by constructor.
      * by exists bad.
    + destruct Hentry as [text Htext]. congruence.
Qed.

(** The loop stops at the first entry that is not pushed: with a 400 when
    that entry is invalid, with the [TypeError] when its value does not
    convert. *)
Lemma parse_entries_first_stop (i : nat) (good : list (Json number)) (bad : Json number)
    (rest : list (Json number)) :
  Forall convertible_entry good →
  (valid_entry bad → ∀ err, js_String (field bad "value") = Throw err →
     parse_entries (ReplicationState:=St) (ReplicationMetrics:=Me) i (good ++ bad :: rest)
     = Throw err)
  ∧ (¬ valid_entry bad →
     ∃ bad_request,
       parse_entries (ReplicationState:=St) (ReplicationMetrics:=Me) i (good ++ bad :: rest)
       = Ok (inl bad_request) ∧ statusCode bad_request = 400%Z).
Proof.
  intros Hgood. rewrite (parse_entries_app i good (bad :: rest) Hgood).
  destruct (parse_entries_step (i + length good) bad rest)
    as [[[Hv [text Htext]] _]|[[Hv (err & Herr & ->)]|[Hn (bad_request & -> & Hbad)]]].
  - split; [intros _ err Herr; congruence|done].
  - split; [|done]. intros _ err' Herr'. congruence.
  - split; [done|]. intros _. by exists bad_request.
Qed.

Lemma parse_keys_values_valid (i : nat) (keys values : list (Json number)) :
  length keys = length values →
  Forall (fun key => valid_key (FromJson key)) keys →
  Forall (fun value => valid_value (FromJson value)) values →
  Forall (fun value => converts (FromJson value)) values →
  parse_keys_values (ReplicationState:=St) (ReplicationMetrics:=Me) i keys values =
    Ok (inr (zip_with keys_values_pair keys values)).
Proof.
  intros Hlen Hkeys. revert i values Hlen.
  induction Hkeys as [|key keys Hk _ IH]; intros i [|value values] Hlen Hvalues Hconv;
    try discriminate; [done|].
  inversion Hvalues as [|? ? Hv Hvs]; subst.
  inversion Hconv as [|? ? Hc Hcs]; subst.
  apply valid_key_checked in Hk. apply valid_value_checked in Hv.
  apply converts_value_string in Hc.
  cbn [parse_keys_values]. rewrite Hk, Hv, Hc.
  rewrite IH by (done || by injection Hlen). done.
Qed.

Lemma parse_keys_values_invalid (i : nat) (keys values : list (Json number)) :
  length keys = length values →
  Forall (fun value => converts (FromJson value)) values →
  ¬ Forall (fun key => valid_key (FromJson key)) keys
  ∨ ¬ Forall (fun value => valid_value (FromJson value)) values →
  ∃ bad_request, parse_keys_values (ReplicationState:=St) (ReplicationMetrics:=Me) i keys values = Ok (inl bad_request)
                 ∧ statusCode bad_request = 400%Z.
Proof.
  revert i values. induction keys as [|key keys IH]; intros i [|value values] Hlen Hconv Hn;
    try discriminate.
  - destruct Hn as [Hn|Hn]; destruct Hn; constructor.
  - inversion Hconv as [|? ? Hc Hcs]; subst. apply converts_value_string in Hc.
    cbn [parse_keys_values].
    destruct (as_nonempty_string (FromJson key)) as [k|] eqn:Hk; [|by eexists].
    destruct (nullish (FromJson value)) eqn:Hv; [by eexists|].
    rewrite Hc.
    destruct (IH (Datatypes.S i) values) as (bad & -> & Hbad);
      [by injection Hlen|done| |by exists bad].
    destruct Hn as [Hn|Hn]; [left|right]; intros Hrest; apply Hn; constructor; try done.
    + apply as_nonempty_string_Some in Hk as [[= ->] ?]. by eexists.
    + by apply valid_value_checked.
Qed.

Lemma handleBatchPut_run req s (entries keys values : JsValue number) :
  get_property (body req) "entries" = Ok entries →
  get_property (body req) "keys" = Ok keys →
  get_property (body req) "values" = Ok values →
  handle handleBatchPut req s =
    match parse_batch (ReplicationState:=St) (ReplicationMetrics:=Me) entries keys values with
    | Ok (inl bad_request) => (bad_request, s)
    | Ok (inr []) => (status_json 400 (ErrorPayload "No entries provided"), s)
    | Ok (inr parsedEntries) =>
        match batchPut parsedEntries s with
        | (Ok count, s') => (json (BatchPayload count), s')
        | (Throw _, s') => (status_json 500 (ErrorPayload "Internal server error"), s')
        end
    | Throw _ => (status_json 500 (ErrorPayload "Internal server error"), s)
    end.
Proof.
  intros He Hk Hv. unfold handleRequest, handleBatchPut, await, settled.
  rewrite He, Hk, Hv.
  destruct (parse_batch entries keys values) as [[bad|[|pair parsed]]|e]; try done.
  cbn [length Nat.eqb].
  by destruct (batchPut (pair :: parsed) s) as [[count|e] s'].
Qed.

(** POST /batch-put on a body that has an [entries] array, or else a
    [keys] array and a [values] array, all of whose values convert. With
    [entries]: 400 exactly when the array is empty or some entry has an
    invalid key or value. With [keys] and [values]: 400 exactly when the
    lengths differ, the arrays are empty, or some key or value is invalid.
    In every other case the entries, each value through [String], go to the
    engine's [batchPut] in order, and the answer is 200
    [{success: true, count}] with the count [batchPut] resolved to. *)
Lemma handleBatchPut_converting req s (entries keys values : JsValue number) :
  get_property (body req) "entries" = Ok entries →
  get_property (body req) "keys" = Ok keys →
  get_property (body req) "values" = Ok values →
  (∀ es, entries = FromJson (JArray es) →
     Forall (fun entry => converts (field entry "value")) es →
     (statusCode (handle handleBatchPut req s).1 = 400%Z
        ↔ es = [] ∨ ¬ Forall valid_entry es)
     ∧ (es ≠ [] → Forall valid_entry es →
          handle handleBatchPut req s =
            match batchPut (List.map entry_pair es) s with
            | (Ok count, s') => (json (BatchPayload count), s')
            | (Throw _, s') => (status_json 500 (ErrorPayload "Internal server error"), s')
            end))
  ∧ (∀ ks vs, as_array entries = None →
       keys = FromJson (JArray ks) → values = FromJson (JArray vs) →
       Forall (fun value => converts (FromJson value)) vs →
       (statusCode (handle handleBatchPut req s).1 = 400%Z
          ↔ length ks ≠ length vs ∨ ks = []
            ∨ ¬ Forall (fun key => valid_key (FromJson key)) ks
            ∨ ¬ Forall (fun value => valid_value (FromJson value)) vs)
       ∧ (length ks = length vs → ks ≠ [] →
          Forall (fun key => valid_key (FromJson key)) ks →
          Forall (fun value => valid_value (FromJson value)) vs →
          handle handleBatchPut req s =
            match batchPut (zip_with keys_values_pair ks vs) s with
            | (Ok count, s') => (json (BatchPayload count), s')
            | (Throw _, s') => (status_json 500 (ErrorPayload "Internal server error"), s')
            end)).
Proof.
  intros He Hk Hv. rewrite (handleBatchPut_run req s _ _ _ He Hk Hv). split.
  - intros es -> Hconv. unfold parse_batch. cbn [as_array].
    destruct (Forall_valid_dec valid_entry es valid_entry_dec) as [Hall|Hnot].
    + rewrite (parse_entries_valid 0 es).
      2: { apply Forall_forall. intros entry Hin. split.
           - by apply (proj1 (Forall_forall _ _) Hall).
           - by apply (proj1 (Forall_forall _ _) Hconv). }
      destruct es as [|e es']; cbn [List.map].
      { split; [split; [by left|done]|done]. }
      split; [|done].
      destruct (batchPut _ s) as [[count|err] s']; simpl;
        (split; [discriminate|intros [?|?]; done]).
    + destruct (parse_entries_invalid 0 es Hconv Hnot) as (bad & -> & Hbad).
      split; [split; [by right|done]|done].
  - intros ks vs Hnoarr -> -> Hconv. unfold parse_batch. rewrite Hnoarr. cbn [as_array].
    destruct (Nat.eqb_spec (length ks) (length vs)) as [Hlen|Hlen]; cbn [negb].
    2: { split; [split; [by left|done]|done]. }
    destruct (Forall_valid_dec (fun key => valid_key (FromJson key)) ks) as [Hks|Hks];
      [intros; apply valid_key_dec| |].
    1: destruct (Forall_valid_dec (fun value => valid_value (FromJson value)) vs) as [Hvs|Hvs];
      [intros; apply valid_value_dec| |].
    + rewrite (parse_keys_values_valid 0 ks vs Hlen Hks Hvs Hconv).
      destruct ks as [|k ks'], vs as [|v vs']; try discriminate; cbn [zip_with].
      { split; [split; [by right; left|done]|done]. }
      split; [|done].
      destruct (batchPut _ s) as [[count|err] s']; simpl;
        (split; [discriminate|intros [?|[?|[?|?]]]; done]).
    + destruct (parse_keys_values_invalid 0 ks vs Hlen Hconv) as (bad & -> & Hbad); [by right|].
      split; [split; [by do 3 right|done]|done].
    + destruct (parse_keys_values_invalid 0 ks vs Hlen Hconv) as (bad & -> & Hbad); [by left|].
      split; [split; [by do 2 right; left|done]|done].
Qed.

(** C6. A batch whose entries all have a valid key and a valid value, one
    of the values being one that [String] cannot convert (an object with a
    member named [toString]): the handler throws while it builds the
    entries, and the request is answered 500, not 200. Nothing is written,
    not even the entries before that one. *)
Theorem handleBatchPut_unconvertible_value req s (es : list (Json number)) :
  get_property (body req) "entries" = Ok (FromJson (JArray es)) →
  Forall valid_entry es →
  ¬ Forall (fun entry => converts (field entry "value")) es →
  handle handleBatchPut req s = (status_json 500 (ErrorPayload "Internal server error"), s)
  ∧ es ≠ [].
Proof.
  intros Hentries Hvalid Hnot.
  assert (body req ≠ JNull) as Hbody by (intros Hnull; by rewrite Hnull in Hentries).
  destruct (get_property_defined (body req) "keys" Hbody) as [keys Hkeys].
  destruct (get_property_defined (body req) "values" Hbody) as [values Hvalues].
  rewrite (handleBatchPut_run req s _ _ _ Hentries Hkeys Hvalues).
  unfold parse_batch. cbn [as_array].
  split; [|intros ->; apply Hnot; constructor].
  assert (∀ i, ∃ err, parse_entries (ReplicationState:=St) (ReplicationMetrics:=Me) i es
                      = Throw err) as Hthrow.
  { clear Hentries. induction Hvalid as [|entry rest Hentry Hrest IH]; intros i.
    - destruct Hnot. constructor.
    - destruct (parse_entries_step i entry rest)
        as [[[_ Hconv] ->]|[[_ (err & _ & ->)]|[Hn _]]]; [|by exists err|done].
      destruct (IH ltac:(intros Hall; apply Hnot; by constructor) (Datatypes.S i))
        as [err ->].
      by exists err. }
  by destruct (Hthrow 0%nat) as [err ->].
Qed.

(** C7. A GET /range request whose limit is the string [1.5]: [parseInt]
    reads the leading [1] and drops the rest, so the request is not
    rejected; the engine is asked for the range with limit 1. *)
Theorem handleRange_fractional_limit req s (start end_ : string) :
  query req !! "start" = Some start → start ≠ "" →
  query req !! "end" = Some end_ → end_ ≠ "" →
  query req !! "limit" = Some "1.5" →
  handle handleRange req s =
    match readKeyRange start end_ (Some 1%Z) s with
    | (Ok results, s') => (json (RangePayload (length results) results), s')
    | (Throw _, s') => (status_json 500 (ErrorPayload "Internal server error"), s')
    end
  ∧ statusCode (handle handleRange req s).1 ≠ 400%Z.
Proof.
  intros Hs Hs' He He' Hl.
  assert (parse_limit (query req !! "limit") = Some 1%Z) as Hparsed by (by rewrite Hl).
  rewrite (handleRange_run req s start end_ 1 Hs Hs' He He' Hparsed).
  split; [done|].
  by destruct (readKeyRange start end_ (Some 1%Z) s) as [[results|err] s'].
Qed.

(** A limit of [0], and a limit without a leading digit, are rejected. *)
Lemma handleRange_limit_rejected req s (start end_ limit : string) :
  query req !! "start" = Some start → start ≠ "" →
  query req !! "end" = Some end_ → end_ ≠ "" →
  query req !! "limit" = Some limit →
  limit = "0" ∨ parseInt10 limit = None →
  statusCode (handle handleRange req s).1 = 400%Z.
Proof.
  intros Hs Hs' He He' Hl Hbad.
  rewrite (handleRange_bad_limit req s start end_); try done.
  rewrite Hl. unfold parse_limit. by destruct Hbad as [-> | ->].
Qed.

(** Bodies outside the two accepted forms: 400 when the body is not
    [null]; a [null] body throws in the destructuring, as in [handlePut]. *)
Lemma handleBatchPut_other_bodies req s :
  (body req = JNull →
     handle handleBatchPut req s = (status_json 500 (ErrorPayload "Internal server error"), s))
  ∧ (∀ entries keys values,
       get_property (body req) "entries" = Ok entries →
       get_property (body req) "keys" = Ok keys →
       get_property (body req) "values" = Ok values →
       as_array entries = None →
       as_array keys = None ∨ as_array values = None →
       statusCode (handle handleBatchPut req s).1 = 400%Z).
Proof.
  split.
  - intros Hbody. unfold handleRequest, handleBatchPut, await, settled.
    by rewrite Hbody.
  - intros entries keys values He Hk Hv Hentries Hother.
    rewrite (handleBatchPut_run req s _ _ _ He Hk Hv).
    unfold parse_batch. rewrite Hentries.
    destruct Hother as [-> | Hvalues]; [done|].
    rewrite Hvalues. by destruct (as_array keys).
Qed.

(** The [!key] guard of [handleGet] and [handleDelete]: without a key
    parameter, or with an empty one, the answer is 400 and the engine is not
    called. *)
Lemma handler_key_required req s :
  truthy_param (params req !! "key") = None →
  handle handleGet req s = (status_json 400 (ErrorPayload "Key parameter required"), s)
  ∧ handle handleDelete req s = (status_json 400 (ErrorPayload "Key parameter required"), s).
Proof.
  intros Hkey. unfold handleRequest, handleGet, handleDelete. by rewrite Hkey.
Qed.
End HTTPServerFacts.

(* ================================================================== *)
(** * Properties of the LSM engine: point reads                        *)
(* ================================================================== *)

Section LSMPointReads.
Import LSM.

Implicit Types (s : Store) (t : Table) (e : Entry) (key k : string).

Lemma table_get_insert_eq key e t : table_get key (table_insert key e t) = Some e.
Proof.
  induction t as [|[k old] rest IH]; simpl.
  - by rewrite String.eqb_refl.
  - destruct (String_as_OT.compare_spec key k) as [->|Hlt|Hgt]; simpl.
    + by rewrite String.eqb_refl.
    + by rewrite String.eqb_refl.
    + destruct (String.eqb_spec k key) as [->|_]; [|done].
      by apply (irreflexivity String_as_OT.lt) in Hgt.
Qed.

Lemma table_get_insert_ne key k e t :
  k ≠ key → table_get k (table_insert key e t) = table_get k t.
Proof.
  intros Hne. induction t as [|[k0 old] rest IH]; simpl.
  - by destruct (String.eqb_spec key k) as [->|_].
  - destruct (String_as_OT.compare_spec key k0) as [->|Hlt|Hgt]; simpl.
    + by destruct (String.eqb_spec k0 k) as [->|_].
    + by destruct (String.eqb_spec key k) as [->|_].
    + by rewrite IH.
Qed.

(** Sealing and flushing move tables between the three groups without
    changing their probing order. *)
Lemma probe_seal key s : probe key (sources (seal s)) = probe key (sources s).
Proof. done. Qed.

Lemma sources_flush s : sources (flush s) = sources s.
Proof.
  unfold flush, sources.
  destruct (List.rev (memtable_immutable s)) as [|oldest newer] eqn:Hrev; [done|].
  simpl. f_equal.
  rewrite <- (rev_involutive (memtable_immutable s)), Hrev. simpl.
  by rewrite <- app_assoc.
Qed.

(** What a write that succeeded leaves in the sources. *)
Lemma write_sources ty key val s s' :
  write ty key val s = (Ok tt, s') →
  key ≠ "" ∧ degraded s = false ∧
  ∀ k, probe k (sources s') =
       probe k (table_insert key {| type := ty; seq := sequence s; value := val |}
                             (memtable_active s)
                :: memtable_immutable s ++ sstables s).
Proof.
  unfold write. destruct (degraded s); [discriminate|].
  destruct (String.eqb_spec key "") as [|Hne]; [discriminate|].
  cbn -[table_insert approximate_bytes].
  destruct (_ <=? _)%N; intros [= <-]; done.
Qed.

(** A write that failed changed nothing. *)
Lemma write_failed ty key val s err s' :
  write ty key val s = (Throw err, s') → s' = s.
Proof.
  unfold write. destruct (degraded s); [by intros [= _ <-]|].
  destruct (String.eqb key ""); [by intros [= _ <-]|].
  cbn -[table_insert approximate_bytes]. by destruct (_ <=? _)%N.
Qed.

Lemma write_result ty key val s :
  (∃ s', write ty key val s = (Ok tt, s')) ∨ (∃ err, write ty key val s = (Throw err, s)).
Proof.
  destruct (write ty key val s) as [[[]|e] s'] eqn:Hw; [left; by eexists|right].
  apply write_failed in Hw as Hs. subst. by eexists.
Qed.

Lemma get_write_eq ty key val s s' :
  write ty key val s = (Ok tt, s') →
  get key s' = match ty with PUT => Some val | DELETE => None end.
Proof.
  intros (_ & _ & Hprobe)%write_sources. unfold get. rewrite Hprobe. simpl.
  rewrite table_get_insert_eq. by destruct ty.
Qed.

Lemma get_write_ne ty key val k s :
  k ≠ key → get k (write ty key val s).2 = get k s.
Proof.
  intros Hne. destruct (write_result ty key val s) as [[s' Hw]|[e Hw]]; rewrite Hw; [|done].
  apply write_sources in Hw as (_ & _ & Hprobe). unfold get. rewrite Hprobe. simpl.
  by rewrite table_get_insert_ne.
Qed.

(** The state a batch leaves behind, entry by entry. *)
Lemma batch_put_cons key val rest s :
  (batch_put ((key, val) :: rest) s).2 =
    match write PUT key val s with
    | (Ok _, s1) => (batch_put rest s1).2
    | (Throw _, s1) => s1
    end.
Proof.
  cbn [batch_put]. unfold await, put.
  destruct (write PUT key val s) as [[[]|err] s1]; [|done].
  by destruct (batch_put rest s1) as [[count|err] s2].
Qed.

Lemma get_batch_put_ne entries k s :
  existsb (fun '(key, _) => String.eqb key k) entries = false →
  get k (batch_put entries s).2 = get k s.
Proof.
  revert s. induction entries as [|[key val] rest IH]; intros s Hnone; [done|].
  simpl in Hnone. apply orb_false_elim in Hnone as [Hkey Hrest].
  apply String.eqb_neq in Hkey.
  rewrite batch_put_cons.
  pose proof (get_write_ne PUT key val k s (not_eq_sym Hkey)) as Hput.
  destruct (write PUT key val s) as [[[]|err] s1]; simpl in *; [|done].
  by rewrite IH.
Qed.

(** An operation that does not write the key leaves its read unchanged. *)
Lemma get_step key op s : writes key op = false → get key (step op s) = get key s.
Proof.
  destruct op as [k v|k|entries| |]; simpl; intros Hw.
  - apply get_write_ne. apply String.eqb_neq in Hw. congruence.
  - apply get_write_ne. apply String.eqb_neq in Hw. congruence.
  - by apply get_batch_put_ne.
  - unfold get. by rewrite sources_flush.
  - done.
Qed.

Lemma get_run key ops s :
  Forall (fun op => writes key op = false) ops → get key (run ops s) = get key s.
Proof.
  intros Hops. revert s. induction Hops as [|op ops Hop _ IH]; intros s; [done|].
  unfold run in *. simpl. by rewrite IH, get_step.
Qed.

(** C2. If [put(k, v)] returns success, then after any operations that do
    not write [k] (writes to other keys, batches without [k], flushes, a
    disk failure) [get(k)] returns [v]; and an overwriting [put(k, v')]
    that returns success makes [get(k)] return [v'], again until the next
    write to [k]. *)
Theorem put_then_get key val s s1 ops :
  put key val s = (Ok tt, s1) →
  Forall (fun op => writes key op = false) ops →
  get key (run ops s1) = Some val
  ∧ ∀ val' s2 ops',
      put key val' (run ops s1) = (Ok tt, s2) →
      Forall (fun op => writes key op = false) ops' →
      get key (run ops' s2) = Some val'.
Proof.
  intros Hput Hops. split.
  - rewrite get_run by done. by rewrite (get_write_eq PUT key val s s1).
  - intros val' s2 ops' Hput' Hops'.
    rewrite get_run by done. by rewrite (get_write_eq PUT key val' (run ops s1) s2).
Qed.
End LSMPointReads.

(* ================================================================== *)
(** * Properties of the LSM engine: range scans                        *)
(* ================================================================== *)

Section LSMRangeScans.
Import LSM.

Implicit Types (s : Store) (t : Table) (e : Entry) (key k a b : string).

(** ** The order on keys *)

Lemma key_ltb_lt a b : key_ltb a b = true ↔ key_lt a b.
Proof.
  unfold key_ltb, key_lt, String_as_OT.lt.
  destruct (String_as_OT.compare a b); split; (done || discriminate).
Qed.

Lemma key_lt_irrefl a : ¬ key_lt a a.
Proof. apply (irreflexivity String_as_OT.lt). Qed.

Lemma key_lt_trans a b c : key_lt a b → key_lt b c → key_lt a c.
Proof. apply (transitivity (R:=String_as_OT.lt)). Qed.

Lemma key_trichotomy a b : key_lt a b ∨ a = b ∨ key_lt b a.
Proof. destruct (String_as_OT.compare_spec a b); auto. Qed.

Lemma key_leb_le a b : key_leb a b = true ↔ ¬ key_lt b a.
Proof.
  unfold key_leb. rewrite negb_true_iff, <- not_true_iff_false.
  by rewrite key_ltb_lt.
Qed.

Lemma key_leb_refl a : key_leb a a = true.
Proof. apply key_leb_le, key_lt_irrefl. Qed.

Lemma key_le_lt_trans a b c : ¬ key_lt b a → key_lt b c → key_lt a c.
Proof.
  intros Hab Hbc. destruct (key_trichotomy a b) as [?|[->|?]]; [|done..].
  by apply key_lt_trans with b.
Qed.

Lemma key_lt_le_trans a b c : key_lt a b → ¬ key_lt c b → key_lt a c.
Proof.
  intros Hab Hbc. destruct (key_trichotomy b c) as [?|[<-|?]]; [|done..].
  by apply key_lt_trans with b.
Qed.

(** ** Ascending tables *)

Lemma ascending_cons {A} (k : string) (x : A) (l : list (string * A)) :
  ascending ((k, x) :: l) ↔ Forall (fun p => key_lt k p.1) l ∧ ascending l.
Proof.
  unfold ascending. split.
  - intros Hs. apply StronglySorted_inv in Hs as [? ?]. done.
  - intros [? ?]. by constructor.
Qed.

Lemma table_get_above k t : Forall (fun p => key_lt k p.1) t → table_get k t = None.
Proof.
  induction 1 as [|[k' e'] rest Hk _ IH]; [done|]. simpl in *.
  destruct (String.eqb_spec k' k) as [->|_]; [|done].
  by apply key_lt_irrefl in Hk.
Qed.

Lemma table_get_In k e t : table_get k t = Some e → (k, e) ∈ t.
Proof.
  induction t as [|[k' e'] rest IH]; [done|]. simpl.
  destruct (String.eqb_spec k' k) as [->|_]; [intros [= ->]; by left|].
  intros. right. auto.
Qed.

Lemma table_insert_above k0 key e t :
  key_lt k0 key → Forall (fun p => key_lt k0 p.1) t →
  Forall (fun p => key_lt k0 p.1) (table_insert key e t).
Proof.
  intros Hkey Ht. induction Ht as [|[k' e'] rest Hk Hrest IH]; simpl.
  - by constructor.
  - destruct (String_as_OT.compare key k'); repeat (constructor; [done|]); done.
Qed.

Lemma table_insert_ascending key e t : ascending t → ascending (table_insert key e t).
Proof.
  induction t as [|[k' e'] rest IH]; simpl.
  - intros _. by repeat constructor.
  - intros [Hall Hrest]%ascending_cons.
    destruct (String_as_OT.compare_spec key k') as [->|Hlt|Hgt].
    + by apply ascending_cons.
    + apply ascending_cons. split; [|by apply ascending_cons].
      constructor; [done|]. eapply Forall_impl; [done|].
      intros p. by apply key_lt_trans.
    + apply ascending_cons. split; [by apply table_insert_above|by apply IH].
Qed.

(** ** [scan] *)

Lemma scan_above k0 a b t :
  Forall (fun p => key_lt k0 p.1) t → Forall (fun p => key_lt k0 p.1) (scan a b t).
Proof.
  induction 1 as [|[k' e'] rest Hk _ IH]; simpl; [done|].
  destruct (key_ltb k' a); [done|]. destruct (key_leb k' b); by constructor.
Qed.

Lemma scan_ascending a b t : ascending t → ascending (scan a b t).
Proof.
  induction t as [|[k' e'] rest IH]; simpl; [done|].
  intros [Hall Hrest]%ascending_cons.
  destruct (key_ltb k' a); [by apply IH|].
  destruct (key_leb k' b); [|constructor].
  apply ascending_cons. split; [by apply scan_above|by apply IH].
Qed.

(** On an ascending table, [scan] keeps exactly the entries in range. *)
Lemma table_get_scan k a b t :
  ascending t →
  table_get k (scan a b t) =
    if key_leb a k && key_leb k b then table_get k t else None.
Proof.
  induction t as [|[k' e'] rest IH]; simpl; [by destruct (_ && _)|].
  intros [Hall Hrest]%ascending_cons. specialize (IH Hrest).
  destruct (key_ltb k' a) eqn:Hlo.
  - rewrite IH. destruct (String.eqb_spec k' k) as [->|_]; [|done].
    assert (key_leb a k = false) as -> by (unfold key_leb; by rewrite Hlo).
    done.
  - destruct (key_leb k' b) eqn:Hhi; simpl.
    + destruct (String.eqb_spec k' k) as [->|_]; [|done].
      assert (key_leb a k = true) as -> by (unfold key_leb; by rewrite Hlo).
      by rewrite Hhi.
    + destruct (key_leb a k && key_leb k b) eqn:Hin; [|done].
      apply andb_prop in Hin as [_ Hkb].
      apply key_leb_le in Hkb. apply not_true_iff_false in Hhi.
      rewrite key_leb_le in Hhi.
      assert (key_lt k k') as Hkk'.
      { destruct (key_trichotomy b k') as [?|[->|?]]; [|by destruct Hhi; apply key_lt_irrefl|by destruct Hhi; intros ?; eapply key_lt_irrefl, key_lt_trans].
        by apply key_le_lt_trans with b. }
      destruct (String.eqb_spec k' k) as [->|_]; [by apply key_lt_irrefl in Hkk'|].
      symmetry. apply table_get_above.
      eapply Forall_impl; [done|]. intros p. by apply key_lt_trans.
Qed.

(** ** The merge iterator *)

(** Every key of the table is at least [k] / above [k]. *)
Local Abbreviation at_least k := (Forall (fun p : string * Entry => ¬ key_lt p.1 k)).
Local Abbreviation above k := (Forall (fun p : string * Entry => key_lt k p.1)).

Lemma above_at_least k t : above k t → at_least k t.
Proof.
  intros Hab. eapply Forall_impl; [exact Hab|].
  intros p Hp Hp'. by eapply key_lt_irrefl, key_lt_trans.
Qed.

Lemma ascending_at_least k e t : ascending ((k, e) :: t) → at_least k ((k, e) :: t).
Proof.
  intros [Hall _]%ascending_cons. constructor; [apply key_lt_irrefl|].
  by apply above_at_least.
Qed.

Lemma heap_min_None iters : heap_min iters = None → Forall (fun it => it = []) iters.
Proof.
  induction iters as [|[|[k e] rest] lower IH]; simpl; [done| |].
  - intros. constructor; auto.
  - destruct (heap_min lower) as [[k' e']|]; [|done]. by destruct (key_ltb k' k).
Qed.

Lemma probe_empty k iters : Forall (fun it => it = []) iters → probe k iters = None.
Proof. induction 1 as [|it lower -> _ IH]; [done|]. done. Qed.

(** The top of the heap is what a point read of its key finds, and no
    source holds a smaller key. *)
Lemma heap_min_Some iters k e :
  Forall ascending iters → heap_min iters = Some (k, e) →
  probe k iters = Some e ∧ Forall (at_least k) iters.
Proof.
  intros Hasc. revert k e.
  induction Hasc as [|it lower Hit Hlower IH]; intros k e; [done|].
  cbn [heap_min probe].
  destruct it as [|[k0 e0] rest].
  { intros [Hp Hall]%IH. split; [done|]. by constructor. }
  pose proof (ascending_at_least _ _ _ Hit) as Hit0.
  assert (table_get k0 ((k0, e0) :: rest) = Some e0) as Hhead
    by (simpl; by rewrite String.eqb_refl).
  destruct (heap_min lower) as [[k' e']|] eqn:Hmin.
  - destruct (IH k' e' eq_refl) as [Hp Hall].
    destruct (key_ltb k' k0) eqn:Hlt; intros [= <- <-].
    + apply key_ltb_lt in Hlt.
      assert (above k' ((k0, e0) :: rest)) as Hab.
      { eapply Forall_impl; [exact Hit0|]. intros p Hp'. simpl in Hp'.
        by apply key_lt_le_trans with k0. }
      rewrite (table_get_above _ _ Hab). split; [done|].
      constructor; [by apply above_at_least|done].
    + rewrite Hhead. split; [done|]. constructor; [done|].
      apply not_true_iff_false in Hlt. rewrite key_ltb_lt in Hlt.
      eapply Forall_impl; [exact Hall|]. intros it Hge.
      eapply Forall_impl; [exact Hge|]. intros p Hp' Hlt'. apply Hp'.
      by apply key_lt_le_trans with k0.
  - intros [= <- <-]. rewrite Hhead. split; [done|]. constructor; [done|].
    apply heap_min_None in Hmin. eapply Forall_impl; [exact Hmin|].
    by intros it ->.
Qed.

Lemma advance_past_get k k' t :
  k' ≠ k → table_get k' (advance_past k t) = table_get k' t.
Proof.
  intros Hne. destruct t as [|[k0 e0] rest]; simpl; [done|].
  destruct (String.eqb_spec k0 k) as [->|_]; [|done].
  simpl. by destruct (String.eqb_spec k k') as [->|_].
Qed.

Lemma probe_advance k k' iters :
  k' ≠ k → probe k' (List.map (advance_past k) iters) = probe k' iters.
Proof.
  intros Hne. induction iters as [|it lower IH]; simpl; [done|].
  by rewrite advance_past_get, IH.
Qed.

Lemma advance_past_ascending k t : ascending t → ascending (advance_past k t).
Proof.
  destruct t as [|[k0 e0] rest]; simpl; [done|].
  destruct (String.eqb k0 k); [|done]. by intros [_ ?]%ascending_cons.
Qed.

Lemma advance_past_above k t : ascending t → at_least k t → above k (advance_past k t).
Proof.
  destruct t as [|[k0 e0] rest]; simpl; [done|].
  intros [Hall _]%ascending_cons Hge. apply Forall_cons in Hge as [Hk0 _]. simpl in Hk0.
  destruct (String.eqb_spec k0 k) as [->|Hne]; [done|].
  assert (key_lt k k0) as Hlt by (destruct (key_trichotomy k k0) as [?|[?|?]]; done).
  constructor; [done|]. eapply Forall_impl; [exact Hall|].
  intros p. by apply key_lt_trans.
Qed.

Lemma advance_past_length k t : length (advance_past k t) ≤ length t.
Proof.
  destruct t as [|[k0 e0] rest]; simpl; [done|].
  destruct (String.eqb k0 k); simpl; lia.
Qed.

Lemma advance_all_length k iters :
  length (concat (List.map (advance_past k) iters)) ≤ length (concat iters).
Proof.
  induction iters as [|it lower IH]; simpl; [done|].
  rewrite !length_app. pose proof (advance_past_length k it). lia.
Qed.

(** A round of the loop consumes at least the entry it took. *)
Lemma heap_min_progress iters k e :
  heap_min iters = Some (k, e) →
  length (concat (List.map (advance_past k) iters)) < length (concat iters).
Proof.
  induction iters as [|it lower IH]; [done|].
  cbn [List.map concat]. rewrite !length_app.
  pose proof (advance_all_length k lower) as Hlower.
  destruct it as [|[k0 e0] rest]; simpl.
  { intros ?%IH. lia. }
  destruct (heap_min lower) as [[k' e']|] eqn:Hmin.
  - destruct (key_ltb k' k0); intros [= <- <-].
    + specialize (IH eq_refl). destruct (String.eqb k0 k'); simpl; lia.
    + rewrite String.eqb_refl. lia.
  - intros [= <- <-]. rewrite String.eqb_refl. lia.
Qed.

Lemma probe_In k e iters : probe k iters = Some e → Exists (fun it => (k, e) ∈ it) iters.
Proof.
  induction iters as [|it lower IH]; simpl; [done|].
  destruct (table_get k it) as [e'|] eqn:Hget.
  - intros [= ->]. left. by apply table_get_In.
  - intros. right. auto.
Qed.

Lemma live_Some e v : live (Some e) = Some v ↔ type e = PUT ∧ value e = v.
Proof.
  destruct e as [[] sq val]; simpl; split; try done.
  - by intros [= ->].
  - by intros [_ ->].
  - by intros [? _].
Qed.

Lemma live_hit (o : option Entry) v : live o = Some v → ∃ e, o = Some e.
Proof. destruct o as [e|]; [by exists e|done]. Qed.

(** Without a limit the merge iterator yields, in ascending key order,
    exactly the keys whose newest entry is a value. *)
Lemma merge_loop_spec fuel iters :
  Forall ascending iters → length (concat iters) ≤ fuel →
  ascending (merge_loop fuel None iters)
  ∧ ∀ k v, (k, v) ∈ merge_loop fuel None iters ↔ live (probe k iters) = Some v.
Proof.
  revert iters. induction fuel as [|fuel IH]; intros iters Hasc Hfuel.
  - simpl. split; [constructor|]. intros k v.
    assert (Forall (fun it => it = []) iters) as Hnil.
    { clear Hasc. induction iters as [|[|] lower IHl]; [done| |simpl in Hfuel; lia].
      constructor; [done|]. by apply IHl. }
    rewrite (probe_empty k iters Hnil), elem_of_nil. done.
  - cbn [merge_loop]. destruct (heap_min iters) as [[k0 e0]|] eqn:Hmin.
    2: { split; [constructor|]. intros k v.
         rewrite (probe_empty k iters (heap_min_None iters Hmin)), elem_of_nil. done. }
    destruct (heap_min_Some iters k0 e0 Hasc Hmin) as [Hprobe Hge].
    pose proof (heap_min_progress iters k0 e0 Hmin) as Hlen.
    set (iters' := List.map (advance_past k0) iters) in *.
    assert (Forall ascending iters') as Hasc'.
    { apply Forall_map. eapply Forall_impl; [exact Hasc|].
      intros it. apply advance_past_ascending. }
    assert (Forall (above k0) iters') as Habove.
    { apply Forall_map. apply Forall_forall. intros it Hit.
      apply advance_past_above.
      - by apply (proj1 (Forall_forall _ _) Hasc).
      - by apply (proj1 (Forall_forall _ _) Hge). }
    destruct (IH iters' Hasc') as [Hsorted Hmem]; [lia|].
    assert (∀ k v, (k, v) ∈ merge_loop fuel None iters' → key_lt k0 k) as Hout.
    { intros k v [e' He']%Hmem%live_hit.
      apply probe_In, Exists_exists in He' as (it & Hit & Hin).
      rewrite Forall_forall in Habove. specialize (Habove it Hit).
      rewrite Forall_forall in Habove. by apply (Habove (k, e')). }
    assert (∀ k v, k ≠ k0 →
              (k, v) ∈ merge_loop fuel None iters' ↔ live (probe k iters) = Some v)
      as Hother.
    { intros k v Hne. rewrite Hmem. unfold iters'. by rewrite probe_advance. }
    destruct (type e0) eqn:Hty.
    + split.
      * apply ascending_cons. split; [|done].
        apply Forall_forall. intros [k v] Hin. by eapply Hout.
      * intros k v. rewrite elem_of_cons. destruct (decide (k = k0)) as [->|Hne].
        -- rewrite Hprobe, live_Some. split.
           ++ intros [[= <-]|Hin]; [done|]. by apply Hout, key_lt_irrefl in Hin.
           ++ intros [_ <-]. by left.
        -- rewrite <- (Hother k v Hne). split; [|by right].
           intros [[= ? ?]|?]; done.
    + split; [done|]. intros k v. destruct (decide (k = k0)) as [->|Hne].
      * rewrite Hprobe, live_Some. split; [|by rewrite Hty; intros [? _]].
        intros Hin. by apply Hout, key_lt_irrefl in Hin.
      * by apply Hother.
Qed.

(** A limit cuts the unlimited sequence after that many pairs. *)
Lemma merge_loop_limit fuel n iters :
  merge_loop fuel (Some n) iters = take n (merge_loop fuel None iters).
Proof.
  revert n iters. induction fuel as [|fuel IH]; intros n iters; [by destruct n|].
  cbn [merge_loop]. destruct n as [|n]; [done|].
  destruct (heap_min iters) as [[k e]|]; [|done].
  destruct (type e); [|apply IH]. cbn [fmap option_fmap option_map Nat.pred take].
  by rewrite IH.
Qed.

Lemma ascending_take {A} n (l : list (string * A)) : ascending l → ascending (take n l).
Proof.
  intros Hl. revert n. induction Hl as [|p l Hl IH Hp]; intros [|n]; simpl; try constructor.
  - apply IH.
  - eapply Forall_forall. intros q Hq. rewrite Forall_forall in Hp.
    apply Hp. by eapply subseteq_take.
Qed.

(** ** Range scans of a store *)

(** Every source of the store is ascending. *)
Local Abbreviation well_formed s := (Forall ascending (sources s)).

Lemma probe_scan k a b tables :
  Forall ascending tables →
  probe k (List.map (scan a b) tables) =
    if key_leb a k && key_leb k b then probe k tables else None.
Proof.
  induction 1 as [|t older Ht _ IH]; simpl; [by destruct (_ && _)|].
  rewrite (table_get_scan k a b t Ht), IH. by destruct (_ && _).
Qed.

Lemma read_key_range_limit a b (limit : option Z) s :
  read_key_range a b limit s =
    match limit with
    | Some n => take (Z.to_nat n) (read_key_range a b None s)
    | None => read_key_range a b None s
    end.
Proof.
  destruct limit as [n|]; [|done].
  unfold read_key_range, merge_iterator. apply merge_loop_limit.
Qed.

Lemma read_key_range_unlimited a b s :
  well_formed s →
  ascending (read_key_range a b None s)
  ∧ ∀ k v, (k, v) ∈ read_key_range a b None s ↔ in_range a b k ∧ get k s = Some v.
Proof.
  intros Hwf. unfold read_key_range, merge_iterator.
  destruct (merge_loop_spec (length (concat (List.map (scan a b) (sources s))))
              (List.map (scan a b) (sources s))) as [Hasc Hmem].
  - apply Forall_map. eapply Forall_impl; [exact Hwf|]. intros t. apply scan_ascending.
  - done.
  - split; [done|]. intros k v. cbn [fmap option_fmap option_map].
    rewrite Hmem, (probe_scan k a b _ Hwf). unfold in_range, get.
    destruct (key_leb a k), (key_leb k b); simpl; split; try done; by intros [[? ?] ?].
Qed.

Lemma write_shape ty key val s s' :
  write ty key val s = (Ok tt, s') →
  let inserted := table_insert key {| type := ty; seq := sequence s; value := val |}
                               (memtable_active s) in
  sources s' = inserted :: memtable_immutable s ++ sstables s
  ∨ sources s' = [] :: inserted :: memtable_immutable s ++ sstables s.
Proof.
  unfold write. destruct (degraded s); [discriminate|].
  destruct (String.eqb key ""); [discriminate|].
  cbn -[table_insert approximate_bytes].
  destruct (_ <=? _)%N; intros [= <-]; [by right|by left].
Qed.

Lemma write_well_formed ty key val s : well_formed s → well_formed (write ty key val s).2.
Proof.
  intros Hwf. destruct (write_result ty key val s) as [[s' Hw]|[err Hw]]; rewrite Hw; [|done].
  simpl. apply Forall_cons in Hwf as [Hactive Hrest].
  destruct (write_shape _ _ _ _ _ Hw) as [-> | ->];
    repeat (constructor; try done); by apply table_insert_ascending.
Qed.

Lemma batch_put_well_formed entries s : well_formed s → well_formed (batch_put entries s).2.
Proof.
  revert s. induction entries as [|[key val] rest IH]; intros s Hwf; [done|].
  rewrite batch_put_cons.
  pose proof (write_well_formed PUT key val s Hwf) as Hput.
  destruct (write PUT key val s) as [[[]|err] s1]; simpl in *; [|done].
  by apply IH.
Qed.

Lemma step_well_formed op s : well_formed s → well_formed (step op s).
Proof.
  destruct op as [k v|k|entries| |]; simpl; intros Hwf.
  - by apply write_well_formed.
  - by apply write_well_formed.
  - by apply batch_put_well_formed.
  - by rewrite sources_flush.
  - done.
Qed.

Lemma reachable_well_formed s : reachable s → well_formed s.
Proof.
  intros (cfg & ops & ->).
  assert (well_formed (empty cfg)) as Hempty by (repeat constructor).
  revert Hempty. generalize (empty cfg). unfold run.
  induction ops as [|op ops IH]; intros s0 Hwf; [done|].
  simpl. by apply IH, step_well_formed.
Qed.

(** C1. In a store reached from the empty one, a range scan over
    [start..end], with or without a limit, yields pairs in strictly
    ascending key order, each key within [start, end] and each value the
    one [get] returns; without a limit it yields every live key of the
    range, so both bounds are included when they are live. The scan of
    [rng:005..rng:015] over the keys [rng:001] to [rng:030] yields the 11
    pairs [rng:005] to [rng:015], also through GET /range. *)
Theorem range_scan_inclusive_ascending s a b (limit : option Z) :
  reachable s →
  ascending (read_key_range a b limit s)
  ∧ (∀ k v, (k, v) ∈ read_key_range a b limit s → in_range a b k ∧ get k s = Some v)
  ∧ (∀ k v, in_range a b k → get k s = Some v → (k, v) ∈ read_key_range a b None s)
  ∧ (key_leb a b = true →
       (∀ v, get a s = Some v → (a, v) ∈ read_key_range a b None s)
       ∧ (∀ v, get b s = Some v → (b, v) ∈ read_key_range a b None s))
  ∧ List.map fst (read_key_range "rng:005" "rng:015" None rng_store)
      = List.map rng_key (List.seq 5 11)
  ∧ (handleRequest (ReplicationState:=unit) (ReplicationMetrics:=unit) handleRange
       (GET_range [("start", "rng:005"); ("end", "rng:015")]) rng_store).1
      = json (RangePayload 11
                (List.map (fun i => (rng_key i, "R-" +:+ index_toString i)) (List.seq 5 11))).
Proof.
  intros Hwf%reachable_well_formed.
  destruct (read_key_range_unlimited a b s Hwf) as [Hasc Hmem].
  split_and!.
  - rewrite read_key_range_limit. destruct limit; [by apply ascending_take|done].
  - intros k v Hin. apply Hmem. rewrite read_key_range_limit in Hin.
    destruct limit; [by eapply subseteq_take|done].
  - intros k v Hk Hv. by apply Hmem.
  - intros Hab. split; intros v Hv; apply Hmem; (split; [|done]).
    + split; [apply key_leb_refl|done].
    + split; [done|apply key_leb_refl].
  - by vm_compute.
  - by vm_compute.
Qed.
End LSMRangeScans.

(* ================================================================== *)
(** * Properties of the LSM engine: sequence numbers                   *)
(* ================================================================== *)

Section LSMSequenceNumbers.
Import LSM.

Implicit Types (s : Store) (t : Table) (e : Entry) (key k : string).

Lemma table_insert_Forall (P : string * Entry → Prop) key e t :
  P (key, e) → Forall P t → Forall P (table_insert key e t).
Proof.
  intros Hnew Ht. induction Ht as [|[k' e'] rest Hk Hrest IH]; simpl.
  - by constructor.
  - destruct (String_as_OT.compare key k'); repeat (constructor; [done|]); done.
Qed.

Lemma sequenced_weaken lo hi hi' t : (hi ≤ hi')%Z → sequenced lo hi t → sequenced lo hi' t.
Proof.
  intros Hhi Ht. eapply Forall_impl; [exact Ht|]. intros p Hp. simpl in *. lia.
Qed.

Lemma write_stratified ty key val s :
  stratified (sequence s) (sources s) →
  stratified (sequence (write ty key val s).2) (sources (write ty key val s).2).
Proof.
  intros Hs. destruct (write_result ty key val s) as [[s' Hw]|[err Hw]]; rewrite Hw; [|done].
  cbn [snd]. assert (sequence s' = (sequence s + 1)%Z) as ->.
  { revert Hw. unfold write. destruct (degraded s); [discriminate|].
    destruct (String.eqb key ""); [discriminate|].
    cbn -[table_insert approximate_bytes]. by destruct (_ <=? _)%N; intros [= <-]. }
  destruct Hs as (lo & Hlo & Hactive & Holder).
  assert (stratified (sequence s + 1)
            (table_insert key {| type := ty; seq := sequence s; value := val |}
                          (memtable_active s)
             :: memtable_immutable s ++ sstables s)) as Hinserted.
  { exists lo. split_and!; [lia| |done].
    apply table_insert_Forall; [simpl; lia|]. by apply sequenced_weaken with (sequence s); [lia|]. }
  destruct (write_shape _ _ _ _ _ Hw) as [-> | ->]; [done|].
  exists (sequence s + 1)%Z. split_and!; [lia|constructor|done].
Qed.

Lemma batch_put_stratified entries s :
  stratified (sequence s) (sources s) →
  stratified (sequence (batch_put entries s).2) (sources (batch_put entries s).2).
Proof.
  revert s. induction entries as [|[key val] rest IH]; intros s Hs; [done|].
  rewrite batch_put_cons.
  pose proof (write_stratified PUT key val s Hs) as Hput.
  destruct (write PUT key val s) as [[[]|err] s1]; simpl in *; [|done].
  by apply IH.
Qed.

Lemma reachable_stratified s : reachable s → stratified (sequence s) (sources s).
Proof.
  intros (cfg & ops & ->).
  assert (stratified (sequence (empty cfg)) (sources (empty cfg))) as Hempty.
  { exists 1%Z. split_and!; [done|constructor|done]. }
  revert Hempty. generalize (empty cfg). unfold run.
  induction ops as [|op ops IH]; intros s0 Hs; [done|].
  cbn [fold_left]. apply IH. destruct op as [k v|k|entries| |]; cbn [step].
  - by apply write_stratified.
  - by apply write_stratified.
  - by apply batch_put_stratified.
  - assert (sequence (flush s0) = sequence s0) as ->
      by (unfold flush; by destruct (List.rev (memtable_immutable s0))).
    by rewrite sources_flush.
  - done.
Qed.

Lemma stratified_below hi tables k e :
  stratified hi tables → probe k tables = Some e → (seq e < hi)%Z.
Proof.
  revert hi. induction tables as [|t older IH]; intros hi; [done|].
  intros (lo & Hlo & Ht & Holder). simpl.
  destruct (table_get k t) as [e0|] eqn:Hget.
  - intros [= ->]. apply table_get_In in Hget.
    unfold sequenced in Ht. rewrite Forall_forall in Ht.
    specialize (Ht _ Hget). simpl in Ht. lia.
  - intros Hp. specialize (IH lo Holder Hp). lia.
Qed.

(** In a store reached from the empty one, the source-priority rule of the
    reads and the sequence-number rule of section 4.7 pick the same entry. *)
Lemma tie_breaking_agrees s k :
  reachable s → highest_sequence k (sources s) = probe k (sources s).
Proof.
  intros Hs%reachable_stratified. revert Hs.
  generalize (sequence s). induction (sources s) as [|t older IH]; intros hi; [done|].
  intros (lo & Hlo & Ht & Holder). simpl. rewrite (IH lo Holder).
  destruct (table_get k t) as [e|] eqn:Hget; [|done].
  destruct (probe k older) as [e'|] eqn:Hprobe; [|done].
  apply table_get_In in Hget. unfold sequenced in Ht. rewrite Forall_forall in Ht.
  specialize (Ht _ Hget). simpl in Ht.
  pose proof (stratified_below lo older k e' Holder Hprobe).
  destruct (Z.ltb_spec (seq e) (seq e')); [lia|done].
Qed.
End LSMSequenceNumbers.

(* ================================================================== *)
(** * The facade over the LSM engine                                   *)
(* ================================================================== *)

Section HTTPServerOverLSM.
Context {number : Type} `{JsNumber number}.
Context {St Me : Type}.

Local Abbreviation handle := (@handleRequest number LSM.Store St Me).

Implicit Types (req : ParsedRequest number) (s : LSM.Store).

(** C3. If [delete(k)] returns success, then after any operations that do
    not write [k], [get(k)] returns "not found", whatever older value the
    store held for [k]; GET /get/k is answered 404. *)
Theorem delete_then_get_not_found key s s1 ops req :
  LSM.delete key s = (Ok tt, s1) →
  Forall (fun op => LSM.writes key op = false) ops →
  params req !! "key" = Some key →
  LSM.get key (LSM.run ops s1) = None
  ∧ statusCode (handle handleGet req (LSM.run ops s1)).1 = 404%Z.
Proof.
  intros Hdel Hops Hparam.
  assert (LSM.get key (LSM.run ops s1) = None) as Hget.
  { rewrite get_run by done. by rewrite (get_write_eq LSM.DELETE key "" s s1). }
  split; [done|].
  apply write_sources in Hdel as (Hkey & _ & _).
  rewrite (handleGet_run req _ key Hparam Hkey). simpl. by rewrite Hget.
Qed.

(** GET /get/:key over the LSM engine: 404 for a key no source holds and for
    a key whose newest entry is a tombstone. *)
Lemma handleGet_over_LSM req s (key : string) :
  params req !! "key" = Some key → key ≠ "" →
  handle handleGet req s =
    (match LSM.probe key (LSM.sources s) with
     | Some {| LSM.type := LSM.PUT; LSM.value := value |} => json (ValuePayload key value)
     | Some {| LSM.type := LSM.DELETE |} | None =>
         status_json 404 (KeyNotFoundPayload "Key not found" key)
     end, s).
Proof.
  intros Hparam Hkey. rewrite (handleGet_run req s key Hparam Hkey).
  cbn [get LSMStore]. unfold LSM.get.
  by destruct (LSM.probe key (LSM.sources s)) as [[[] sq v]|].
Qed.

(** What a limit does to the answer of GET /range: the pairs are the first
    [parsedLimit] pairs of the unlimited scan, hence all of them when the
    limit exceeds what is available. *)
Lemma handleRange_limit_caps req s (start end_ : string) (parsedLimit : Z) :
  query req !! "start" = Some start → start ≠ "" →
  query req !! "end" = Some end_ → end_ ≠ "" →
  parse_limit (query req !! "limit") = Some parsedLimit →
  let full := LSM.read_key_range start end_ None s in
  let results := take (Z.to_nat parsedLimit) full in
  handle handleRange req s = (json (RangePayload (length results) results), s)
  ∧ (Z.of_nat (length results) ≤ parsedLimit)%Z
  ∧ ((Z.of_nat (length full) ≤ parsedLimit)%Z → results = full).
Proof.
  intros Hs Hs' He He' Hl. cbn zeta.
  rewrite (handleRange_run req s start end_ parsedLimit) by done. simpl.
  rewrite (read_key_range_limit start end_ (Some parsedLimit) s).
  split_and!; [done| |].
  - rewrite length_take.
    assert (1 ≤ parsedLimit)%Z; [|lia].
    unfold parse_limit in Hl. destruct (query req !! "limit") as [l|]; [|by injection Hl; lia].
    destruct (parseInt10 l) as [n|]; [|done].
    destruct (Z.ltb_spec n 1); [done|]. injection Hl. lia.
  - intros Hall. apply take_ge. lia.
Qed.

(** C9. A GET /range request without [limit]: the handler calls
    [readKeyRange(start, end, {limit: 100})] on whatever engine it has;
    over the LSM engine the answer holds the first 100 pairs of the
    unlimited scan, so at most 100 pairs however many live keys the range
    has. *)
Theorem handleRange_default_limit req (start end_ : string) :
  query req !! "start" = Some start → start ≠ "" →
  query req !! "end" = Some end_ → end_ ≠ "" →
  query req !! "limit" = None →
  (∀ (S : Type) (engine : IStorageEngine S) (s : S),
     @handleRequest number S St Me handleRange req s =
       match readKeyRange start end_ (Some 100%Z) s with
       | (Ok results, s') => (json (RangePayload (length results) results), s')
       | (Throw _, s') => (status_json 500 (ErrorPayload "Internal server error"), s')
       end)
  ∧ (∀ s, let results := take 100 (LSM.read_key_range start end_ None s) in
          handle handleRange req s = (json (RangePayload (length results) results), s)
          ∧ length results ≤ 100).
Proof.
  intros Hs Hs' He He' Hl. split.
  - intros S engine s. apply handleRange_run; try done. by rewrite Hl.
  - intros s. cbn zeta.
    destruct (handleRange_limit_caps req s start end_ 100) as (Hrun & Hcap & _);
      try done; [by rewrite Hl|].
    split; [exact Hrun|]. cbn zeta in Hcap. change (Z.to_nat 100) with 100 in Hcap. lia.
Qed.
End HTTPServerOverLSM.

(* ================================================================== *)
(** * The integration tests, replayed                                  *)
(* ================================================================== *)

(** [testPutAndGet], [testUpdate] and [testDelete] against a fresh server. *)
Example integration_put_get_update_delete :
  (serve (St:=unit) (Me:=unit)
     [ handleRequest handlePut (POST_put "user:1" "Alice");
       handleRequest handleGet (GET_get "user:1");
       handleRequest handleGet (GET_get "nonexistent");
       handleRequest handlePut (POST_put "user:1" "Alice Updated");
       handleRequest handleGet (GET_get "user:1");
       handleRequest handlePut (POST_put "user:del" "ToBeDeleted");
       handleRequest handleGet (GET_get "user:del");
       handleRequest handleDelete (DELETE_delete "user:del");
       handleRequest handleGet (GET_get "user:del") ]
     (LSM.empty TEST_CONFIG)).1
  = [ json SuccessPayload;
      json (ValuePayload "user:1" "Alice");
      status_json 404 (KeyNotFoundPayload "Key not found" "nonexistent");
      json SuccessPayload;
      json (ValuePayload "user:1" "Alice Updated");
      json SuccessPayload;
      json (ValuePayload "user:del" "ToBeDeleted");
      json SuccessPayload;
      status_json 404 (KeyNotFoundPayload "Key not found" "user:del") ].
Proof. by vm_compute. Qed.

(** [testBatchPut] against a fresh server. *)
Example integration_batch_put :
  (serve (St:=unit) (Me:=unit)
     [ handleRequest handleBatchPut POST_batch;
       handleRequest handleGet (GET_get "batch:001");
       handleRequest handleGet (GET_get "batch:050") ]
     (LSM.empty TEST_CONFIG)).1
  = [ json (BatchPayload 50);
      json (ValuePayload "batch:001" "Val-1");
      json (ValuePayload "batch:050" "Val-50") ].
Proof. by vm_compute. Qed.

(** [testInputValidation], and an empty-string value, which is accepted. *)
Example integration_input_validation :
  let request body : ParsedRequest Z :=
    {| method := "POST"; path := "/put"; params := ∅; query := ∅; body := body |} in
  List.map statusCode
    (serve (St:=unit) (Me:=unit)
       [ handleRequest handlePut (request (JObject [("value", JString "nokey")]));
         handleRequest handlePut (request (JObject [("key", JString "k")]));
         handleRequest handleBatchPut (request (JObject [("entries", JArray [])]));
         handleRequest handlePut (request (JObject [("key", JString "k"); ("value", JString "")]));
         handleRequest handlePut (request (JObject [("key", JString ""); ("value", JString "v")]));
         handleRequest handlePut (request (JArray [])) ]
       (LSM.empty TEST_CONFIG)).1
  = [400; 400; 400; 200; 400; 400]%Z.
Proof. by vm_compute. Qed.

(** [testRangeQuery] with [limit=5], and the limits [0] and [1.5]. *)
Example integration_range_limits :
  List.map (fun limit =>
              (handleRequest (ReplicationState:=unit) (ReplicationMetrics:=unit) handleRange
                 (GET_range [("start", "rng:001"); ("end", "rng:030"); ("limit", limit)])
                 rng_store).1)
           ["5"; "0"; "1.5"; "500"]
  = [ json (RangePayload 5 (List.map (fun i => (rng_key i, "R-" +:+ index_toString i)) (seq 1 5)));
      status_json 400 (ErrorPayload "Invalid limit: must be positive integer");
      json (RangePayload 1 [("rng:001", "R-1")]);
      json (RangePayload 30 (List.map (fun i => (rng_key i, "R-" +:+ index_toString i)) (seq 1 30))) ].
Proof. by vm_compute. Qed.

(** A delete shadows a value that was already flushed to an SSTable. *)
Example integration_tombstone_over_sstable :
  let s := LSM.run [LSM.OpPut "k" "old"; LSM.OpPut "m" "kept"] (LSM.empty
             {| LSM.memTableSizeLimit := 1; LSM.fixed_overhead := 16 |}%N) in
  let s' := LSM.run [LSM.OpFlush; LSM.OpDelete "k"] s in
  (LSM.sstables s', LSM.get "k" s, LSM.get "k" s', LSM.read_key_range "a" "z" None s')
  = ([ [("k", {| LSM.type := LSM.PUT; LSM.seq := 1; LSM.value := "old" |})] ],
     Some "old", None, [("m", "kept")]).
Proof. by vm_compute. Qed.

(* ================================================================== *)
(** * The theorems at concrete requests                                *)
(* ================================================================== *)

Lemma range_scan_inclusive_ascending_witness :
  LSM.reachable rng_store
  ∧ LSM.ascending (LSM.read_key_range "rng:005" "rng:015" (Some 5%Z) rng_store).
Proof.
  assert (LSM.reachable rng_store) as Hreach.
  { exists TEST_CONFIG,
      (List.map (fun i => LSM.OpPut (rng_key i) ("R-" +:+ index_toString i)) (seq 1 30)).
    vm_compute. reflexivity. }
  split; [exact Hreach|].
  exact (proj1 (range_scan_inclusive_ascending rng_store "rng:005" "rng:015" (Some 5%Z) Hreach)).
Defined.

Lemma put_then_get_witness :
  LSM.put "user:1" "Alice" (LSM.empty TEST_CONFIG)
    = (Ok tt, (LSM.put "user:1" "Alice" (LSM.empty TEST_CONFIG)).2)
  ∧ Forall (fun op => LSM.writes "user:1" op = false) [LSM.OpPut "user:2" "Bob"; LSM.OpFlush]
  ∧ LSM.get "user:1"
      (LSM.run [LSM.OpPut "user:2" "Bob"; LSM.OpFlush]
               (LSM.put "user:1" "Alice" (LSM.empty TEST_CONFIG)).2) = Some "Alice".
Proof.
  assert (Forall (fun op => LSM.writes "user:1" op = false)
                 [LSM.OpPut "user:2" "Bob"; LSM.OpFlush]) as Hops
    by (repeat constructor).
  split_and!; [reflexivity|exact Hops|].
  exact (proj1 (put_then_get "user:1" "Alice" (LSM.empty TEST_CONFIG) _
                  [LSM.OpPut "user:2" "Bob"; LSM.OpFlush] eq_refl Hops)).
Defined.

Lemma delete_then_get_not_found_witness :
  let s := (LSM.put "user:del" "ToBeDeleted" (LSM.empty TEST_CONFIG)).2 in
  LSM.delete "user:del" s = (Ok tt, (LSM.delete "user:del" s).2)
  ∧ statusCode (handleRequest (ReplicationState:=unit) (ReplicationMetrics:=unit) handleGet
                  (GET_get "user:del")
                  (LSM.run [LSM.OpFlush] (LSM.delete "user:del" s).2)).1 = 404%Z.
Proof.
  cbn zeta. split; [reflexivity|].
  refine (proj2 (delete_then_get_not_found (St:=unit) (Me:=unit) "user:del"
                   (LSM.put "user:del" "ToBeDeleted" (LSM.empty TEST_CONFIG)).2 _
                   [LSM.OpFlush] (GET_get "user:del") eq_refl _ _)).
  - repeat constructor.
  - vm_compute. reflexivity.
Defined.

Lemma handlePut_null_body_witness :
  let req : ParsedRequest Z :=
    {| method := "POST"; path := "/put"; params := ∅; query := ∅; body := JNull |} in
  statusCode (handleRequest (ReplicationState:=unit) (ReplicationMetrics:=unit) handlePut
                req (LSM.empty TEST_CONFIG)).1 = 500%Z.
Proof.
  cbn zeta.
  rewrite (proj1 (handlePut_null_body (St:=unit) (Me:=unit)
                    {| method := "POST"; path := "/put"; params := ∅; query := ∅;
                       body := JNull |} (LSM.empty TEST_CONFIG) eq_refl)).
  reflexivity.
Defined.

Lemma handleGet_404_iff_absent_witness :
  params (GET_get "nonexistent") !! "key" = Some "nonexistent"
  ∧ statusCode (handleRequest (ReplicationState:=unit) (ReplicationMetrics:=unit) handleGet
                  (GET_get "nonexistent") (LSM.empty TEST_CONFIG)).1 = 404%Z.
Proof.
  assert (params (GET_get "nonexistent") !! "key" = Some "nonexistent") as Hparam
    by (vm_compute; reflexivity).
  split; [exact Hparam|].
  apply (handleGet_404_iff_absent (St:=unit) (Me:=unit) (GET_get "nonexistent")
           (LSM.empty TEST_CONFIG) "nonexistent" Hparam); [discriminate|reflexivity].
Defined.

Lemma handleBatchPut_unconvertible_value_witness :
  let req : ParsedRequest Z :=
    {| method := "POST"; path := "/batch-put"; params := ∅; query := ∅;
       body := JObject [("entries",
                         JArray [JObject [("key", JString "a"); ("value", JString "1")];
                                 JObject [("key", JString "b");
                                          ("value", JObject [("toString", JNumber 1%Z)])]])] |} in
  handleRequest (ReplicationState:=unit) (ReplicationMetrics:=unit) handleBatchPut
    req (LSM.empty TEST_CONFIG)
  = (status_json 500 (ErrorPayload "Internal server error"), LSM.empty TEST_CONFIG).
Proof.
  cbn zeta.
  set (es := [JObject [("key", JString "a"); ("value", JString "1")];
              JObject [("key", JString "b");
                       ("value", JObject [("toString", JNumber 1%Z)])]]).
  set (req := {| method := "POST"; path := "/batch-put"; params := ∅; query := ∅;
                 body := JObject [("entries", JArray es)] |} : ParsedRequest Z).
  apply (handleBatchPut_unconvertible_value (St:=unit) (Me:=unit) req (LSM.empty TEST_CONFIG)
           es eq_refl).
  - repeat constructor; (by eexists; split; [reflexivity|discriminate]) || discriminate.
  - intros Hall. apply Forall_cons in Hall as [_ Hall].
    apply Forall_cons in Hall as [[text Htext] _]. discriminate Htext.
Defined.

Lemma handleRange_fractional_limit_witness :
  let req := GET_range [("start", "rng:001"); ("end", "rng:030"); ("limit", "1.5")] in
  query req !! "limit" = Some "1.5"
  ∧ statusCode (handleRequest (ReplicationState:=unit) (ReplicationMetrics:=unit) handleRange
                  req rng_store).1 ≠ 400%Z.
Proof.
  cbn zeta.
  set (req := GET_range [("start", "rng:001"); ("end", "rng:030"); ("limit", "1.5")]).
  assert (query req !! "start" = Some "rng:001") as Hstart by (vm_compute; reflexivity).
  assert (query req !! "end" = Some "rng:030") as Hend by (vm_compute; reflexivity).
  assert (query req !! "limit" = Some "1.5") as Hlimit by (vm_compute; reflexivity).
  split; [exact Hlimit|].
  exact (proj2 (handleRange_fractional_limit (St:=unit) (Me:=unit) req rng_store
                  "rng:001" "rng:030" Hstart ltac:(discriminate)
                  Hend ltac:(discriminate) Hlimit)).
Defined.

Lemma handleRange_default_limit_witness :
  let req := GET_range [("start", "rng:005"); ("end", "rng:015")] in
  query req !! "limit" = None
  ∧ (handleRequest (ReplicationState:=unit) (ReplicationMetrics:=unit) handleRange
       req rng_store).1
    = (let results := take 100 (LSM.read_key_range "rng:005" "rng:015" None rng_store) in
       json (RangePayload (length results) results)).
Proof.
  cbn zeta.
  set (req := GET_range [("start", "rng:005"); ("end", "rng:015")]).
  assert (query req !! "start" = Some "rng:005") as Hstart by (vm_compute; reflexivity).
  assert (query req !! "end" = Some "rng:015") as Hend by (vm_compute; reflexivity).
  assert (query req !! "limit" = None) as Hlimit by (vm_compute; reflexivity).
  split; [exact Hlimit|].
  destruct (proj2 (handleRange_default_limit (St:=unit) (Me:=unit) req
                     "rng:005" "rng:015" Hstart ltac:(discriminate)
                     Hend ltac:(discriminate) Hlimit) rng_store) as [Hrun _].
  rewrite Hrun. reflexivity.
Defined.

Lemma handleDelete_ignores_existence_witness :
  LSM.get "absent" (LSM.empty TEST_CONFIG) = None
  ∧ (handleRequest (ReplicationState:=unit) (ReplicationMetrics:=unit) handleDelete
       (DELETE_delete "absent") (LSM.empty TEST_CONFIG)).1 = json SuccessPayload.
Proof.
  split; [reflexivity|].
  rewrite (proj1 (handleDelete_ignores_existence (St:=unit) (Me:=unit)
                    (DELETE_delete "absent") (LSM.empty TEST_CONFIG) "absent"
                    ltac:(vm_compute; reflexivity) ltac:(discriminate))).
  - reflexivity.
  - reflexivity.
Defined.

(* ================================================================== *)
(** * More on the handlers: what a rejected request leaves behind      *)
(* ================================================================== *)

Section HandlerInvariants.
Context {number : Type} `{JsNumber number}.
Context {S : Type} {engine : IStorageEngine S}.
Context {St Me : Type}.

Local Abbreviation handle := (@handleRequest number S St Me).

Implicit Types (req : ParsedRequest number) (s : S).

Lemma parse_entries_bad_request (i : nat) (entries : list (Json number))
    (bad_request : Response St Me) :
  parse_entries i entries = Ok (inl bad_request) → statusCode bad_request = 400%Z.
Proof.
  revert i. induction entries as [|entry rest IH]; intros i; [done|].
  destruct (parse_entries_step (St:=St) (Me:=Me) i entry rest)
    as [[_ ->]|[[_ (err & _ & ->)]|[_ (bad & -> & Hbad)]]]; [|done|by intros [= <-]].
  destruct (parse_entries (Datatypes.S i) rest) as [[bad|parsed]|err] eqn:Hrest; [|done|done].
  intros [= <-]. by eapply IH.
Qed.

(** X1. A request answered 400 never reached the engine: whichever of the
    five store handlers rejects it, the engine is left in the state it was
    in. *)
Theorem rejected_request_leaves_engine req s :
  (statusCode (handle handlePut req s).1 = 400%Z → (handle handlePut req s).2 = s)
  ∧ (statusCode (handle handleBatchPut req s).1 = 400%Z → (handle handleBatchPut req s).2 = s)
  ∧ (statusCode (handle handleGet req s).1 = 400%Z → (handle handleGet req s).2 = s)
  ∧ (statusCode (handle handleDelete req s).1 = 400%Z → (handle handleDelete req s).2 = s)
  ∧ (statusCode (handle handleRange req s).1 = 400%Z → (handle handleRange req s).2 = s).
Proof.
  split_and!.
  - unfold handleRequest, handlePut, await, settled.
    destruct (get_property (body req) "key") as [key|]; [|done].
    destruct (get_property (body req) "value") as [value|]; [|done].
    destruct (as_nonempty_string key) as [k|]; [|done].
    destruct (nullish value); [done|].
    destruct (js_String value) as [text|err]; [|done].
    by destruct (put k text s) as [[[]|err] s'].
  - unfold handleRequest, handleBatchPut, await, settled.
    destruct (get_property (body req) "entries") as [entries|]; [|done].
    destruct (get_property (body req) "keys") as [keys|]; [|done].
    destruct (get_property (body req) "values") as [values|]; [|done].
    destruct (parse_batch entries keys values) as [[bad|[|pair parsed]]|err]; try done.
    cbn [length Nat.eqb].
    by destruct (batchPut (pair :: parsed) s) as [[count|err] s'].
  - unfold handleRequest, handleGet, await.
    destruct (truthy_param (params req !! "key")) as [key|]; [|done].
    by destruct (get key s) as [[[value|]|err] s'].
  - unfold handleRequest, handleDelete, await.
    destruct (truthy_param (params req !! "key")) as [key|]; [|done].
    by destruct (delete key s) as [[[]|err] s'].
  - unfold handleRequest, handleRange, await.
    destruct (truthy_param (query req !! "start")) as [start|]; [|done].
    destruct (truthy_param (query req !! "end")) as [end_|]; [|done].
    destruct (parse_limit (query req !! "limit")) as [parsedLimit|]; [|done].
    by destruct (readKeyRange start end_ (Some parsedLimit) s) as [[results|err] s'].
Qed.

(** X2. [handleRange] asks the engine for a range only with two non-empty
    bounds and a limit of at least 1, which is 100 when the request gives
    none and otherwise the integer [parseInt] reads in the one given; every
    other request (a bound missing or empty, a limit without a number or
    below 1) is answered 400 without the engine being called. Stated for
    limits within the safe integers, where [parseInt] is exact. *)
Theorem handleRange_engine_call req s :
  safe_limit (query req !! "limit") →
  (∃ (start end_ : string) (parsedLimit : Z),
     query req !! "start" = Some start ∧ start ≠ ""
     ∧ query req !! "end" = Some end_ ∧ end_ ≠ ""
     ∧ (1 ≤ parsedLimit ≤ MAX_SAFE_INTEGER)%Z
     ∧ match query req !! "limit" with
       | None => parsedLimit = 100%Z
       | Some limit => parseInt10 limit = Some parsedLimit
       end
     ∧ handle handleRange req s =
         match readKeyRange start end_ (Some parsedLimit) s with
         | (Ok results, s') => (json (RangePayload (length results) results), s')
         | (Throw _, s') => (status_json 500 (ErrorPayload "Internal server error"), s')
         end)
  ∨ (statusCode (handle handleRange req s).1 = 400%Z ∧ (handle handleRange req s).2 = s
     ∧ (query req !! "start" = None ∨ query req !! "start" = Some ""
        ∨ query req !! "end" = None ∨ query req !! "end" = Some ""
        ∨ ∃ limit, query req !! "limit" = Some limit
                   ∧ (parseInt10 limit = None
                      ∨ ∃ n, parseInt10 limit = Some n ∧ (n < 1)%Z))).
Proof.
  intros Hsafe. unfold handleRequest, handleRange, await.
  destruct (truthy_param (query req !! "start")) as [start|] eqn:Hstart.
  2: { right. split_and!; [done|done|].
       unfold truthy_param in Hstart. destruct (query req !! "start") as [k|]; [|tauto].
       destruct (String.eqb_spec k ""); [subst; tauto|done]. }
  destruct (truthy_param (query req !! "end")) as [end_|] eqn:Hend.
  2: { right. split_and!; [done|done|].
       unfold truthy_param in Hend. destruct (query req !! "end") as [k|]; [|tauto].
       destruct (String.eqb_spec k ""); [subst; tauto|done]. }
  apply truthy_param_Some in Hstart as [? ?]. apply truthy_param_Some in Hend as [? ?].
  unfold parse_limit. unfold safe_limit in Hsafe.
  destruct (query req !! "limit") as [limit|].
  - destruct (parseInt10 limit) as [n|] eqn:Hparse.
    + destruct (Z.ltb_spec n 1) as [Hsmall|Hlarge].
      * right. split_and!; [done|done|]. do 4 right. exists limit. split; [done|].
        right. by exists n.
      * left. exists start, end_, n. split_and!; try done.
        -- specialize (Hsafe limit n eq_refl Hparse). lia.
        -- by destruct (readKeyRange start end_ (Some n) s) as [[results|err] s'].
    + right. split_and!; [done|done|]. do 4 right. exists limit. tauto.
  - left. exists start, end_, 100%Z. split_and!; try done.
    by destruct (readKeyRange start end_ (Some 100%Z) s) as [[results|err] s'].
Qed.

Lemma parse_entries_first_invalid (i : nat) (good : list (Json number)) (bad : Json number)
    (rest : list (Json number)) :
  Forall convertible_entry good → ¬ valid_entry bad →
  parse_entries (ReplicationState:=St) (ReplicationMetrics:=Me) i (good ++ bad :: rest) =
    Ok (inl (status_json 400
               (ErrorPayload
                  (match as_nonempty_string (field bad "key") with
                   | None => "Invalid key at index " +:+ index_toString (i + length good)
                             +:+ ": must be non-empty string"
                   | Some _ => "Invalid value at index " +:+ index_toString (i + length good)
                               +:+ ": must not be null or undefined"
                   end)))).
Proof.
  intros Hgood Hbad. rewrite (parse_entries_app i good (bad :: rest) Hgood).
  assert (parse_entries (ReplicationState:=St) (ReplicationMetrics:=Me)
            (i + length good) (bad :: rest) =
          Ok (inl (status_json 400
                     (ErrorPayload
                        (match as_nonempty_string (field bad "key") with
                         | None => "Invalid key at index " +:+ index_toString (i + length good)
                                   +:+ ": must be non-empty string"
                         | Some _ => "Invalid value at index "
                                     +:+ index_toString (i + length good)
                                     +:+ ": must not be null or undefined"
                         end))))) as ->; [|done].
  cbn [parse_entries].
  destruct (truthy bad) eqn:Ht; cbn [negb].
  - rewrite !field_truthy by done.
    destruct (as_nonempty_string (field bad "key")) as [k|] eqn:Hk; [|done].
    destruct (nullish (field bad "value")) eqn:Hn; [done|].
    destruct Hbad. split.
    + apply as_nonempty_string_Some in Hk as [-> ?]. by exists k.
    + by apply valid_value_checked.
  - assert (field bad "key" = Undefined) as ->; [|done].
    unfold field. by destruct bad.
Qed.

(** X3. When the [entries] array of a batch holds an invalid entry and the
    values of the entries before it all convert, the 400 names the index of
    the first invalid entry, whatever follows it; within that entry a bad
    key is reported before a bad value. Nothing is written. *)
Theorem handleBatchPut_first_invalid req s (good : list (Json number)) (bad : Json number)
    (rest : list (Json number)) :
  get_property (body req) "entries" = Ok (FromJson (JArray (good ++ bad :: rest))) →
  Forall convertible_entry good → ¬ valid_entry bad →
  handle handleBatchPut req s =
    (status_json 400
       (ErrorPayload
          (match as_nonempty_string (field bad "key") with
           | None => "Invalid key at index " +:+ index_toString (length good)
                     +:+ ": must be non-empty string"
           | Some _ => "Invalid value at index " +:+ index_toString (length good)
                       +:+ ": must not be null or undefined"
           end)), s).
Proof.
  intros Hentries Hgood Hbad.
  assert (body req ≠ JNull) as Hbody by (intros Hnull; by rewrite Hnull in Hentries).
  destruct (get_property_defined (body req) "keys" Hbody) as [keys Hkeys].
  destruct (get_property_defined (body req) "values" Hbody) as [values Hvalues].
  rewrite (handleBatchPut_run req s _ _ _ Hentries Hkeys Hvalues).
  unfold parse_batch. cbn [as_array].
  by rewrite (parse_entries_first_invalid 0 good bad rest Hgood Hbad).
Qed.

(** X4. When the body has an [entries] array, its [keys] and [values] are
    not looked at: two bodies with the same [entries] array get the same
    answer and leave the same engine state. *)
Theorem handleBatchPut_entries_first req req' s (entries : list (Json number)) :
  get_property (body req) "entries" = Ok (FromJson (JArray entries)) →
  get_property (body req') "entries" = Ok (FromJson (JArray entries)) →
  handle handleBatchPut req s = handle handleBatchPut req' s.
Proof.
  intros Hentries Hentries'.
  assert (body req ≠ JNull) as Hbody by (intros Hnull; by rewrite Hnull in Hentries).
  assert (body req' ≠ JNull) as Hbody' by (intros Hnull; by rewrite Hnull in Hentries').
  destruct (get_property_defined (body req) "keys" Hbody) as [keys Hkeys].
  destruct (get_property_defined (body req) "values" Hbody) as [values Hvalues].
  destruct (get_property_defined (body req') "keys" Hbody') as [keys' Hkeys'].
  destruct (get_property_defined (body req') "values" Hbody') as [values' Hvalues'].
  rewrite (handleBatchPut_run req s _ _ _ Hentries Hkeys Hvalues).
  by rewrite (handleBatchPut_run req' s _ _ _ Hentries' Hkeys' Hvalues').
Qed.

Lemma digits_prefix_nonnegative (acc : option Z) (s : string) (n : Z) :
  (∀ a, acc = Some a → (0 ≤ a)%Z) →
  digits_prefix acc s = Some n → (0 ≤ n)%Z.
Proof.
  revert acc. induction s as [|c rest IH]; intros acc Hacc; simpl.
  - intros ->. by apply Hacc.
  - destruct (digit_value c) as [d|] eqn:Hd; [|intros ->; by apply Hacc].
    apply IH. intros a [= <-].
    assert (0 ≤ d)%Z.
    { unfold digit_value in Hd. destruct (_ && _); [|done]. injection Hd. lia. }
    assert (0 ≤ default 0 acc)%Z by (destruct acc as [a|]; [by apply Hacc|done]).
    lia.
Qed.

(** X5. A limit that begins with a minus sign is always rejected: GET
    /range answers 400 and the engine is not called. *)
Theorem handleRange_negative_limit req s (start end_ rest : string) :
  query req !! "start" = Some start → start ≠ "" →
  query req !! "end" = Some end_ → end_ ≠ "" →
  query req !! "limit" = Some (String "-" rest) →
  handle handleRange req s =
    (status_json 400 (ErrorPayload "Invalid limit: must be positive integer"), s).
Proof.
  intros Hs Hs' He He' Hl.
  apply (handleRange_bad_limit req s start end_); try done.
  rewrite Hl. unfold parse_limit, parseInt10.
  change (trim_start (String "-" rest)) with (String "-" rest). cbv beta iota.
  destruct (digits_prefix None rest) as [n|] eqn:Hn; [|done]. cbn [fmap option_fmap option_map].
  assert (0 ≤ n)%Z by (by apply (digits_prefix_nonnegative None rest)).
  destruct (Z.ltb_spec (- n) 1); [done|lia].
Qed.
End HandlerInvariants.

Lemma parseQueryString_keeps (pairs : list (string * string)) (query : gmap string string)
    (name : string) :
  name ∉ pairs.*1 →
  fold_left (fun query '(key, value) => set_property key value query) pairs query !! name
  = query !! name.
Proof.
  revert query. induction pairs as [|[k v] pairs IH]; intros query Hname; [done|].
  cbn [fold_left]. rewrite IH.
  - unfold set_property. destruct (String.eqb k "__proto__"); [done|].
    apply lookup_insert_ne. intros ->. apply Hname. by left.
  - intros Hin. apply Hname. by right.
Qed.

Lemma parseQueryString_no_proto (pairs : list (string * string))
    (query : gmap string string) :
  query !! "__proto__" = None →
  fold_left (fun query '(key, value) => set_property key value query) pairs query
    !! "__proto__" = None.
Proof.
  revert query. induction pairs as [|[k v] pairs IH]; intros query Hquery; [done|].
  cbn [fold_left]. apply IH. unfold set_property.
  destruct (String.eqb_spec k "__proto__") as [->|Hk]; [done|].
  by rewrite lookup_insert_ne.
Qed.

(** X7. [parseQueryString] keeps, for each name other than [__proto__], the
    value of its last occurrence among the pairs, and has no entry for a
    name that does not occur. The name [__proto__] never gets an entry:
    assigning a string to it creates no property. *)
Theorem parseQueryString_last_wins (before after : list (string * string))
    (name value : string) :
  name ≠ "__proto__" → name ∉ after.*1 →
  parseQueryString (before ++ (name, value) :: after) !! name = Some value
  ∧ (name ∉ before.*1 → parseQueryString (before ++ after) !! name = None)
  ∧ parseQueryString (before ++ ("__proto__", value) :: after) !! "__proto__" = None.
Proof.
  intros Hname Hafter. unfold parseQueryString. split_and!.
  - rewrite fold_left_app. cbn [fold_left]. rewrite parseQueryString_keeps by done.
    unfold set_property. destruct (String.eqb_spec name "__proto__") as [?|_]; [done|].
    apply lookup_insert_eq.
  - intros Hbefore. rewrite parseQueryString_keeps; [done|].
    rewrite fmap_app. intros [?|?]%elem_of_app; done.
  - by apply parseQueryString_no_proto.
Qed.


(* ================================================================== *)
(** * [ResponseHelper]: one answer per request                         *)
(* ================================================================== *)

Section ResponseHelperFacts.
Context {A : Type}.
Import ResponseHelper.

Lemma run_cons (c : Call A) (calls : list (Call A)) (this : t A) :
  run (c :: calls) this = run calls (call c this).
Proof. done. Qed.

Lemma run_app (calls calls' : list (Call A)) (this : t A) :
  run (calls ++ calls') this = run calls' (run calls this).
Proof. apply fold_left_app. Qed.

Lemma run_sent (calls : list (Call A)) (this : t A) :
  sent this = true →
  ended (res (run calls this)) = ended (res this)
  ∧ headers (res (run calls this)) = headers (res this)
  ∧ sent (run calls this) = true.
Proof.
  revert this. induction calls as [|c calls IH]; intros this Hsent; [done|].
  rewrite run_cons. destruct c as [code|data]; cbn [call].
  - by destruct (IH (status code this) Hsent) as (-> & -> & ->).
  - unfold json. rewrite Hsent. by apply IH.
Qed.

Lemma run_status_only (calls : list (Call A)) (this : t A) :
  Forall (fun c => is_json c = false) calls →
  ended (res (run calls this)) = ended (res this)
  ∧ headers (res (run calls this)) = headers (res this)
  ∧ sent (run calls this) = sent this
  ∧ statusCode (res (run calls this)) =
      match last calls with
      | Some (Status code) => code
      | _ => statusCode (res this)
      end.
Proof.
  intros Hcalls. revert this.
  induction Hcalls as [|c calls Hc Hcalls IH]; intros this; [done|].
  rewrite run_cons. destruct c as [code|data]; [|done]. cbn [call].
  destruct (IH (status code this)) as (-> & -> & -> & ->).
  split_and!; try done.
  destruct calls as [|c' calls]; [done|].
  change (last (Status code :: c' :: calls)) with (last (c' :: calls)).
  destruct (last (c' :: calls)) as [[|data]|] eqn:Hlast; [done| |by apply last_None in Hlast].
  apply last_Some in Hlast as [calls' Hlast].
  rewrite Hlast in Hcalls. by apply Forall_app in Hcalls as [_ [? _]%Forall_cons].
Qed.

(** X8. Whatever sequence of [status] and [json] calls a handler and the
    catch block make on one [ResponseHelper], the response is written once:
    by the first [json], with its data, the status code set last before it
    (200 if none was) and the JSON content type. Calls after it change
    nothing that was sent; without a [json] call nothing is sent. *)
Theorem first_json_is_the_answer (before after : list (Call A)) (data : A) :
  Forall (fun c => is_json c = false) before →
  (let this := run (before ++ Json data :: after) create in
   ended (res this) =
     Some (match last before with Some (Status code) => code | _ => 200%Z end, data)
   ∧ headers (res this) !! "Content-Type" = Some "application/json"
   ∧ sent this = true)
  ∧ ended (res (run before create)) = None.
Proof.
  intros Hbefore.
  destruct (run_status_only before create Hbefore) as (Hended & Hheaders & Hsent & Hstatus).
  split; [|done]. cbv zeta.
  rewrite run_app, run_cons. cbn [call]. unfold json at 1 2 3. rewrite Hsent.
  change (sent create) with false. cbv iota.
  destruct (run_sent after
    {| res := {| statusCode := statusCode (res (run before create));
                 headers := <["Content-Type" := "application/json"]>
                              (headers (res (run before create)));
                 ended := Some (statusCode (res (run before create)), data) |};
       sent := true |} eq_refl) as (-> & -> & ->).
  cbn [res ended headers]. rewrite Hstatus. split_and!; try done.
  apply lookup_insert_eq.
Qed.
End ResponseHelperFacts.

(* ================================================================== *)
(** * [parseBody]: the size limit and the chunks                       *)
(* ================================================================== *)

Lemma string_app_cons (c : ascii) (s t : string) : String c s +:+ t = String c (s +:+ t).
Proof. done. Qed.

Lemma string_app_length (s t : string) :
  String.length (s +:+ t) = (String.length s + String.length t)%nat.
Proof.
  induction s as [|c s IH]; [done|].
  rewrite string_app_cons. cbn [String.length]. by rewrite IH.
Qed.

Lemma string_app_assoc (s t u : string) : (s +:+ t) +:+ u = s +:+ (t +:+ u).
Proof. induction s as [|c s IH]; [done|]. rewrite !string_app_cons. by rewrite IH. Qed.

Lemma string_app_empty_r (s : string) : s +:+ "" = s.
Proof. induction s as [|c s IH]; [done|]. rewrite string_app_cons. by rewrite IH. Qed.

Lemma body_bytes_app (chunks chunks' : list string) :
  body_bytes (chunks ++ chunks') = (body_bytes chunks + body_bytes chunks')%N.
Proof.
  induction chunks as [|chunk chunks IH]; [done|].
  cbn [app body_bytes fold_right]. fold (body_bytes (chunks ++ chunks')).
  fold (body_bytes chunks). rewrite IH. lia.
Qed.

Lemma receive_total (incoming : list string) (size : N) (chunks : list string) :
  (size ≤ maxSize)%N →
  receive incoming size chunks =
    if (maxSize <? size + body_bytes incoming)%N then None else Some (chunks ++ incoming).
Proof.
  revert size chunks. induction incoming as [|chunk later IH]; intros size chunks Hsize.
  - cbn [receive body_bytes fold_right]. rewrite N.add_0_r, app_nil_r.
    by destruct (N.ltb_spec maxSize size); [lia|].
  - cbn [receive body_bytes fold_right]. fold (body_bytes later).
    destruct (N.ltb_spec maxSize (size + N.of_nat (String.length chunk))) as [Hover|Hfits].
    + destruct (N.ltb_spec maxSize (size + (N.of_nat (String.length chunk) + body_bytes later)));
        [done|lia].
    + rewrite IH by done. rewrite N.add_assoc. by rewrite <- app_assoc.
Qed.

Lemma body_bytes_concat (chunks : list string) :
  body_bytes chunks = N.of_nat (String.length (String.concat "" chunks)).
Proof.
  induction chunks as [|chunk chunks IH]; [done|].
  cbn [body_bytes fold_right]. fold (body_bytes chunks). rewrite IH.
  destruct chunks as [|chunk' chunks].
  - cbn. lia.
  - cbn [String.concat]. rewrite !string_app_length. cbn [String.length]. lia.
Qed.

Section ParseBodyFacts.
Context {number : Type} `{Runtime number}.

Local Abbreviation parseBody := (@Server.parseBody number _).

Lemma parseBody_total (req : IncomingMessage) :
  parseBody req =
    if (maxSize <? body_bytes (req_chunks req))%N then BodyRejected "Request body too large"
    else if req_failed req then BodyRejected "error"
    else match req_chunks req with
         | [] => BodyResolved (JObject [])
         | _ => match JSON_parse (String.concat "" (req_chunks req)) with
                | Some body => BodyResolved body
                | None => BodyRejected "Invalid JSON"
                end
         end.
Proof.
  unfold Server.parseBody. rewrite receive_total by done. rewrite N.add_0_l.
  by destruct (maxSize <? body_bytes (req_chunks req))%N.
Qed.

(** X9. [parseBody] rejects a body as too large exactly when its chunks add
    up to more than 10 MiB, however they are cut and whatever they hold; a
    body of exactly 10 MiB is read. *)
Theorem parseBody_too_large_iff (req : IncomingMessage) :
  parseBody req = BodyRejected "Request body too large"
  ↔ (10 * 1024 * 1024 < body_bytes (req_chunks req))%N.
Proof.
  rewrite parseBody_total. fold maxSize.
  destruct (N.ltb_spec maxSize (body_bytes (req_chunks req))) as [Hover|Hfits].
  - done.
  - split; [|lia]. intros Hrejected. exfalso.
    destruct (req_failed req); [done|].
    destruct (req_chunks req); [done|].
    by destruct (JSON_parse _).
Qed.

(** X10. What [parseBody] settles to depends on the text received, not on
    how it was cut into chunks: two requests that both received at least one
    chunk, with the same bytes in all, settle alike. (A request that received
    no chunk resolves to the empty object instead of parsing the empty
    text.) *)
Theorem parseBody_chunking (req req' : IncomingMessage) :
  req_chunks req ≠ [] → req_chunks req' ≠ [] →
  String.concat "" (req_chunks req) = String.concat "" (req_chunks req') →
  req_failed req = req_failed req' →
  parseBody req = parseBody req'.
Proof.
  intros Hchunks Hchunks' Htext Hfailed.
  rewrite !parseBody_total, !body_bytes_concat, Htext, Hfailed.
  destruct (req_chunks req); [done|]. by destruct (req_chunks req').
Qed.
End ParseBodyFacts.

(* ================================================================== *)
(** * Routing: what the patterns of [addRoute] match                   *)
(* ================================================================== *)

Lemma slash_free_app (s t : string) :
  slash_free (s +:+ t) = slash_free s && slash_free t.
Proof.
  induction s as [|c s IH]; [done|].
  rewrite string_app_cons. cbn [slash_free]. rewrite IH. by rewrite andb_assoc.
Qed.

Lemma is_segment_cons (c : ascii) (s : string) :
  c ≠ "/"%char → slash_free s = true → is_segment (String c s).
Proof.
  intros Hc Hs. split; [done|]. cbn [slash_free]. rewrite Hs.
  by destruct (Ascii.eqb_spec c "/").
Qed.

Lemma match_segment_sound (k : string → option (list string)) (captured s : string)
    (captures : list string) :
  match_segment k captured s = Some captures →
  ∃ seg rest later,
    s = seg +:+ rest ∧ is_segment seg ∧ k rest = Some later
    ∧ captures = (captured +:+ seg) :: later.
Proof.
  revert captured. induction s as [|c s IH]; intros captured; cbn [match_segment]; [done|].
  destruct (Ascii.eqb_spec c "/") as [|Hc]; [done|].
  destruct (match_segment k (captured +:+ String c "") s) as [longer|] eqn:Hlonger.
  - intros [= <-].
    apply IH in Hlonger as (seg & rest & later & -> & [Hne Hfree] & Hk & ->).
    exists (String c seg), rest, later. split_and!; try done.
    + by apply is_segment_cons.
    + by rewrite string_app_assoc.
  - destruct (k s) as [later|] eqn:Hk; [|done]. intros [= <-].
    exists (String c ""), s, later. split_and!; try done.
    by apply is_segment_cons.
Qed.

Lemma match_segment_some (k : string → option (list string)) (captured seg rest : string) :
  is_segment seg → is_Some (k rest) →
  is_Some (match_segment k captured (seg +:+ rest)).
Proof.
  intros [Hne Hfree] Hk. revert captured.
  induction seg as [|c seg IH]; intros captured; [done|].
  rewrite string_app_cons. cbn [match_segment].
  cbn [slash_free] in Hfree. apply andb_true_iff in Hfree as [Hc Hfree].
  destruct (Ascii.eqb c "/"); [done|].
  destruct (match_segment k (captured +:+ String c "") (seg +:+ rest)) as [longer|] eqn:Hlonger;
    [done|].
  destruct seg as [|c' seg].
  - destruct Hk as [later Hk]. change ("" +:+ rest) with rest. by rewrite Hk.
  - destruct (IH ltac:(done) Hfree (captured +:+ String c "")) as [? Hsome].
    by rewrite Hsome in Hlonger.
Qed.

(** When what follows the group is the end of the text or a slash, the
    group holds the whole segment: there is nothing to give back. *)
Lemma match_segment_whole (k : string → option (list string)) (captured seg rest : string)
    (later : list string) :
  is_segment seg → k rest = Some later →
  rest = "" ∨ (∃ rest', rest = String "/" rest') →
  match_segment k captured (seg +:+ rest) = Some ((captured +:+ seg) :: later).
Proof.
  intros [Hne Hfree] Hk Hrest. revert captured.
  induction seg as [|c seg IH]; intros captured; [done|].
  rewrite string_app_cons. cbn [match_segment].
  cbn [slash_free] in Hfree. apply andb_true_iff in Hfree as [Hc Hfree].
  destruct (Ascii.eqb c "/"); [done|].
  destruct seg as [|c' seg].
  - change ("" +:+ rest) with rest.
    assert (match_segment k (captured +:+ String c "") rest = None) as ->.
    { by destruct Hrest as [->|[rest' ->]]. }
    by rewrite Hk.
  - rewrite (IH ltac:(done) Hfree). by rewrite string_app_assoc.
Qed.

Lemma match_pattern_sound (items : list PatternItem) (s : string) (captures : list string) :
  match_pattern items s = Some captures →
  s = fill items captures ∧ Forall is_segment captures
  ∧ length captures = count_segments items.
Proof.
  revert s captures. induction items as [|[c|] items IH]; intros s captures.
  - destruct s; [|done]. by intros [= <-].
  - cbn [match_pattern]. destruct s as [|c' s]; [done|].
    destruct (Ascii.eqb_spec c c') as [<-|]; [|done].
    intros (-> & ? & ?)%IH. done.
  - cbn [match_pattern].
    intros (seg & rest & later & -> & Hseg & (-> & ? & ?)%IH & ->)%match_segment_sound.
    split_and!.
    + done.
    + by constructor.
    + cbn. by f_equal.
Qed.

Lemma match_pattern_some (items : list PatternItem) (captures : list string) :
  Forall is_segment captures → length captures = count_segments items →
  is_Some (match_pattern items (fill items captures)).
Proof.
  revert captures. induction items as [|[c|] items IH]; intros captures Hsegs Hlen.
  - done.
  - cbn [match_pattern fill]. rewrite Ascii.eqb_refl. by apply IH.
  - destruct Hsegs as [|seg later Hseg Hlater]; [done|].
    cbn [match_pattern fill]. apply match_segment_some; [done|].
    apply IH; [done|]. cbn in Hlen. by injection Hlen.
Qed.

Lemma fill_separated (items : list PatternItem) (captures : list string) :
  well_separated (Segment :: items) = true →
  fill items captures = "" ∨ ∃ rest', fill items captures = String "/" rest'.
Proof.
  cbn [well_separated]. destruct items as [|[c|] items]; [by left| |done].
  intros [->%Ascii.eqb_eq _]%andb_true_iff. right. by eexists.
Qed.

Lemma well_separated_tail (item : PatternItem) (items : list PatternItem) :
  well_separated (item :: items) = true → well_separated items = true.
Proof.
  destruct item as [c|]; [done|]. cbn [well_separated].
  destruct items as [|[c|] items]; [done| |done].
  by intros [_ ?]%andb_true_iff.
Qed.

Lemma match_pattern_fill (items : list PatternItem) (captures : list string) :
  well_separated items = true →
  Forall is_segment captures → length captures = count_segments items →
  match_pattern items (fill items captures) = Some captures.
Proof.
  revert captures. induction items as [|[c|] items IH]; intros captures Hsep Hsegs Hlen.
  - by destruct captures.
  - cbn [match_pattern fill]. rewrite Ascii.eqb_refl. by apply IH.
  - destruct Hsegs as [|seg later Hseg Hlater]; [done|].
    cbn [match_pattern fill].
    rewrite (match_segment_whole _ "" seg (fill items later) later); try done.
    + apply IH; [by eapply well_separated_tail|done|]. cbn in Hlen. by injection Hlen.
    + by apply fill_separated.
Qed.

Lemma match_pattern_is_Some (items : list PatternItem) (s : string) :
  is_Some (match_pattern items s)
  ↔ ∃ captures, Forall is_segment captures ∧ length captures = count_segments items
                ∧ s = fill items captures.
Proof.
  split.
  - intros [captures (? & ? & ?)%match_pattern_sound]. by exists captures.
  - intros (captures & ? & ? & ->). by apply match_pattern_some.
Qed.

(** X11. A path matches a route pattern exactly when it is the pattern with
    each [:name] replaced by some non-empty text without a slash. *)
Theorem match_pattern_matches (items : list PatternItem) (s : string) :
  is_Some (match_pattern items s)
  ↔ ∃ captures, Forall is_segment captures ∧ length captures = count_segments items
                ∧ s = fill items captures.
Proof. apply match_pattern_is_Some. Qed.

(** X12. The captures of a match rebuild the path: filling them into the
    pattern gives the path back, there is one per [:name], and each is
    non-empty and free of slashes. *)
Theorem match_pattern_captures (items : list PatternItem) (s : string)
    (captures : list string) :
  match_pattern items s = Some captures →
  fill items captures = s ∧ Forall is_segment captures
  ∧ length captures = count_segments items.
Proof. intros (-> & ? & ?)%match_pattern_sound. done. Qed.

(** X13. When every [:name] of a route is a whole path segment (followed by
    a slash or by the end), matching inverts filling: the path built from
    given segments matches with exactly those segments as captures. *)
Theorem match_pattern_round_trip (items : list PatternItem) (captures : list string) :
  well_separated items = true →
  Forall is_segment captures → length captures = count_segments items →
  match_pattern items (fill items captures) = Some captures.
Proof. apply match_pattern_fill. Qed.

Lemma count_segments_app (items items' : list PatternItem) :
  count_segments (items ++ items') = (count_segments items + count_segments items')%nat.
Proof. induction items as [|[c|] items IH]; cbn; lia. Qed.

Lemma close_name_count (name : option string) :
  count_segments (close_name name).1 = length (close_name name).2.
Proof. by destruct name as [[|]|]. Qed.

Lemma replace_params_count (path : string) (name : option string) :
  count_segments (replace_params path name).1 = length (replace_params path name).2.
Proof.
  revert name. induction path as [|c rest IH]; intros name; cbn [replace_params].
  - apply close_name_count.
  - destruct name as [n|].
    + destruct (is_word_char c); [apply IH|].
      pose proof (close_name_count (Some n)) as Hclose.
      destruct (close_name (Some n)) as [items names].
      destruct (Ascii.eqb c ":").
      * pose proof (IH (Some "")) as Hrest.
        destruct (replace_params rest (Some "")) as [items' names'].
        cbn in *. rewrite count_segments_app, length_app. lia.
      * pose proof (IH None) as Hrest.
        destruct (replace_params rest None) as [items' names'].
        cbn in *. rewrite count_segments_app, length_app. cbn. lia.
    + destruct (Ascii.eqb c ":"); [apply IH|].
      pose proof (IH None) as Hrest. by destruct (replace_params rest None).
Qed.

(** X14. A route pushed by [addRoute] has one parameter name per group of
    its pattern, so whenever the pattern matches, [findRoute] finds a
    capture for every name it binds. *)
Theorem addRoute_names_captures (method path : string) (h : RouteHandler)
    (routes routes' : list Route) :
  addRoute method path h routes = Some routes' →
  ∃ route,
    routes' = routes ++ [route] ∧ route_method route = method ∧ handler route = h
    ∧ ∀ s captures, match_pattern (pattern route) s = Some captures →
                    length captures = length (paramNames route).
Proof.
  unfold addRoute. pose proof (replace_params_count path None) as Hcount.
  destruct (replace_params path None) as [items names].
  destruct (plain_pattern items); [|done]. intros [= <-].
  eexists. split_and!; try done. cbn [pattern paramNames].
  intros s captures (_ & _ & ->)%match_pattern_sound. done.
Qed.

Section FindRouteFacts.
Context {number : Type} `{Runtime number}.

Local Abbreviation findRoute := (@Server.findRoute number _).
Local Abbreviation bind_params := (@Server.bind_params number _).

(** The route answers to the method and its pattern matches the path. *)
Local Abbreviation serves route method path :=
  (route_method route = method ∧ is_Some (match_pattern (pattern route) path)).

Lemma findRoute_cons (route : Route) (later : list Route) (method path : string) :
  findRoute (route :: later) method path =
    if negb (String.eqb (route_method route) method) then findRoute later method path
    else match match_pattern (pattern route) path with
         | Some captures =>
             match bind_params (paramNames route) captures ∅ with
             | Some params => RouteFound route params
             | None => DecodeFailed
             end
         | None => findRoute later method path
         end.
Proof. done. Qed.

Lemma findRoute_skip (route : Route) (later : list Route) (method path : string) :
  ¬ serves route method path →
  findRoute (route :: later) method path = findRoute later method path.
Proof.
  intros Hno. rewrite findRoute_cons.
  destruct (String.eqb_spec (route_method route) method) as [Hmethod|]; [|done].
  cbn [negb]. destruct (match_pattern (pattern route) path) eqn:Hmatch; [|done].
  destruct Hno. by split.
Qed.

(** X15. [findRoute] answers with the first route, in the order of
    registration, whose method is the request's and whose pattern matches
    the path; its parameters are the decoded captures, and a capture that
    does not decode fails the lookup even if a later route would match. *)
Theorem findRoute_first_match (before after : list Route) (route : Route)
    (method path : string) (captures : list string) :
  Forall (fun earlier => ¬ serves earlier method path) before →
  route_method route = method →
  match_pattern (pattern route) path = Some captures →
  findRoute (before ++ route :: after) method path =
    match bind_params (paramNames route) captures ∅ with
    | Some params => RouteFound route params
    | None => DecodeFailed
    end.
Proof.
  intros Hbefore Hmethod Hmatch.
  induction Hbefore as [|earlier before Hno _ IH].
  - cbn [app]. rewrite findRoute_cons, Hmatch.
    by destruct (String.eqb_spec (route_method route) method).
  - cbn [app]. by rewrite findRoute_skip.
Qed.
End FindRouteFacts.

(* ================================================================== *)
(** * The routes of the server                                         *)
(* ================================================================== *)

Lemma routes_registered :
  routes =
    [ {| route_method := "GET"; pattern := literals "/health";
         paramNames := []; handler := HandleHealth |};
      {| route_method := "POST"; pattern := literals "/put";
         paramNames := []; handler := HandlePut |};
      {| route_method := "POST"; pattern := literals "/batch-put";
         paramNames := []; handler := HandleBatchPut |};
      {| route_method := "GET"; pattern := literals "/get/" ++ [Segment];
         paramNames := ["key"]; handler := HandleGet |};
      {| route_method := "DELETE"; pattern := literals "/delete/" ++ [Segment];
         paramNames := ["key"]; handler := HandleDelete |};
      {| route_method := "GET"; pattern := literals "/range";
         paramNames := []; handler := HandleRange |};
      {| route_method := "GET"; pattern := literals "/replication/status";
         paramNames := []; handler := HandleReplicationStatus |} ].
Proof. reflexivity. Qed.

Lemma fill_literals (s : string) (items : list PatternItem) (captures : list string) :
  fill (literals s ++ items) captures = s +:+ fill items captures.
Proof. induction s as [|c s IH]; [done|]. cbn [literals app fill]. by rewrite IH. Qed.

Lemma count_segments_literals (s : string) (items : list PatternItem) :
  count_segments (literals s ++ items) = count_segments items.
Proof. induction s as [|c s IH]; [done|]. by cbn [literals app count_segments]. Qed.

Lemma match_pattern_literals (s : string) (items : list PatternItem) (rest : string) :
  match_pattern (literals s ++ items) (s +:+ rest) = match_pattern items rest.
Proof.
  induction s as [|c s IH]; [done|].
  rewrite string_app_cons. cbn [literals app match_pattern]. by rewrite Ascii.eqb_refl.
Qed.

Lemma literal_route_matches (s path : string) :
  is_Some (match_pattern (literals s) path) ↔ path = s.
Proof.
  rewrite match_pattern_is_Some. rewrite <- (app_nil_r (literals s)).
  setoid_rewrite count_segments_literals. setoid_rewrite fill_literals.
  cbn [count_segments fill]. rewrite string_app_empty_r. split.
  - by intros (captures & _ & _ & ->).
  - intros ->. by exists [].
Qed.

Lemma key_route_matches (s path : string) :
  is_Some (match_pattern (literals s ++ [Segment]) path)
  ↔ ∃ key, is_segment key ∧ path = s +:+ key.
Proof.
  rewrite match_pattern_is_Some.
  setoid_rewrite count_segments_literals. setoid_rewrite fill_literals. split.
  - intros ([|key [|? ?]] & Hsegs & Hlen & ->); try done.
    exists key. cbn [fill]. rewrite string_app_empty_r.
    by apply Forall_cons in Hsegs as [? _].
  - intros (key & Hkey & ->). exists [key]. split_and!; [by apply Forall_singleton|done|].
    cbn [fill]. by rewrite string_app_empty_r.
Qed.

Lemma key_route_match (s key : string) :
  is_segment key →
  match_pattern (literals s ++ [Segment]) (s +:+ key) = Some [key].
Proof.
  intros Hkey. rewrite match_pattern_literals.
  rewrite <- (string_app_empty_r key) at 1.
  apply (match_pattern_fill [Segment] [key]); [done|by apply Forall_singleton|done].
Qed.

Section RoutesFacts.
Context {number : Type} `{Runtime number}.

Local Abbreviation findRoute := (@Server.findRoute number _).
Local Abbreviation serves route method path :=
  (route_method route = method ∧ is_Some (match_pattern (pattern route) path)).

Lemma findRoute_routed (table : list Route) (method path : string) :
  findRoute table method path ≠ NoRoute
  ↔ Exists (fun route => serves route method path) table.
Proof.
  induction table as [|route later IH].
  - split; [done|]. by intros ?%Exists_nil.
  - rewrite findRoute_cons, Exists_cons.
    destruct (String.eqb_spec (route_method route) method) as [Hmethod|Hmethod]; cbn [negb].
    + destruct (match_pattern (pattern route) path) as [captures|] eqn:Hmatch.
      * split; [by left|]. by destruct (Server.bind_params _ _ _).
      * rewrite IH. split; [by right|]. intros [[_ [? ?]]|?]; [congruence|done].
    + rewrite IH. split; [by right|]. by intros [[? _]|?].
Qed.

Lemma routes_serve (method path : string) :
  Exists (fun route => serves route method path) routes ↔ routed method path.
Proof.
  rewrite routes_registered. rewrite !Exists_cons, Exists_nil. cbn [route_method pattern].
  rewrite !literal_route_matches, !key_route_matches. unfold routed.
  split.
  - intros [[Hm Hp]|[[Hm Hp]|[[Hm Hp]|[[Hm Hp]|[[Hm Hp]|[[Hm Hp]|[[Hm Hp]|[]]]]]]]];
      symmetry in Hm; tauto.
  - intros [[Hm [Hp|[Hp|[Hp|Hp]]]]|[[Hm [Hp|Hp]]|[Hm Hp]]]; symmetry in Hm; tauto.
Qed.

Lemma routed_iff (method path : string) :
  findRoute routes method path ≠ NoRoute ↔ routed method path.
Proof. rewrite findRoute_routed. apply routes_serve. Qed.

(** X17. No request is served by two of the registered routes, so the
    order in which [registerRoutes] adds them has no bearing on the route
    found. *)
Theorem routes_unambiguous (route route' : Route) (method path : string) :
  route ∈ routes → route' ∈ routes →
  serves route method path → serves route' method path →
  route = route'.
Proof.
  rewrite routes_registered. intros Hroute Hroute'.
  repeat (apply elem_of_cons in Hroute as [->|Hroute]);
    [..|by apply elem_of_nil in Hroute];
    (repeat (apply elem_of_cons in Hroute' as [->|Hroute']);
     [..|by apply elem_of_nil in Hroute']);
    cbn [route_method pattern];
    rewrite ?literal_route_matches, ?key_route_matches;
    try done;
    intros [Hm Hp] [Hm' Hp']; try congruence;
    repeat match goal with
           | Hk : ∃ key, _ |- _ => destruct Hk as (? & _ & Hk)
           end;
    subst; discriminate.
Qed.
End RoutesFacts.

(* ================================================================== *)
(** * [handleRequest], from the URL to the reply                       *)
(* ================================================================== *)

Section BatchStatuses.
Context {number : Type} `{JsNumber number}.
Context {St Me : Type}.

Lemma parse_keys_values_bad_request (i : nat) (keys values : list (Json number))
    (bad_request : Response St Me) :
  parse_keys_values i keys values = Ok (inl bad_request) → statusCode bad_request = 400%Z.
Proof.
  revert i values. induction keys as [|key keys IH]; intros i [|value values];
    cbn [parse_keys_values]; try done.
  destruct (as_nonempty_string (FromJson key)) as [k|]; [|by intros [= <-]].
  destruct (nullish (FromJson value)); [by intros [= <-]|].
  destruct (js_String (FromJson value)) as [text|err]; [|done].
  destruct (parse_keys_values (Datatypes.S i) keys values) as [[bad|parsed]|err] eqn:Hrest;
    [|done|done].
  intros [= <-]. by eapply IH.
Qed.

Lemma parse_batch_bad_request (entries keys values : JsValue number)
    (bad_request : Response St Me) :
  parse_batch entries keys values = Ok (inl bad_request) → statusCode bad_request = 400%Z.
Proof.
  unfold parse_batch. destruct (as_array entries) as [es|]; [apply parse_entries_bad_request|].
  destruct (as_array keys) as [ks|]; [|by intros [= <-]].
  destruct (as_array values) as [vs|]; [|by intros [= <-]].
  destruct (negb _); [by intros [= <-]|].
  apply parse_keys_values_bad_request.
Qed.
End BatchStatuses.

Section ServerFacts.
Context {number : Type} `{JsNumber number} `{Runtime number}.
Context {S : Type} {engine : IStorageEngine S}.
Context {St Me : Type}.
Context {P : Type} `{IReplicationStatusProvider P St Me}.

Local Abbreviation findRoute := (@Server.findRoute number _).
Local Abbreviation parseBody := (@Server.parseBody number _).
Local Abbreviation answer := (@Server.handleRequest number _ _ S engine St Me P _).
Local Abbreviation handle := (@handleRequest number S St Me).

(** [new URL(req.url || '/', ...)] and [req.method || 'GET']. *)
Local Abbreviation url req :=
  (URL_parse (Server.or_else (req_url req) "/")
             ("http://" +:+ Server.or_else (req_host req) "localhost")).
Local Abbreviation method_of req := (Server.or_else (req_method req) "GET").

Local Abbreviation internal_error :=
  (@Replied St Me (status_json 500 (ErrorPayload "Internal server error"))).

(** The reply to a handler-level run, as [handleRequest] passes it on. *)
Local Abbreviation replied run := (@Replied St Me (fst run), snd run).

Implicit Types (req : IncomingMessage) (s : S) (now : Z) (provider : option P).

Lemma call_replied (h : RouteHandler) now provider (parsed : ParsedRequest number) s :
  h ≠ HandleHealth →
  match Server.call h now provider parsed s with
  | (Ok reply, s') => (reply, s')
  | (Throw _, s') => (internal_error, s')
  end =
  replied (handle match h with
                  | HandlePut => handlePut
                  | HandleBatchPut => handleBatchPut
                  | HandleGet => handleGet
                  | HandleDelete => handleDelete
                  | HandleRange => handleRange
                  | _ => handleReplicationStatus provider
                  end parsed s).
Proof.
  intros Hh. unfold handleRequest, Server.call, await, resolve.
  destruct h; try done.
  - by destruct (handlePut parsed s) as [[response|err] s'].
  - by destruct (handleBatchPut parsed s) as [[response|err] s'].
  - by destruct (handleGet parsed s) as [[response|err] s'].
  - by destruct (handleDelete parsed s) as [[response|err] s'].
  - by destruct (handleRange parsed s) as [[response|err] s'].
  - by destruct (handleReplicationStatus provider parsed s) as [[response|err] s'].
Qed.

Lemma findRoute_get (seg : string) :
  is_segment seg →
  findRoute routes "GET" ("/get/" +:+ seg) =
    match decodeURIComponent seg with
    | Some key =>
        RouteFound {| route_method := "GET"; pattern := literals "/get/" ++ [Segment];
                      paramNames := ["key"]; handler := HandleGet |} {[ "key" := key ]}
    | None => DecodeFailed
    end.
Proof.
  intros Hseg. rewrite routes_registered.
  do 3 (rewrite findRoute_skip by (cbn [route_method pattern]; rewrite ?literal_route_matches; by intros [? ?])).
  rewrite findRoute_cons. cbn [route_method pattern paramNames].
  rewrite String.eqb_refl. cbn [negb]. rewrite key_route_match by done.
  cbn [Server.bind_params].
  destruct (decodeURIComponent seg) as [key|]; [|done].
  unfold set_property. cbn [String.eqb Ascii.eqb Bool.eqb]. by rewrite insert_empty.
Qed.

Lemma findRoute_delete (seg : string) :
  is_segment seg →
  findRoute routes "DELETE" ("/delete/" +:+ seg) =
    match decodeURIComponent seg with
    | Some key =>
        RouteFound {| route_method := "DELETE"; pattern := literals "/delete/" ++ [Segment];
                      paramNames := ["key"]; handler := HandleDelete |} {[ "key" := key ]}
    | None => DecodeFailed
    end.
Proof.
  intros Hseg. rewrite routes_registered.
  do 4 (rewrite findRoute_skip by (cbn [route_method pattern]; by intros [? ?])).
  rewrite findRoute_cons. cbn [route_method pattern paramNames].
  rewrite String.eqb_refl. cbn [negb]. rewrite key_route_match by done.
  cbn [Server.bind_params].
  destruct (decodeURIComponent seg) as [key|]; [|done].
  unfold set_property. cbn [String.eqb Ascii.eqb Bool.eqb]. by rewrite insert_empty.
Qed.

(** X18. GET /get/<segment>: the key is the decoded segment, the body of
    the request is not read, and the reply is that of [handleGet] on the
    parsed request; a segment that does not decode is answered 500 without
    the engine being called. *)
Theorem handleRequest_get now provider req s (seg search : string) :
  url req = Some ("/get/" +:+ seg, search) → method_of req = "GET" → is_segment seg →
  answer now provider req s =
    match decodeURIComponent seg with
    | None => (internal_error, s)
    | Some key =>
        replied (handle handleGet
                        {| method := "GET"; path := "/get/" +:+ seg;
                           params := {[ "key" := key ]};
                           query := Server.parseQueryString search;
                           body := JObject [] |} s)
    end.
Proof.
  intros Hurl Hmethod Hseg. unfold Server.handleRequest.
  rewrite Hurl, Hmethod, (findRoute_get seg Hseg).
  destruct (decodeURIComponent seg) as [key|]; [|done].
  cbn [String.eqb orb handler]. by apply call_replied.
Qed.

(** X19. DELETE /delete/<segment>: the reply is that of [handleDelete] on
    the request whose key is the decoded segment and whose body is the empty
    object; a segment that does not decode is answered 500 without the
    engine being called. *)
Theorem handleRequest_delete now provider req s (seg search : string) :
  url req = Some ("/delete/" +:+ seg, search) → method_of req = "DELETE" → is_segment seg →
  answer now provider req s =
    match decodeURIComponent seg with
    | None => (internal_error, s)
    | Some key =>
        replied (handle handleDelete
                        {| method := "DELETE"; path := "/delete/" +:+ seg;
                           params := {[ "key" := key ]};
                           query := Server.parseQueryString search;
                           body := JObject [] |} s)
    end.
Proof.
  intros Hurl Hmethod Hseg. unfold Server.handleRequest.
  rewrite Hurl, Hmethod, (findRoute_delete seg Hseg).
  destruct (decodeURIComponent seg) as [key|]; [|done].
  cbn [String.eqb orb handler]. by apply call_replied.
Qed.
Lemma findRoute_fixed :
  findRoute routes "GET" "/health" =
    RouteFound {| route_method := "GET"; pattern := literals "/health";
                  paramNames := []; handler := HandleHealth |} ∅
  ∧ findRoute routes "POST" "/put" =
      RouteFound {| route_method := "POST"; pattern := literals "/put";
                    paramNames := []; handler := HandlePut |} ∅
  ∧ findRoute routes "POST" "/batch-put" =
      RouteFound {| route_method := "POST"; pattern := literals "/batch-put";
                    paramNames := []; handler := HandleBatchPut |} ∅
  ∧ findRoute routes "GET" "/range" =
      RouteFound {| route_method := "GET"; pattern := literals "/range";
                    paramNames := []; handler := HandleRange |} ∅
  ∧ findRoute routes "GET" "/replication/status" =
      RouteFound {| route_method := "GET"; pattern := literals "/replication/status";
                    paramNames := []; handler := HandleReplicationStatus |} ∅.
Proof. by split_and!. Qed.

(** X16. What [findRoute] answers on a constructed server. It returns
    [null] exactly for the requests outside the seven registered routes: the
    method is compared as it is written, and a path with a trailing slash,
    an empty key or a key holding a slash has no route. For GET /get/<key>
    and DELETE /delete/<key> it finds the route and binds [key] to the
    decoded segment, or throws when the segment does not decode. For the
    five routes without a parameter it finds the route, with no
    parameters. *)
Theorem routed_requests (method path : string) :
  (findRoute routes method path = NoRoute ↔ ¬ routed method path)
  ∧ (∀ key, is_segment key →
       (method = "GET" ∧ path = "/get/" +:+ key)
       ∨ (method = "DELETE" ∧ path = "/delete/" +:+ key) →
       match decodeURIComponent key with
       | Some decoded =>
           ∃ route, findRoute routes method path = RouteFound route {[ "key" := decoded ]}
                    ∧ route ∈ routes ∧ route_method route = method
                    ∧ is_Some (match_pattern (pattern route) path)
       | None => findRoute routes method path = DecodeFailed
       end)
  ∧ ((method = "GET"
      ∧ (path = "/health" ∨ path = "/range" ∨ path = "/replication/status"))
     ∨ (method = "POST" ∧ (path = "/put" ∨ path = "/batch-put")) →
     ∃ route, findRoute routes method path = RouteFound route ∅
              ∧ route ∈ routes ∧ route_method route = method
              ∧ is_Some (match_pattern (pattern route) path)).
Proof.
  split_and!.
  - pose proof (routed_iff (H:=H0) method path) as Hrouted. split.
    + intros Hnone Hyes. by apply Hrouted in Hyes.
    + intros Hno. destruct (findRoute routes method path) as [route params| |] eqn:Hfound;
        [|done|]; destruct Hno; by apply Hrouted.
  - intros key Hkey [[Hm Hp]|[Hm Hp]]; subst method path.
    + rewrite (findRoute_get key Hkey).
      destruct (decodeURIComponent key) as [decoded|]; [|done].
      eexists. split; [done|]. split_and!.
      * rewrite routes_registered. do 3 right. left.
      * done.
      * cbn [pattern]. apply key_route_matches. by exists key.
    + rewrite (findRoute_delete key Hkey).
      destruct (decodeURIComponent key) as [decoded|]; [|done].
      eexists. split; [done|]. split_and!.
      * rewrite routes_registered. do 4 right. left.
      * done.
      * cbn [pattern]. apply key_route_matches. by exists key.
  - destruct findRoute_fixed as (Hhealth & Hput & Hbatch & Hrange & Hstatus).
    intros [[Hm [Hp|[Hp|Hp]]]|[Hm [Hp|Hp]]]; subst method path; eexists; (split; [eassumption|]);
      (split_and!; [rewrite routes_registered|done|by apply literal_route_matches]).
    + left.
    + do 5 right. left.
    + do 6 right. left.
    + do 1 right. left.
    + do 2 right. left.
Qed.

(** X20. POST /put: the body is what [parseBody] resolves to; when the
    body is rejected (too large, not JSON, a failed stream) the reply is 500
    and the engine is not called. *)
Theorem handleRequest_put now provider req s (search : string) :
  url req = Some ("/put", search) → method_of req = "POST" →
  answer now provider req s =
    match parseBody req with
    | BodyRejected _ => (internal_error, s)
    | BodyResolved body =>
        replied (handle handlePut
                        {| method := "POST"; path := "/put"; params := ∅;
                           query := Server.parseQueryString search; body := body |} s)
    end.
Proof.
  intros Hurl Hmethod. unfold Server.handleRequest.
  rewrite Hurl, Hmethod. rewrite (proj1 (proj2 findRoute_fixed)).
  cbn [String.eqb Ascii.eqb Bool.eqb orb handler].
  destruct (parseBody req) as [body|message]; [|done]. by apply call_replied.
Qed.

(** X21. POST /batch-put: the reply is that of [handleBatchPut] on the
    body [parseBody] resolves to; when the body is rejected the reply is 500
    and the engine is not called. *)
Theorem handleRequest_batch_put now provider req s (search : string) :
  url req = Some ("/batch-put", search) → method_of req = "POST" →
  answer now provider req s =
    match parseBody req with
    | BodyRejected _ => (internal_error, s)
    | BodyResolved body =>
        replied (handle handleBatchPut
                        {| method := "POST"; path := "/batch-put"; params := ∅;
                           query := Server.parseQueryString search; body := body |} s)
    end.
Proof.
  intros Hurl Hmethod. unfold Server.handleRequest.
  rewrite Hurl, Hmethod. rewrite (proj1 (proj2 (proj2 findRoute_fixed))).
  cbn [String.eqb Ascii.eqb Bool.eqb orb handler].
  destruct (parseBody req) as [body|message]; [|done]. by apply call_replied.
Qed.

(** X22. GET /range: the query of the parsed request is the search part of
    the URL as [parseQueryString] reads it (empty when there is none), and
    the reply is that of [handleRange]. *)
Theorem handleRequest_range now provider req s (search : string) :
  url req = Some ("/range", search) → method_of req = "GET" →
  answer now provider req s =
    replied (handle handleRange
                    {| method := "GET"; path := "/range"; params := ∅;
                       query := if String.eqb search "" then ∅
                                else parseQueryString (URLSearchParams search);
                       body := JObject [] |} s).
Proof.
  intros Hurl Hmethod. unfold Server.handleRequest.
  rewrite Hurl, Hmethod. rewrite (proj1 (proj2 (proj2 (proj2 findRoute_fixed)))).
  cbn [String.eqb Ascii.eqb Bool.eqb orb handler]. by apply call_replied.
Qed.

(** X23. GET /health and GET /replication/status never touch the engine:
    the first replies with the time it read, the second with the provider's
    status or the standalone message, whatever the query and the body. *)
Theorem handleRequest_status_routes now provider req s (pathname search : string) :
  url req = Some (pathname, search) → method_of req = "GET" →
  (pathname = "/health" → answer now provider req s = (Healthy now, s))
  ∧ (pathname = "/replication/status" →
       answer now provider req s =
         (Replied (json match provider with
                        | None => StandalonePayload "Replication not configured (standalone mode)"
                        | Some p => ReplicationPayload (state (getReplicationStatus p))
                                                       (metrics (getReplicationStatus p))
                        end), s)).
Proof.
  intros Hurl Hmethod. unfold Server.handleRequest. rewrite Hurl, Hmethod.
  split; intros ->.
  - by rewrite (proj1 findRoute_fixed).
  - rewrite (proj2 (proj2 (proj2 (proj2 findRoute_fixed)))).
    cbn [String.eqb Ascii.eqb Bool.eqb orb handler].
    unfold Server.call, handleReplicationStatus, await, resolve.
    by destruct provider.
Qed.

Lemma handler_statuses (h : RouteHandler) now provider (parsed : ParsedRequest number) s :
  let reply :=
    match Server.call h now provider parsed s with
    | (Ok reply, _) => reply
    | (Throw _, _) => internal_error
    end in
  (reply_status reply = 200 ∨ reply_status reply = 400 ∨ reply_status reply = 500
   ∨ (h = HandleGet ∧ ∃ key, reply = Replied (status_json 404 (KeyNotFoundPayload "Key not found" key))))%Z.
Proof.
  cbv zeta. unfold Server.call, Server.handleHealth, await, resolve. destruct h.
  - by left.
  - unfold handlePut, await, settled.
    destruct (get_property (body parsed) "key") as [key|]; [|tauto].
    destruct (get_property (body parsed) "value") as [value|]; [|tauto].
    destruct (as_nonempty_string key) as [k|]; [|tauto].
    destruct (nullish value); [tauto|].
    destruct (js_String value) as [text|err]; [|tauto].
    destruct (put k text s) as [[[]|err] s']; tauto.
  - unfold handleBatchPut, await, settled.
    destruct (get_property (body parsed) "entries") as [entries|]; [|tauto].
    destruct (get_property (body parsed) "keys") as [keys|]; [|tauto].
    destruct (get_property (body parsed) "values") as [values|]; [|tauto].
    destruct (parse_batch entries keys values) as [[bad|[|pair entries']]|err] eqn:Hbatch;
      [|tauto| |tauto].
    + apply parse_batch_bad_request in Hbatch. cbn [reply_status]. tauto.
    + cbn [length Nat.eqb].
      destruct (batchPut (pair :: entries') s) as [[count|err] s']; tauto.
  - unfold handleGet, await.
    destruct (truthy_param (params parsed !! "key")) as [key|]; [|tauto].
    destruct (get key s) as [[[value|]|err] s']; [tauto| |tauto].
    do 3 right. split; [done|]. by exists key.
  - unfold handleDelete, await.
    destruct (truthy_param (params parsed !! "key")) as [key|]; [|tauto].
    destruct (delete key s) as [[[]|err] s']; tauto.
  - unfold handleRange, await.
    destruct (truthy_param (query parsed !! "start")) as [start|]; [|tauto].
    destruct (truthy_param (query parsed !! "end")) as [end_|]; [|tauto].
    destruct (parse_limit (query parsed !! "limit")) as [parsedLimit|]; [|tauto].
    destruct (readKeyRange start end_ (Some parsedLimit) s) as [[results|err] s']; tauto.
  - unfold handleReplicationStatus, resolve. destruct provider; tauto.
Qed.

Lemma answer_cases now provider req s :
  (answer now provider req s).1 = internal_error
  ∨ (∃ pathname search,
       url req = Some (pathname, search)
       ∧ ((findRoute routes (method_of req) pathname = NoRoute
           ∧ answer now provider req s =
               (Replied (status_json 404 (ErrorPayload "Not found")), s))
          ∨ (∃ route params parsed,
               findRoute routes (method_of req) pathname = RouteFound route params
               ∧ (answer now provider req s).1 =
                   match Server.call (handler route) now provider parsed s with
                   | (Ok reply, _) => reply
                   | (Throw _, _) => internal_error
                   end))).
Proof.
  unfold Server.handleRequest.
  destruct (url req) as [[pathname search]|]; [|by left].
  destruct (findRoute routes (method_of req) pathname) as [route params| |] eqn:Hfound;
    [| |by left].
  - destruct (if _ : bool then parseBody req else BodyResolved (JObject [])) as [body|message];
      [|by left].
    right. exists pathname, search. split; [done|]. right.
    match goal with
    | |- context [Server.call _ _ _ ?parsed _] => exists route, params, parsed
    end.
    split; [done|]. by destruct (Server.call _ _ _ _ _) as [[reply|err] s'].
  - right. exists pathname, search. split; [done|]. by left.
Qed.

(** X24. Every request is answered with 200, 400, 404 or 500, whatever the
    engine, the runtime and the request are. *)
Theorem handleRequest_statuses now provider req s :
  (reply_status (answer now provider req s).1 = 200
   ∨ reply_status (answer now provider req s).1 = 400
   ∨ reply_status (answer now provider req s).1 = 404
   ∨ reply_status (answer now provider req s).1 = 500)%Z.
Proof.
  destruct (answer_cases now provider req s)
    as [->|(pathname & search & _ & [[_ ->]|(route & params & parsed & _ & ->)])].
  - tauto.
  - tauto.
  - destruct (handler_statuses (handler route) now provider parsed s)
      as [?|[?|[?|[_ [key ->]]]]]; tauto.
Qed.

(** X25. The reply [404 {error: 'Not found'}] is given exactly to the
    requests without a route, and leaves the engine as it was; no handler
    answers with it (a missing key is the 404 of [handleGet], which names
    the key). *)
Theorem handleRequest_not_found now provider req s (pathname search : string) :
  url req = Some (pathname, search) →
  ((answer now provider req s).1 = Replied (status_json 404 (ErrorPayload "Not found"))
   ↔ ¬ routed (method_of req) pathname)
  ∧ (¬ routed (method_of req) pathname →
     answer now provider req s = (Replied (status_json 404 (ErrorPayload "Not found")), s)).
Proof.
  intros Hurl.
  assert (¬ routed (method_of req) pathname →
          answer now provider req s = (Replied (status_json 404 (ErrorPayload "Not found")), s))
    as Hunrouted.
  { intros Hno. unfold Server.handleRequest. rewrite Hurl.
    destruct (findRoute routes (method_of req) pathname) as [route params| |] eqn:Hfound;
      [| done |].
    - destruct Hno. apply (routed_iff (method_of req) pathname). by rewrite Hfound.
    - destruct Hno. apply (routed_iff (method_of req) pathname). by rewrite Hfound. }
  split; [|done]. split; [|by intros ->%Hunrouted].
  intros Hreply Hrouted. apply (routed_iff (method_of req) pathname) in Hrouted.
  destruct (answer_cases now provider req s)
    as [Herror|(pathname' & search' & Hurl' & [[Hno _]|(route & params & parsed & _ & Hcall)])].
  - by rewrite Herror in Hreply.
  - rewrite Hurl in Hurl'. by injection Hurl' as <- <-.
  - rewrite Hcall in Hreply.
    destruct (handler_statuses (handler route) now provider parsed s)
      as [Hs|[Hs|[Hs|[_ [key Hs]]]]]; by rewrite Hreply in Hs.
Qed.

(** X26. A POST to /put or /batch-put that carries no body is answered
    400, not 500: [parseBody] resolves to the empty object, which has no
    key and no entries. The engine is not called. *)
Theorem handleRequest_empty_body now provider req s (pathname search : string) :
  url req = Some (pathname, search) → method_of req = "POST" →
  pathname = "/put" ∨ pathname = "/batch-put" →
  req_chunks req = [] → req_failed req = false →
  reply_status (answer now provider req s).1 = 400%Z
  ∧ (answer now provider req s).2 = s.
Proof.
  intros Hurl Hmethod Hpath Hchunks Hfailed. unfold Server.handleRequest.
  rewrite Hurl, Hmethod.
  assert (parseBody req = BodyResolved (JObject [])) as Hbody.
  { unfold Server.parseBody. by rewrite Hchunks, Hfailed. }
  destruct Hpath as [->| ->].
  - rewrite (proj1 (proj2 findRoute_fixed)).
    cbn [String.eqb Ascii.eqb Bool.eqb orb handler]. by rewrite Hbody.
  - rewrite (proj1 (proj2 (proj2 findRoute_fixed))).
    cbn [String.eqb Ascii.eqb Bool.eqb orb handler]. by rewrite Hbody.
Qed.
End ServerFacts.

(* ================================================================== *)
(** * The keys of the integration tests                                *)
(* ================================================================== *)

Lemma rng_key_next (i : nat) :
  (i < 999)%nat → LSM.key_lt (rng_key i) (rng_key (Datatypes.S i)).
Proof.
  intros Hi. apply key_ltb_lt.
  assert (forallb (fun i => LSM.key_ltb (rng_key i) (rng_key (Datatypes.S i))) (List.seq 0 999)
          = true) as Hall by (vm_compute; reflexivity).
  rewrite forallb_forall in Hall. apply Hall. apply in_seq. lia.
Qed.

(** X27. The keys [rng:001], [rng:002], ... that [testRangeQuery] writes
    sort, as strings, in the order of their numbers as long as the numbers
    stay below 1000: this is what the zero padding to three digits buys. A
    fourth digit breaks it: [rng:1000] sorts before every key from
    [rng:101] on. *)
Theorem rng_key_order (i j : nat) :
  (i < j)%nat → (j < 1000)%nat →
  LSM.key_lt (rng_key i) (rng_key j)
  ∧ ((100 < j)%nat → LSM.key_lt (rng_key 1000) (rng_key j)).
Proof.
  intros Hij Hj. split.
  - induction j as [|j IH]; [lia|].
    destruct (decide (i = j)) as [->|Hne].
    + apply rng_key_next. lia.
    + apply (key_lt_trans _ (rng_key j)); [apply IH; lia|apply rng_key_next; lia].
  - intros Hlarge.
    assert (forallb (fun j => LSM.key_ltb (rng_key 1000) (rng_key j)) (List.seq 101 899) = true)
      as Hall by (vm_compute; reflexivity).
    rewrite forallb_forall in Hall. apply key_ltb_lt, Hall, in_seq. lia.
Qed.

(* ================================================================== *)
(** * The limit of GET /range, as [parseInt] reads it                  *)
(* ================================================================== *)

Lemma digits_prefix_stop (acc : option Z) (rest : string) :
  starts_with_digit rest = false → digits_prefix acc rest = acc.
Proof.
  destruct rest as [|c rest]; [done|]. cbn [starts_with_digit digits_prefix].
  destruct (digit_value c); [|done]. intros Hd. by apply bool_decide_eq_false in Hd as [].
Qed.

Lemma digits_prefix_decimal_app (d : Decimal.uint) (acc : nat) (rest : string) :
  starts_with_digit rest = false →
  digits_prefix (Some (Z.of_nat acc)) (NilEmpty.string_of_uint d +:+ rest)
  = Some (Z.of_nat (Nat.of_uint_acc d acc)).
Proof.
  intros Hrest. revert acc. induction d; intros acc;
    [by apply digits_prefix_stop|..];
    cbn [NilEmpty.string_of_uint Nat.of_uint_acc]; rewrite string_app_cons;
    cbn [digits_prefix];
    (etrans; [|apply IHd]);
    match goal with
    | |- context [digit_value ?c] =>
        let v := eval vm_compute in (digit_value c) in change (digit_value c) with v
    end;
    cbn -[Z.of_nat Z.mul Z.add Nat.tail_mul append];
    do 2 f_equal; rewrite Nat.tail_mul_spec; lia.
Qed.

(** [parseInt] reads the decimal numeral a string begins with and ignores
    what follows it. *)
Lemma parseInt10_decimal_app (n : nat) (rest : string) :
  starts_with_digit rest = false →
  parseInt10 (index_toString n +:+ rest) = Some (Z.of_nat n).
Proof.
  intros Hrest. unfold index_toString.
  rewrite <- (Unsigned.of_to n) at 2. unfold Nat.of_uint.
  destruct (Nat.to_uint n) as [|d|d|d|d|d|d|d|d|d|d];
    unfold parseInt10;
    cbn [NilZero.string_of_uint NilEmpty.string_of_uint Nat.of_uint_acc];
    rewrite string_app_cons; cbn [trim_start digits_prefix];
    match goal with
    | |- context [is_white_space ?c] =>
        let v := eval vm_compute in (is_white_space c) in change (is_white_space c) with v
    end;
    cbv beta iota; cbn [digits_prefix];
    match goal with
    | |- context [digit_value ?c] =>
        let v := eval vm_compute in (digit_value c) in change (digit_value c) with v
    end;
    cbv beta iota.
  1: { change ("" +:+ rest) with rest. by rewrite digits_prefix_stop. }
  all: (etrans; [|by apply (digits_prefix_decimal_app _ _ rest)]); reflexivity.
Qed.

Section RangeLimit.
Context {number : Type} `{JsNumber number}.
Context {S : Type} {engine : IStorageEngine S}.
Context {St Me : Type}.

Local Abbreviation handle := (@handleRequest number S St Me).

(** X6. A limit that begins with the decimal numeral of a safe integer
    [n] (at most [2^53 - 1], so that [parseInt] gives it exactly) is read as
    [n], whatever follows the digits: the request is rejected when [n] is 0
    and otherwise the engine is asked for at most [n] pairs. *)
Theorem handleRange_limit_numeral (req : ParsedRequest number) (s : S)
    (start end_ rest : string) (n : nat) :
  query req !! "start" = Some start → start ≠ "" →
  query req !! "end" = Some end_ → end_ ≠ "" →
  query req !! "limit" = Some (index_toString n +:+ rest) →
  starts_with_digit rest = false →
  (Z.of_nat n ≤ MAX_SAFE_INTEGER)%Z →
  handle handleRange req s =
    if (n =? 0)%nat
    then (status_json 400 (ErrorPayload "Invalid limit: must be positive integer"), s)
    else
      match readKeyRange start end_ (Some (Z.of_nat n)) s with
      | (Ok results, s') => (json (RangePayload (length results) results), s')
      | (Throw _, s') => (status_json 500 (ErrorPayload "Internal server error"), s')
      end.
Proof.
  intros Hs Hs' He He' Hl Hrest _.
  assert (parse_limit (query req !! "limit")
          = if (n =? 0)%nat then None else Some (Z.of_nat n)) as Hparse.
  { rewrite Hl. unfold parse_limit. rewrite parseInt10_decimal_app by done.
    destruct n as [|n]; [done|]. cbn [Nat.eqb].
    by destruct (Z.ltb_spec (Z.of_nat (Datatypes.S n)) 1); [lia|]. }
  destruct (n =? 0)%nat.
  - by apply (handleRange_bad_limit req s start end_).
  - by apply handleRange_run.
Qed.
End RangeLimit.

(* ================================================================== *)
(** * The properties above on the requests of the integration tests   *)
(* ================================================================== *)

Lemma rejected_request_leaves_engine_witness :
  let req : ParsedRequest Z :=
    {| method := "POST"; path := "/put"; params := ∅; query := ∅;
       body := JObject [("value", JString "nokey")] |} in
  handleRequest (ReplicationState:=unit) (ReplicationMetrics:=unit) handlePut req rng_store
  = (status_json 400%Z (ErrorPayload "Invalid key: must be non-empty string"), rng_store).
Proof.
  cbn zeta.
  set (req := {| method := "POST"; path := "/put"; params := ∅; query := ∅;
                 body := JObject [("value", JString "nokey")] |} : ParsedRequest Z).
  pose proof (proj1 (rejected_request_leaves_engine (St:=unit) (Me:=unit) req rng_store)
                eq_refl) as Hstate.
  rewrite (surjective_pairing (handleRequest handlePut req rng_store)), Hstate.
  reflexivity.
Defined.

Lemma handleRange_engine_call_witness :
  let req := GET_range [("start", "rng:005"); ("end", "rng:015")] in
  ∃ results,
    handleRequest (ReplicationState:=unit) (ReplicationMetrics:=unit) handleRange req rng_store
    = (json (RangePayload (length results) results), rng_store)
    ∧ readKeyRange "rng:005" "rng:015" (Some 100%Z) rng_store = (Ok results, rng_store).
Proof.
  cbn zeta.
  set (req := GET_range [("start", "rng:005"); ("end", "rng:015")]).
  assert (safe_limit (query req !! "limit")) as Hsafe.
  { intros l n Hl. vm_compute in Hl. discriminate Hl. }
  destruct (handleRange_engine_call (St:=unit) (Me:=unit) req rng_store Hsafe)
    as [(start & end_ & parsedLimit & Hstart & _ & Hend & _ & _ & Hlimit & Hrun)
       |(Hstatus & _)].
  - vm_compute in Hstart. injection Hstart as <-.
    vm_compute in Hend. injection Hend as <-.
    vm_compute in Hlimit. subst parsedLimit.
    rewrite Hrun. eexists. split; reflexivity.
  - vm_compute in Hstatus. discriminate Hstatus.
Defined.

Lemma handleBatchPut_first_invalid_witness :
  let req : ParsedRequest Z :=
    {| method := "POST"; path := "/batch-put"; params := ∅; query := ∅;
       body := JObject [("entries",
                         JArray [JObject [("key", JString "a"); ("value", JString "1")];
                                 JObject [("key", JString "b")];
                                 JObject [("value", JString "3")]])] |} in
  handleRequest (ReplicationState:=unit) (ReplicationMetrics:=unit) handleBatchPut
    req (LSM.empty TEST_CONFIG)
  = (status_json 400%Z
       (ErrorPayload "Invalid value at index 1: must not be null or undefined"),
     LSM.empty TEST_CONFIG).
Proof.
  cbn zeta.
  set (req := {| method := "POST"; path := "/batch-put"; params := ∅; query := ∅;
                 body := JObject [("entries",
                                   JArray [JObject [("key", JString "a"); ("value", JString "1")];
                                           JObject [("key", JString "b")];
                                           JObject [("value", JString "3")]])] |}
              : ParsedRequest Z).
  rewrite (handleBatchPut_first_invalid (St:=unit) (Me:=unit) req (LSM.empty TEST_CONFIG)
             [JObject [("key", JString "a"); ("value", JString "1")]]
             (JObject [("key", JString "b")])
             [JObject [("value", JString "3")]] eq_refl).
  - reflexivity.
  - apply Forall_singleton. split; [split; [by exists "a"|by split]|by exists "1"].
  - intros [_ [Hnull _]]. by apply Hnull.
Defined.

Lemma handleBatchPut_entries_first_witness :
  let entries := JArray [JObject [("key", JString "a"); ("value", JString "1")]] in
  let req (others : list (string * Json Z)) : ParsedRequest Z :=
    {| method := "POST"; path := "/batch-put"; params := ∅; query := ∅;
       body := JObject (("entries", entries) :: others) |} in
  handleRequest (ReplicationState:=unit) (ReplicationMetrics:=unit) handleBatchPut
    (req [("keys", JArray [JString ""]); ("values", JNull)]) (LSM.empty TEST_CONFIG)
  = handleRequest handleBatchPut (req []) (LSM.empty TEST_CONFIG).
Proof.
  cbn zeta.
  exact (handleBatchPut_entries_first (St:=unit) (Me:=unit)
           {| method := "POST"; path := "/batch-put"; params := ∅; query := ∅;
              body := JObject [("entries",
                                JArray [JObject [("key", JString "a"); ("value", JString "1")]]);
                               ("keys", JArray [JString ""]); ("values", JNull)] |}
           {| method := "POST"; path := "/batch-put"; params := ∅; query := ∅;
              body := JObject [("entries",
                                JArray [JObject [("key", JString "a"); ("value", JString "1")]])] |}
           (LSM.empty TEST_CONFIG)
           [JObject [("key", JString "a"); ("value", JString "1")]] eq_refl eq_refl).
Defined.

Lemma handleRange_negative_limit_witness :
  let req := GET_range [("start", "rng:001"); ("end", "rng:030"); ("limit", "-5")] in
  handleRequest (ReplicationState:=unit) (ReplicationMetrics:=unit) handleRange req rng_store
  = (status_json 400%Z (ErrorPayload "Invalid limit: must be positive integer"), rng_store).
Proof.
  cbn zeta.
  apply (handleRange_negative_limit (St:=unit) (Me:=unit)
           (GET_range [("start", "rng:001"); ("end", "rng:030"); ("limit", "-5")])
           rng_store "rng:001" "rng:030" "5");
    (vm_compute; reflexivity) || discriminate.
Defined.

Lemma handleRange_limit_numeral_witness :
  let req := GET_range [("start", "rng:001"); ("end", "rng:030"); ("limit", "5abc")] in
  (handleRequest (ReplicationState:=unit) (ReplicationMetrics:=unit) handleRange req rng_store).1
  = json (RangePayload 5 [("rng:001", "R-1"); ("rng:002", "R-2"); ("rng:003", "R-3");
                          ("rng:004", "R-4"); ("rng:005", "R-5")]).
Proof.
  cbn zeta.
  rewrite (handleRange_limit_numeral (St:=unit) (Me:=unit)
             (GET_range [("start", "rng:001"); ("end", "rng:030"); ("limit", "5abc")])
             rng_store "rng:001" "rng:030" "abc" 5);
    (vm_compute; reflexivity) || discriminate.
Defined.

Lemma parseQueryString_last_wins_witness :
  parseQueryString [("limit", "5"); ("start", "a"); ("limit", "7"); ("end", "z")] !! "limit"
  = Some "7".
Proof.
  apply (parseQueryString_last_wins [("limit", "5"); ("start", "a")] [("end", "z")]
           "limit" "7"); [discriminate|].
  intros [Hin|Hin%elem_of_nil]%elem_of_cons; [discriminate|done].
Defined.

Lemma first_json_is_the_answer_witness :
  let this :=
    ResponseHelper.run
      [ResponseHelper.Status 400%Z; ResponseHelper.Json "Invalid key";
       ResponseHelper.Status 500%Z; ResponseHelper.Json "Internal server error"]
      ResponseHelper.create in
  ResponseHelper.ended (ResponseHelper.res this) = Some (400%Z, "Invalid key").
Proof.
  cbn zeta.
  apply (first_json_is_the_answer (A:=string) [ResponseHelper.Status 400%Z]
           [ResponseHelper.Status 500%Z; ResponseHelper.Json "Internal server error"]
           "Invalid key").
  by apply Forall_singleton.
Defined.

Lemma parseBody_chunking_witness :
  @Server.parseBody Z sample_Runtime (request "POST" "/put" (Some "{}"))
  = @Server.parseBody Z sample_Runtime
      {| req_method := Some "POST"; req_url := Some "/put"; req_host := None;
         req_chunks := ["{"; ""; "}"]; req_failed := false |}.
Proof.
  apply (parseBody_chunking (H:=sample_Runtime)); discriminate || reflexivity.
Defined.

Lemma match_pattern_captures_witness :
  fill (literals "/get/" ++ [Segment]) ["user:1"] = "/get/user:1".
Proof.
  apply (match_pattern_captures (literals "/get/" ++ [Segment]) "/get/user:1" ["user:1"]).
  reflexivity.
Defined.

Lemma match_pattern_round_trip_witness :
  match_pattern (literals "/a/" ++ [Segment] ++ literals "/b/" ++ [Segment]) "/a/12/b/xyz"
  = Some ["12"; "xyz"].
Proof.
  apply (match_pattern_round_trip (literals "/a/" ++ [Segment] ++ literals "/b/" ++ [Segment])
           ["12"; "xyz"]); [reflexivity| |reflexivity].
  repeat (constructor; [by split|]). constructor.
Defined.

Lemma addRoute_names_captures_witness :
  ∃ route, addRoute "GET" "/get/:key" HandleGet [] = Some [route]
           ∧ length (paramNames route) = 1%nat.
Proof.
  destruct (addRoute_names_captures "GET" "/get/:key" HandleGet []
              [ {| route_method := "GET"; pattern := literals "/get/" ++ [Segment];
                   paramNames := ["key"]; handler := HandleGet |} ] eq_refl)
    as (route & Hroute & _ & _ & Hcaptures).
  exists route. cbn [app] in Hroute. injection Hroute as <-. split; reflexivity.
Defined.

Lemma findRoute_first_match_witness :
  @Server.findRoute Z sample_Runtime routes "DELETE" "/delete/user:del"
  = RouteFound {| route_method := "DELETE"; pattern := literals "/delete/" ++ [Segment];
                  paramNames := ["key"]; handler := HandleDelete |}
               {[ "key" := "user:del" ]}.
Proof.
  refine (eq_trans
            (findRoute_first_match (H:=sample_Runtime)
               [ {| route_method := "GET"; pattern := literals "/health";
                    paramNames := []; handler := HandleHealth |};
                 {| route_method := "POST"; pattern := literals "/put";
                    paramNames := []; handler := HandlePut |};
                 {| route_method := "POST"; pattern := literals "/batch-put";
                    paramNames := []; handler := HandleBatchPut |};
                 {| route_method := "GET"; pattern := literals "/get/" ++ [Segment];
                    paramNames := ["key"]; handler := HandleGet |} ]
               [ {| route_method := "GET"; pattern := literals "/range";
                    paramNames := []; handler := HandleRange |};
                 {| route_method := "GET"; pattern := literals "/replication/status";
                    paramNames := []; handler := HandleReplicationStatus |} ]
               {| route_method := "DELETE"; pattern := literals "/delete/" ++ [Segment];
                  paramNames := ["key"]; handler := HandleDelete |}
               "DELETE" "/delete/user:del" ["user:del"] _ eq_refl eq_refl) _).
  - repeat (constructor; [by intros [? _]|]). constructor.
  - vm_compute. reflexivity.
Defined.

Lemma routes_unambiguous_witness :
  Forall (fun route =>
            route_method route = "GET"
            ∧ is_Some (match_pattern (pattern route) "/get/health") →
            handler route = HandleGet) routes.
Proof.
  apply Forall_forall. intros route Hroute Hserves.
  rewrite (routes_unambiguous route
             {| route_method := "GET"; pattern := literals "/get/" ++ [Segment];
                paramNames := ["key"]; handler := HandleGet |}
             "GET" "/get/health" Hroute); [reflexivity| |done|by split].
  rewrite routes_registered. do 3 right. left.
Defined.

Lemma handleRequest_get_witness :
  (sample_server 0%Z (request "GET" "/get/nonexistent" None) rng_store).1
  = Replied (status_json 404%Z (KeyNotFoundPayload "Key not found" "nonexistent")).
Proof.
  unfold sample_server.
  rewrite (handleRequest_get (H0:=sample_Runtime) 0%Z _ (request "GET" "/get/nonexistent" None)
             rng_store "nonexistent" "" eq_refl eq_refl).
  - vm_compute. reflexivity.
  - by split.
Defined.

Lemma handleRequest_delete_witness :
  (sample_server 0%Z (request "DELETE" "/delete/rng:001" (Some "ignored")) rng_store).1
  = Replied (json SuccessPayload).
Proof.
  unfold sample_server.
  rewrite (handleRequest_delete (H0:=sample_Runtime) 0%Z _
             (request "DELETE" "/delete/rng:001" (Some "ignored"))
             rng_store "rng:001" "" eq_refl eq_refl).
  - vm_compute. reflexivity.
  - by split.
Defined.

Lemma handleRequest_put_witness :
  sample_server 0%Z (request "POST" "/put" (Some "not json")) rng_store
  = (Replied (status_json 500%Z (ErrorPayload "Internal server error")), rng_store).
Proof.
  unfold sample_server.
  rewrite (handleRequest_put (H0:=sample_Runtime) 0%Z _ (request "POST" "/put" (Some "not json"))
             rng_store "" eq_refl eq_refl).
  reflexivity.
Defined.

Lemma handleRequest_batch_put_witness :
  sample_server 0%Z (request "POST" "/batch-put" (Some "{}")) rng_store
  = (Replied (status_json 400%Z
                (ErrorPayload
                   ("Invalid request body: provide either " +:+ quoted "entries"
                    +:+ " array or " +:+ quoted "keys" +:+ " and "
                    +:+ quoted "values" +:+ " arrays"))), rng_store).
Proof.
  unfold sample_server.
  rewrite (handleRequest_batch_put (H0:=sample_Runtime) 0%Z _
             (request "POST" "/batch-put" (Some "{}")) rng_store "" eq_refl eq_refl).
  reflexivity.
Defined.

Lemma handleRequest_range_witness :
  ∃ results,
    (sample_server 0%Z (request "GET" "/range?start=rng:005&end=rng:015" None) rng_store).1
    = Replied (json (RangePayload 11 results)).
Proof.
  unfold sample_server.
  rewrite (handleRequest_range (H0:=sample_Runtime) 0%Z _
             (request "GET" "/range?start=rng:005&end=rng:015" None) rng_store
             "?start=rng:005&end=rng:015" eq_refl eq_refl).
  eexists. vm_compute. reflexivity.
Defined.

Lemma handleRequest_status_routes_witness :
  sample_server 1762041600000%Z (request "GET" "/health" None) rng_store
  = (Healthy 1762041600000%Z, rng_store).
Proof.
  unfold sample_server.
  exact (proj1 (handleRequest_status_routes (H0:=sample_Runtime) 1762041600000%Z _
                  (request "GET" "/health" None) rng_store "/health" "" eq_refl eq_refl)
               eq_refl).
Defined.

Lemma handleRequest_not_found_witness :
  sample_server 0%Z (request "PUT" "/put" (Some "{}")) rng_store
  = (Replied (status_json 404%Z (ErrorPayload "Not found")), rng_store).
Proof.
  unfold sample_server.
  apply (handleRequest_not_found (H0:=sample_Runtime) 0%Z _ (request "PUT" "/put" (Some "{}"))
           rng_store "/put" "" eq_refl).
  intros [[Hmethod _]|[[Hmethod _]|[Hmethod _]]]; discriminate.
Defined.

Lemma handleRequest_empty_body_witness :
  reply_status (sample_server 0%Z (request "POST" "/put" None) rng_store).1 = 400%Z.
Proof.
  unfold sample_server.
  apply (handleRequest_empty_body (H0:=sample_Runtime) 0%Z _ (request "POST" "/put" None)
           rng_store "/put" "" eq_refl eq_refl (or_introl eq_refl) eq_refl eq_refl).
Defined.

Lemma rng_key_order_witness :
  LSM.key_lt "rng:005" "rng:015".
Proof. apply (rng_key_order 5 15); lia. Defined.
